(** * tBTC cross-chain relayer: deposit records, reconciler passes and backfill

    A shallow embedding of the relayer's deposit model (utils/Deposits.ts),
    its JSON store (utils/JsonUtils.ts) and the EVM chain handler
    (handlers/EVMChainHandler.ts), with the statements of the specification
    proved or refuted over it, followed by further properties of the same
    code, of the standalone services (services/FinalizeDeposits.ts,
    services/CheckForPastDeposits.ts) and of the listing by status of
    utils/JsonUtils.ts.

    Conventions.
    - A JavaScript [number] that holds an integer is a [Z]; [null] and
      [undefined] are [None]; a string is a [string] and its [length] is
      [String.length].
    - Everything the relayer does not own (the chain, the clock, the hash
      functions of its libraries) is a field of [Env]; an answer of the
      outside world may depend on the moment it is asked, which is the
      [tick] of the [World].
    - Effectful code runs in the monad [M]: state passing over [World] with a
      thrown JavaScript error as the second outcome. An [await] is a plain
      sequencing point: one handler invocation runs to its end. *)

From Stdlib Require Import ZArith NArith String Ascii List Lia DecimalString.
From Stdlib Require DecimalN DecimalPos.
From Stdlib.Strings Require Import Byte.
From stdpp Require Import base option list gmap strings.

Local Open Scope Z_scope.
Local Open Scope string_scope.

(** ** JavaScript values *)

(** A thrown value: [new Error(message)]; ethers adds [reason] to the errors
    of a reverted call. *)
Record JsError := { message : string; reason : option string }.

Inductive Result (A : Type) :=
| Ok (a : A)
| Throw (e : JsError).
Arguments Ok {A} a.
Arguments Throw {A} e.

Definition Error (msg : string) : JsError := {| message := msg; reason := None |}.

(** [s ? .. : ..] on a string: the empty string is falsy. *)
Definition truthy_string (s : string) : bool :=
  match s with EmptyString => false | String _ _ => true end.

(** [v ? .. : ..] on [string | null | undefined]. *)
Definition truthy (v : option string) : bool :=
  match v with Some s => truthy_string s | None => false end.

(** The [tx?: any] argument of the record updates, as the callers use it:
    nothing ([null] or left out), a transaction response (an object whose
    [hash] property may be missing), or a string. *)
Inductive JsTx :=
| TxNull
| TxResponse (hash : option string)
| TxText (s : string).

Definition truthy_tx (tx : JsTx) : bool :=
  match tx with
  | TxNull => false
  | TxResponse _ => true
  | TxText s => truthy_string s
  end.

(** [tx?.hash]: a string has no [hash] property. *)
Definition tx_hash (tx : JsTx) : option string :=
  match tx with
  | TxResponse h => h
  | TxNull | TxText _ => None
  end.

(** [tx?.hash ? tx.hash : null] *)
Definition hash_or_null (tx : JsTx) : option string :=
  if truthy (tx_hash tx) then tx_hash tx else None.

(** ** Bytes and hexadecimal strings (ethers' [arrayify], [hexlify]) *)

Definition hexDigit (n : N) : ascii :=
  match n with
  | 0 => "0" | 1 => "1" | 2 => "2" | 3 => "3" | 4 => "4" | 5 => "5"
  | 6 => "6" | 7 => "7" | 8 => "8" | 9 => "9" | 10 => "a" | 11 => "b"
  | 12 => "c" | 13 => "d" | 14 => "e" | _ => "f"
  end%N%char.

Definition hexValue (c : ascii) : option N :=
  let n := N_of_ascii c in
  if ((48 <=? n) && (n <=? 57))%N then Some (n - 48)%N
  else if ((97 <=? n) && (n <=? 102))%N then Some (n - 87)%N
  else if ((65 <=? n) && (n <=? 70))%N then Some (n - 55)%N
  else None.

Definition isHexChar (c : ascii) : bool :=
  match hexValue c with Some _ => true | None => false end.

Fixpoint isHex (s : string) : bool :=
  match s with
  | EmptyString => true
  | String c r => isHexChar c && isHex r
  end.

(** Two hexadecimal digits per byte, from the left. *)
Fixpoint bytes_of_hex (s : string) : option (list byte) :=
  match s with
  | EmptyString => Some []
  | String _ EmptyString => None
  | String a (String b r) =>
      match hexValue a, hexValue b, bytes_of_hex r with
      | Some hi, Some lo, Some bs =>
          match Byte.of_N (16 * hi + lo) with
          | Some x => Some (x :: bs)
          | None => None
          end
      | _, _, _ => None
      end
  end.

Fixpoint hex_of_bytes (bs : list byte) : string :=
  match bs with
  | [] => EmptyString
  | b :: r =>
      String (hexDigit (Byte.to_N b / 16)) (String (hexDigit (Byte.to_N b mod 16)) (hex_of_bytes r))
  end.

(** [arrayify(value)] on a string: it must be [0x] followed by an even number
    of hexadecimal digits. *)
Definition arrayify (value : string) : Result (list byte) :=
  match value with
  | String "0" (String "x" digits) =>
      match bytes_of_hex digits with
      | Some bs => Ok bs
      | None => Throw (Error "invalid arrayify value")
      end
  | _ => Throw (Error "invalid arrayify value")
  end.

(** [hexlify(bytes)]: [0x] and two lowercase digits per byte. *)
Definition hexlify (bs : list byte) : string := "0x" ++ hex_of_bytes bs.

(** The value of a string of hexadecimal digits, most significant first. *)
Fixpoint hex_value_from (acc : N) (s : string) : option N :=
  match s with
  | EmptyString => Some acc
  | String c r =>
      match hexValue c with
      | Some v => hex_value_from (16 * acc + v)%N r
      | None => None
      end
  end.

(** [BigNumber.from(value)] on a [0x] string. *)
Definition BigNumber_from (value : string) : Result N :=
  match value with
  | String "0" (String "x" digits) =>
      match hex_value_from 0%N digits with
      | Some n => Ok n
      | None => Throw (Error "invalid BigNumber string")
      end
  | _ => Throw (Error "invalid BigNumber string")
  end.

(** [bigNumber.toString()]: decimal, no leading zero, [0] for zero. *)
Definition BigNumber_toString (n : N) : string :=
  NilZero.string_of_uint (N.to_uint n).

(** The four bytes of a value below [2^32], most significant first. *)
Definition be32 (n : Z) : list byte :=
  omap (fun k => Byte.of_N (Z.to_N (Z.land (Z.shiftr n k) 255))) [24; 16; 8; 0].

(** [BigNumber.from(v).toTwos(32)] for a negative number: the library
    complements the low 32 bits of [-v], clears the bits 32 to 51 (the rest
    of its second 26-bit word), keeps the bits from 52 on and adds one. For
    [-2^32 < v < 0] this is the two's complement [2^32 + v]. *)
Definition toTwos32_negative (v : Z) : Z :=
  let a := - v in
  (2 ^ 32 - 1 - a mod 2 ^ 32) + (a / 2 ^ 52) * 2 ^ 52 + 1.

(** [solidityPack] of one [uint32]: [BigNumber.from(v).toTwos(32)] padded to
    four bytes. [BigNumber.from] rejects a number that is not a safe integer
    with [overflow]; a result that needs more than four bytes is rejected
    with [value out of range]. *)
Definition pack_uint32 (v : Z) : Result (list byte) :=
  if ((v <=? - (2 ^ 53 - 1)) || (2 ^ 53 - 1 <=? v))%Z then Throw (Error "overflow")
  else
    let twos := if (v <? 0)%Z then toTwos32_negative v else v in
    if (twos <? 2 ^ 32)%Z then Ok (be32 twos)
    else Throw (Error "value out of range").

(** [solidityPack] of one [bytes32]: the value must be the hexadecimal form of
    exactly 32 bytes. *)
Definition pack_bytes32 (value : string) : Result (list byte) :=
  match arrayify value with
  | Ok bs =>
      if (length bs =? 32)%nat then Ok bs
      else Throw (Error "invalid value for bytes32")
  | Throw e => Throw e
  end.

(** [ethers.utils.solidityPack(['bytes32', 'uint32'], [a, b])]: the hexadecimal
    form of the two packed values, concatenated. *)
Definition solidityPack_bytes32_uint32 (a : string) (b : Z) : Result string :=
  match pack_bytes32 a with
  | Ok x =>
      match pack_uint32 b with
      | Ok y => Ok (hexlify (x ++ y)%list)
      | Throw e => Throw e
      end
  | Throw e => Throw e
  end.

(** ** The deposit record (types/Deposit.type.ts) *)

(** Modelled from the spec: types/FundingTransaction.type.ts is not part of the
    sources; the record has the four fields the specification lists and that
    [createDeposit] copies. [transactionHash] is the property that
    [EVMChainHandler.checkForPastDeposits] reads from the event argument; the
    event's tuple does not declare it, so it is [None] ([undefined]) unless a
    caller adds it. *)
Record FundingTransaction := {
  version : string;
  inputVector : string;
  outputVector : string;
  locktime : string;
  transactionHash : option string
}.

(** Modelled from the spec: types/Reveal.type.ts is not part of the sources;
    the reveal tuple is positional, [reveal[0]] is the output index and
    [reveal[1]] to [reveal[5]] are opaque byte strings. *)
Record Reveal := {
  reveal0 : Z;
  reveal1 : string;
  reveal2 : string;
  reveal3 : string;
  reveal4 : string;
  reveal5 : string
}.

Record BtcHashes := { btcTxHash : string }.

Record EthHashes := {
  initializeTxHash : option string;
  finalizeTxHash : option string
}.

Record Hashes := { btc : BtcHashes; eth : EthHashes }.

Record Receipt := {
  depositor : string;
  blindingFactor : string;
  walletPublicKeyHash : string;
  refundPublicKeyHash : string;
  refundLocktime : string;
  extraData : string
}.

Record OutputEvent := {
  fundingTx : FundingTransaction;
  reveal : Reveal;
  l2DepositOwner : string;
  l2Sender : string
}.

Record Dates := {
  createdAt : option Z;
  initializationAt : option Z;
  finalizationAt : option Z;
  lastActivityAt : Z
}.

Record Deposit := {
  id : string;
  fundingTxHash : string;
  outputIndex : Z;
  hashes : Hashes;
  receipt : Receipt;
  owner : string;
  status : Z;
  L1OutputEvent : OutputEvent;
  dates : Dates;
  error : option string
}.

(** Modelled from the spec: types/DepositStatus.enum.ts is not part of the
    sources; the enumeration is numeric, [QUEUED=0, INITIALIZED=1,
    FINALIZED=2]. *)
Module DepositStatus.
Definition QUEUED : Z := 0.
Definition INITIALIZED : Z := 1.
Definition FINALIZED : Z := 2.
End DepositStatus.

(** ** The outside world *)

(** [providerL2.getBlock(n)]: the call throws, resolves to [null], or resolves
    to a block, of which only the timestamp is read. *)
Inductive BlockFetch :=
| FetchThrows (e : JsError)
| FetchNull
| FetchBlock (timestamp : Z).

(** The arguments of one [DepositInitialized] event ([event.args]). *)
Record DepositInitializedEvent := {
  ev_fundingTx : FundingTransaction;
  ev_reveal : Reveal;
  ev_l2DepositOwner : string;
  ev_l2Sender : string
}.

Record Env := {
  (** libraries: keccak-256 on bytes, and utils/GetTransactionHash.ts, which
      is not part of the sources (Bitcoin transaction hashing, an opaque
      function of the funding transaction) *)
  keccak_256 : list byte -> list byte;
  getFundingTxHash : FundingTransaction -> string;
  getTransactionHash : FundingTransaction -> string;
  (** configuration: [parseInt(process.env.L2_START_BLOCK || '0')], and
      whether the L2 contract bindings were built by [initialize] *)
  START_BLOCK : Z;
  l2BitcoinDepositor : bool;
  (** the clock: [Date.now()] at a tick *)
  Date_now_at : nat -> Z;
  (** L1BitcoinDepositor and the nonce manager, at a tick *)
  deposits_at : nat -> string -> Result Z;
  callStatic_initializeDeposit_at : nat -> OutputEvent -> Result unit;
  send_initializeDeposit_at : nat -> OutputEvent -> Z -> Result string;
  callStatic_finalizeDeposit_at : nat -> string -> Result Z;
  send_finalizeDeposit_at : nat -> string -> Z -> Z -> Result string;
  getTransactionCount_at : nat -> Result Z;
  wait_at : nat -> string -> Result unit;
  (** the L2 provider and L2BitcoinDepositor, at a tick *)
  getBlock_at : nat -> Z -> BlockFetch;
  queryFilter_at : nat -> Z -> Z -> Result (list DepositInitializedEvent)
}.

(** What the relayer did to the outside world and to its store, most recent
    first. An entry about a deposit names its id. *)
Inductive Event :=
| EvWriteJson (operationId : string)
| EvDeposits (depositId : string)
| EvCallStaticInitialize (depositId : string)
| EvSendInitialize (depositId : string) (nonce : Z)
| EvCallStaticFinalize (depositId : string)
| EvSendFinalize (depositId : string) (value nonce : Z)
| EvGetTransactionCount
| EvWait (txHash : string)
| EvGetBlocks (timestamp latestBlock : Z)
| EvQueryFilter (startBlock endBlock : Z)
| EvLog (e : JsError).

(** The data directory: one file per key, [<key>.json]; a file either parses
    to a record or does not parse. *)
Inductive File :=
| Parsed (d : Deposit)
| Corrupt.

Record World := {
  store : gmap string File;
  trace : list Event;
  tick : nat
}.

(** ** The monad of handler code *)

Definition M (A : Type) : Type := World -> Result A * World.

Definition ret {A} (a : A) : M A := fun w => (Ok a, w).

Definition bind {A B} (m : M A) (k : A -> M B) : M B :=
  fun w =>
    match m w with
    | (Ok a, w') => k a w'
    | (Throw e, w') => (Throw e, w')
    end.

Definition throw {A} (e : JsError) : M A := fun w => (Throw e, w).

(** [try { m } catch (e) { h e }] *)
Definition try_catch {A} (m : M A) (h : JsError -> M A) : M A :=
  fun w =>
    match m w with
    | (Ok a, w') => (Ok a, w')
    | (Throw e, w') => h e w'
    end.

Notation "'let*' x ':=' m 'in' k" := (bind m (fun x => k))
  (at level 10, x name, m at level 100, k at level 200).
Notation "m '>>' k" := (bind m (fun _ => k))
  (at level 100, k at level 200, right associativity).

Definition lift {A} (r : Result A) : M A := fun w => (r, w).

Definition record (ev : Event) : M unit :=
  fun w => (Ok tt, {| store := store w; trace := ev :: trace w; tick := tick w |}).

(** One question to the outside world: the answer is the one of the current
    tick, and time moves on. *)
Definition ask {A} (answer : nat -> A) : M A :=
  fun w => (Ok (answer (tick w)),
            {| store := store w; trace := trace w; tick := S (tick w) |}).

(** A call that may throw, noted in the trace. *)
Definition call {A} (ev : Event) (answer : nat -> Result A) : M A :=
  record ev >> let* r := ask answer in lift r.

(** [for (const x of l) { await f(x) }] *)
Fixpoint for_of {A} (l : list A) (f : A -> M unit) : M unit :=
  match l with
  | [] => ret tt
  | x :: r => f x >> for_of r f
  end.

(** [LogMessage] only prints; [LogError] and the messages of the [catch]
    blocks are kept in the trace. *)
Definition LogError (e : JsError) : M unit := record (EvLog e).

Definition Date_now (env : Env) : M Z := ask (Date_now_at env).

(** ** utils/JsonUtils.ts *)

(** [checkIfExistJson]: the file exists and parses. *)
Definition checkIfExistJson (operationId : string) : M bool :=
  fun w =>
    (Ok (match store w !! operationId with Some (Parsed _) => true | _ => false end), w).

(** [getJsonById]: the record of a file that exists and parses, else [null]. *)
Definition getJsonById (operationId : string) : M (option Deposit) :=
  fun w =>
    (Ok (match store w !! operationId with Some (Parsed d) => Some d | _ => None end), w).

(** [writeJson]: the file of the key is created or overwritten. The write
    itself is taken to succeed, as it does for the keys the relayer uses,
    the decimal deposit ids: a key that does not name a file of the data
    directory (one with a path separator into a missing folder) is outside
    this model, and no statement is made about it. *)
Definition writeJson (data : Deposit) (operationId : string) : M bool :=
  fun w =>
    (Ok true,
     {| store := <[operationId := Parsed data]> (store w);
        trace := EvWriteJson operationId :: trace w;
        tick := tick w |}).

Definition parsed (f : File) : option Deposit :=
  match f with Parsed d => Some d | Corrupt => None end.

Fixpoint has_separator (s : string) : bool :=
  match s with
  | EmptyString => false
  | String c r => Ascii.eqb c "/" || has_separator r
  end.

(** The files that [readdir] of the data directory returns and that pass
    [path.extname(file) === '.json']: the file [<key>.json] of a key, unless
    the key is empty (the name [.json] has no extension) or leads into a
    folder. *)
Definition listed (operationId : string) : bool :=
  negb (String.eqb operationId EmptyString) && negb (has_separator operationId).

(** What [getAllJsonOperations] logs for a file that does not parse. *)
Definition invalid_json_file (operationId : string) : JsError :=
  Error ("Invalid JSON file: " ++ operationId ++ ".json").

Definition invalid_json_log (file : string * File) : option Event :=
  match file.2 with
  | Corrupt => Some (EvLog (invalid_json_file file.1))
  | Parsed _ => None
  end.

(** [getAllJsonOperations]: every [.json] file of the directory is read; one
    that does not parse is logged and dropped, the others are returned. The
    log line names the file (here by its name in the directory). The reads
    run concurrently, so the order of the log lines is that of their
    completion: the statements about them are about which lines there are,
    not about their order. *)
Definition getAllJsonOperations : M (list Deposit) :=
  fun w =>
    let jsonFiles := filter (fun file => listed file.1 = true) (map_to_list (store w)) in
    (Ok (omap (fun file => parsed file.2) jsonFiles),
     {| store := store w;
        trace := (reverse (omap invalid_json_log jsonFiles) ++ trace w)%list;
        tick := tick w |}).

(** The argument of [getAllJsonOperationsByStatus] as a caller passes it: a
    member of the numeric enum, or a string (both handlers pass the name of
    a status). *)
Inductive JsValue :=
| JsNumber (n : Z)
| JsString (s : string).

(** [operationStatus === status] for a numeric [operationStatus]: strict
    equality, which a number and a string never satisfy. *)
Definition strict_equal (operationStatus : Z) (status : JsValue) : bool :=
  match status with
  | JsNumber n => (operationStatus =? n)%Z
  | JsString _ => false
  end.

(** [getAllJsonOperationsByStatus]: the listing, filtered with
    [operation.status === status]. *)
Definition getAllJsonOperationsByStatus (wanted : JsValue) : M (list Deposit) :=
  let* operations := getAllJsonOperations in
  ret (filter (fun operation => strict_equal (status operation) wanted = true)
         operations).

(** ** utils/Deposits.ts *)

Section Deposits.
Variable env : Env.

(** [ethers.utils.keccak256(data)]: the digest of the bytes that [data]
    spells, as a [0x] string. *)
Definition keccak256 (data : string) : Result string :=
  match arrayify data with
  | Ok bs => Ok (hexlify (keccak_256 env bs))
  | Throw e => Throw e
  end.

Definition getDepositId (fundingTxHash : string) (fundingOutputIndex : Z)
  : Result string :=
  if negb (String.length fundingTxHash =? 64)%nat
  then Throw (Error "Invalid fundingTxHash")
  else
    let fundingTxHashBytes := "0x" ++ fundingTxHash in
    match solidityPack_bytes32_uint32 fundingTxHashBytes fundingOutputIndex with
    | Throw e => Throw e
    | Ok encodedData =>
        match keccak256 encodedData with
        | Throw e => Throw e
        | Ok hash =>
            match BigNumber_from hash with
            | Throw e => Throw e
            | Ok depositKey => Ok (BigNumber_toString depositKey)
            end
        end
    end.

Definition createDeposit (fundingTx : FundingTransaction) (reveal : Reveal)
    (l2DepositOwner l2Sender : string) : M Deposit :=
  let fundingTxHash := getFundingTxHash env fundingTx in
  let* depositId := lift (getDepositId fundingTxHash (reveal0 reveal)) in
  let* created := Date_now env in
  let* lastActivity := Date_now env in
  ret {| id := depositId;
         fundingTxHash := fundingTxHash;
         outputIndex := reveal0 reveal;
         hashes := {| btc := {| btcTxHash := getTransactionHash env fundingTx |};
                      eth := {| initializeTxHash := None; finalizeTxHash := None |} |};
         receipt := {| depositor := l2Sender;
                       blindingFactor := reveal1 reveal;
                       walletPublicKeyHash := reveal2 reveal;
                       refundPublicKeyHash := reveal3 reveal;
                       refundLocktime := reveal4 reveal;
                       extraData := reveal5 reveal |};
         L1OutputEvent := {| fundingTx := {| version := version fundingTx;
                                             inputVector := inputVector fundingTx;
                                             outputVector := outputVector fundingTx;
                                             locktime := locktime fundingTx;
                                             transactionHash := None |};
                             reveal := reveal;
                             l2DepositOwner := l2DepositOwner;
                             l2Sender := l2Sender |};
         owner := l2DepositOwner;
         status := DepositStatus.QUEUED;
         dates := {| createdAt := Some created;
                     initializationAt := None;
                     finalizationAt := None;
                     lastActivityAt := lastActivity |};
         error := None |}.

Definition updateToFinalizedDeposit (deposit : Deposit) (tx : JsTx)
    (error : option string) : M unit :=
  let newStatus := if truthy_tx tx then DepositStatus.FINALIZED else status deposit in
  let* newFinalizationAt :=
    (if truthy_tx tx then let* now := Date_now env in ret (Some now)
     else ret (finalizationAt (dates deposit))) in
  let newHash :=
    if truthy_tx tx
    then {| btc := btc (hashes deposit);
            eth := {| initializeTxHash := initializeTxHash (eth (hashes deposit));
                      finalizeTxHash := hash_or_null tx |} |}
    else hashes deposit in
  let* now := Date_now env in
  let updatedDeposit :=
    {| id := id deposit;
       fundingTxHash := fundingTxHash deposit;
       outputIndex := outputIndex deposit;
       hashes := newHash;
       receipt := receipt deposit;
       owner := owner deposit;
       status := newStatus;
       L1OutputEvent := L1OutputEvent deposit;
       dates := {| createdAt := createdAt (dates deposit);
                   initializationAt := initializationAt (dates deposit);
                   finalizationAt := newFinalizationAt;
                   lastActivityAt := now |};
       error := if truthy error then error else None |} in
  writeJson updatedDeposit (id deposit) >> ret tt.

Definition updateToInitializedDeposit (deposit : Deposit) (tx : JsTx)
    (error : option string) : M unit :=
  let newStatus := if truthy_tx tx then DepositStatus.INITIALIZED else status deposit in
  let* newInitializationAt :=
    (if truthy_tx tx then let* now := Date_now env in ret (Some now)
     else ret (initializationAt (dates deposit))) in
  let newHash :=
    if truthy_tx tx
    then {| btc := btc (hashes deposit);
            eth := {| initializeTxHash := hash_or_null tx;
                      finalizeTxHash := finalizeTxHash (eth (hashes deposit)) |} |}
    else hashes deposit in
  let* now := Date_now env in
  let updatedDeposit :=
    {| id := id deposit;
       fundingTxHash := fundingTxHash deposit;
       outputIndex := outputIndex deposit;
       hashes := newHash;
       receipt := receipt deposit;
       owner := owner deposit;
       status := newStatus;
       L1OutputEvent := L1OutputEvent deposit;
       dates := {| createdAt := createdAt (dates deposit);
                   initializationAt := newInitializationAt;
                   finalizationAt := finalizationAt (dates deposit);
                   lastActivityAt := now |};
       error := if truthy error then error else None |} in
  writeJson updatedDeposit (id deposit) >> ret tt.

Definition updateLastActivity (deposit : Deposit) : M Deposit :=
  let* now := Date_now env in
  let updatedDeposit :=
    {| id := id deposit;
       fundingTxHash := fundingTxHash deposit;
       outputIndex := outputIndex deposit;
       hashes := hashes deposit;
       receipt := receipt deposit;
       owner := owner deposit;
       status := status deposit;
       L1OutputEvent := L1OutputEvent deposit;
       dates := {| createdAt := createdAt (dates deposit);
                   initializationAt := initializationAt (dates deposit);
                   finalizationAt := finalizationAt (dates deposit);
                   lastActivityAt := now |};
       error := error deposit |} in
  writeJson updatedDeposit (id deposit) >> ret updatedDeposit.

Definition updateDepositStatus (deposit : Deposit) (newStatus : Z) : M Deposit :=
  let* now := Date_now env in
  ret {| id := id deposit;
         fundingTxHash := fundingTxHash deposit;
         outputIndex := outputIndex deposit;
         hashes := hashes deposit;
         receipt := receipt deposit;
         owner := owner deposit;
         status := newStatus;
         L1OutputEvent := L1OutputEvent deposit;
         dates := {| createdAt := createdAt (dates deposit);
                     initializationAt := initializationAt (dates deposit);
                     finalizationAt := finalizationAt (dates deposit);
                     lastActivityAt := now |};
         error := error deposit |}.

(** [txType: 'initialize' | 'finalize'] *)
Inductive TxType := initialize | finalize.

Definition updateDepositHashes (deposit : Deposit) (newStatus : Z)
    (txHash : string) (txType : TxType) : M Deposit :=
  let updatedHashes :=
    {| btc := btc (hashes deposit);
       eth := match txType with
              | initialize =>
                  {| initializeTxHash := Some txHash;
                     finalizeTxHash := finalizeTxHash (eth (hashes deposit)) |}
              | finalize =>
                  {| initializeTxHash := initializeTxHash (eth (hashes deposit));
                     finalizeTxHash := Some txHash |}
              end |} in
  let* stamp := Date_now env in
  let* now := Date_now env in
  let updatedDates :=
    match txType with
    | initialize =>
        {| createdAt := createdAt (dates deposit);
           initializationAt := Some stamp;
           finalizationAt := finalizationAt (dates deposit);
           lastActivityAt := now |}
    | finalize =>
        {| createdAt := createdAt (dates deposit);
           initializationAt := initializationAt (dates deposit);
           finalizationAt := Some stamp;
           lastActivityAt := now |}
    end in
  ret {| id := id deposit;
         fundingTxHash := fundingTxHash deposit;
         outputIndex := outputIndex deposit;
         hashes := updatedHashes;
         receipt := receipt deposit;
         owner := owner deposit;
         status := newStatus;
         L1OutputEvent := L1OutputEvent deposit;
         dates := updatedDates;
         error := None |}.
End Deposits.

(** *** getBlocksByTimestamp *)

Record BlockRange := { startBlock : Z; endBlock : Z }.

(** How the [while] loop of [getBlocksByTimestamp] ends, with the value of
    [startBlock] at that point: the loop condition fails or the [break] is
    taken, a fetch throws, or the iterations allowed to the model are used
    up. *)
Inductive LoopEnd :=
| Finished (startBlock : Z)
| Failed (startBlock : Z) (e : JsError)
| OutOfFuel.

Section BinarySearch.
Variable getBlock : Z -> BlockFetch.
Variable timestamp : Z.

(** [while (low <= high) { .. }] *)
Fixpoint binarySearch (fuel : nat) (low high startBlock : Z) : LoopEnd :=
  if (low <=? high)%Z then
    match fuel with
    | O => OutOfFuel
    | S fuel' =>
        let mid := (low + high) / 2 in
        match getBlock mid with
        | FetchThrows e => Failed startBlock e
        | FetchNull => binarySearch fuel' low (mid - 1) startBlock
        | FetchBlock t =>
            if (t =? timestamp)%Z then Finished mid
            else if (t <? timestamp)%Z then binarySearch fuel' (mid + 1) high mid
            else binarySearch fuel' low (mid - 1) startBlock
        end
    end
  else Finished startBlock.

(** The midpoints the loop records in [startBlock], in the order it finds
    them (used to state which block the search returns, not by the code). *)
Fixpoint candidates (fuel : nat) (low high : Z) : list Z :=
  if (low <=? high)%Z then
    match fuel with
    | O => []
    | S fuel' =>
        let mid := (low + high) / 2 in
        match getBlock mid with
        | FetchThrows _ => []
        | FetchNull => candidates fuel' low (mid - 1)
        | FetchBlock t =>
            if (t =? timestamp)%Z then [mid]
            else if (t <? timestamp)%Z then mid :: candidates fuel' (mid + 1) high
            else candidates fuel' low (mid - 1)
        end
    end
  else [].
End BinarySearch.

(** The iterations the loop can need: each one removes the midpoint from the
    interval. *)
Definition search_fuel (low high : Z) : nat := Z.to_nat (high - low + 1).

Section Handler.
Variable env : Env.

(** [getBlocksByTimestamp]: the L2 chain is read as it is at the tick of the
    call. The result is [None] only if the loop does not end within
    [search_fuel] iterations. *)
Definition getBlocksByTimestamp (timestamp latestBlock : Z) : M (option BlockRange) :=
  record (EvGetBlocks timestamp latestBlock) >>
  let* getBlock := ask (getBlock_at env) in
  let low := START_BLOCK env in
  let high := latestBlock in
  let latestBlockNumber := high in
  match binarySearch getBlock timestamp (search_fuel low high) low high (-1) with
  | Finished startBlock =>
      ret (Some {| startBlock := if (startBlock =? -1)%Z then START_BLOCK env else startBlock;
                   endBlock := latestBlockNumber |})
  | Failed startBlock error =>
      LogError error >>
      ret (Some {| startBlock := startBlock; endBlock := latestBlockNumber |})
  | OutOfFuel => ret None
  end.

(** Modelled from the spec: [writeNewJsonDeposit] is imported from
    utils/JsonUtils.ts but the revision of that file in the sources does not
    define it; the specification describes it as write-if-absent of the
    record built from the event, which is also why JsonUtils.ts imports
    [createDeposit]. *)
Definition writeNewJsonDeposit (fundingTx : FundingTransaction) (reveal : Reveal)
    (l2DepositOwner l2Sender : string) : M unit :=
  let* deposit := createDeposit env fundingTx reveal l2DepositOwner l2Sender in
  let* exists_ := checkIfExistJson (id deposit) in
  if exists_ then ret tt
  else writeJson deposit (id deposit) >> ret tt.

(** ** handlers/EVMChainHandler.ts *)

Definition TIME_TO_RETRY : Z := 1000 * 60 * 5.

(** [error.reason ? error.reason : "Unknown error"] *)
Definition reason_or_unknown (error : JsError) : string :=
  match reason error with
  | Some r => if truthy_string r then r else "Unknown error"
  | None => "Unknown error"
  end.

Definition initializeDeposit (deposit : Deposit) : M unit :=
  try_catch
    (call (EvCallStaticInitialize (id deposit))
       (fun n => callStatic_initializeDeposit_at env n (L1OutputEvent deposit)) >>
     let* currentNonce := call EvGetTransactionCount (getTransactionCount_at env) in
     let* tx := call (EvSendInitialize (id deposit) currentNonce)
                  (fun n => send_initializeDeposit_at env n (L1OutputEvent deposit)
                              currentNonce) in
     call (EvWait tx) (fun n => wait_at env n tx) >>
     updateToInitializedDeposit env deposit (TxResponse (Some tx)) None)
    (fun error =>
       let reason := reason_or_unknown error in
       LogError error >>
       updateToInitializedDeposit env deposit TxNull (Some reason)).

Definition finalizeDeposit (deposit : Deposit) : M unit :=
  try_catch
    (let* valueRequired := call (EvCallStaticFinalize (id deposit))
                             (fun n => callStatic_finalizeDeposit_at env n (id deposit)) in
     let value := if (0 <? valueRequired)%Z then valueRequired else 0 in
     let* currentNonce := call EvGetTransactionCount (getTransactionCount_at env) in
     let* tx := call (EvSendFinalize (id deposit) value currentNonce)
                  (fun n => send_finalizeDeposit_at env n (id deposit) value
                              currentNonce) in
     call (EvWait tx) (fun n => wait_at env n tx) >>
     updateToFinalizedDeposit env deposit (TxResponse (Some tx)) None)
    (fun error =>
       let reason := reason_or_unknown error in
       LogError error >>
       updateToFinalizedDeposit env deposit TxNull (Some reason)).

Definition checkDepositStatus (depositId : string) : M Z :=
  try_catch
    (call (EvDeposits depositId) (fun n => deposits_at env n depositId))
    (fun error => LogError error >> ret 0).

Definition filterDepositsActivityTime (deposits : list Deposit) : M (list Deposit) :=
  let* now := Date_now env in
  ret (filter (fun deposit => TIME_TO_RETRY < now - lastActivityAt (dates deposit))
         deposits).

(** The body of the [for] loop of [processInitializeDeposits]. *)
Definition processInitializeDeposit (deposit : Deposit) : M unit :=
  let* updatedDeposit := updateLastActivity env deposit in
  let* status := checkDepositStatus (id updatedDeposit) in
  if (status =? DepositStatus.INITIALIZED)%Z then
    updateToInitializedDeposit env updatedDeposit (TxText "Deposit already initialized") None
  else if (status =? DepositStatus.QUEUED)%Z then
    initializeDeposit updatedDeposit
  else if (status =? DepositStatus.FINALIZED)%Z then
    updateToFinalizedDeposit env updatedDeposit (TxText "Deposit already finalized") None
  else ret tt.

Definition processInitializeDeposits : M unit :=
  try_catch
    (let* queuedDeposits := getAllJsonOperationsByStatus (JsString "QUEUED") in
     if (length queuedDeposits =? 0)%nat then ret tt
     else
       let* filteredDeposits := filterDepositsActivityTime queuedDeposits in
       if (length filteredDeposits =? 0)%nat then ret tt
       else for_of filteredDeposits processInitializeDeposit)
    (fun error => LogError error).

(** The body of the [for] loop of [processFinalizeDeposits]. *)
Definition processFinalizeDeposit (deposit : Deposit) : M unit :=
  let* updatedDeposit := updateLastActivity env deposit in
  let* status := checkDepositStatus (id updatedDeposit) in
  if (status =? DepositStatus.INITIALIZED)%Z then
    finalizeDeposit updatedDeposit
  else if (status =? DepositStatus.FINALIZED)%Z then
    updateToFinalizedDeposit env updatedDeposit (TxText "Deposit already finalized") None
  else ret tt.

Definition processFinalizeDeposits : M unit :=
  try_catch
    (let* initializedDeposits := getAllJsonOperationsByStatus (JsString "INITIALIZED") in
     if (length initializedDeposits =? 0)%nat then ret tt
     else
       let* filteredDeposits := filterDepositsActivityTime initializedDeposits in
       if (length filteredDeposits =? 0)%nat then ret tt
       else for_of filteredDeposits processFinalizeDeposit)
    (fun error => LogError error).

(** The callback that [setupListeners] registers for the L2 event
    [DepositInitialized] (when the L2 provider binding exists). *)
Definition onDepositInitialized (fundingTx : FundingTransaction) (reveal : Reveal)
    (l2DepositOwner l2Sender : string) : M unit :=
  try_catch
    (let* deposit := createDeposit env fundingTx reveal l2DepositOwner l2Sender in
     writeNewJsonDeposit fundingTx reveal l2DepositOwner l2Sender >>
     initializeDeposit deposit)
    (fun error => LogError error).

(** The callback for the vault event [OptimisticMintingFinalized]; only the
    deposit key is read. *)
Definition onOptimisticMintingFinalized (depositKey : N) : M unit :=
  try_catch
    (let* deposit := getJsonById (BigNumber_toString depositKey) in
     match deposit with
     | Some deposit => finalizeDeposit deposit
     | None => ret tt
     end)
    (fun error => LogError error).

(** The file name that [getJsonById(fundingTx.transactionHash)] builds: the
    template string spells a missing property as [undefined]. *)
Definition transactionHash_key (fundingTx : FundingTransaction) : string :=
  match transactionHash fundingTx with
  | Some h => h
  | None => "undefined"
  end.

(** The body of the [for] loop of [EVMChainHandler.checkForPastDeposits]. *)
Definition processPastEvent (event : DepositInitializedEvent) : M unit :=
  let fundingTx := ev_fundingTx event in
  let reveal := ev_reveal event in
  let l2DepositOwner := ev_l2DepositOwner event in
  let l2Sender := ev_l2Sender event in
  let* deposit := getJsonById (transactionHash_key fundingTx) in
  match deposit with
  | None =>
      let* newDeposit := createDeposit env fundingTx reveal l2DepositOwner l2Sender in
      writeNewJsonDeposit fundingTx reveal l2DepositOwner l2Sender >>
      initializeDeposit newDeposit
  | Some _ => ret tt
  end.

Definition checkForPastDeposits (pastTimeInMinutes latestBlock : Z) : M unit :=
  try_catch
    (let* now := Date_now env in
     let currentTime := now / 1000 in
     let pastTime := currentTime - pastTimeInMinutes * 60 in
     let* range := getBlocksByTimestamp pastTime latestBlock in
     match range with
     | None => ret tt
     | Some range =>
         if negb (l2BitcoinDepositor env) then ret tt
         else
           let* events := call (EvQueryFilter (startBlock range) (endBlock range))
                            (fun n => queryFilter_at env n (startBlock range)
                                        (endBlock range)) in
           if (0 <? length events)%nat then for_of events processPastEvent
           else ret tt
     end)
    (fun error => LogError error).

(** ** services/CheckForPastDeposits.ts *)

(** Modelled from the spec: [attemptToInitializeDeposit] lives in
    services/InitializeDeposits.ts, which is not part of the sources; it is
    the initialize attempt of the specification (pre-flight, send, wait,
    update), the one [EVMChainHandler.initializeDeposit] implements. *)
Definition attemptToInitializeDeposit (deposit : Deposit) : M unit :=
  initializeDeposit deposit.

(** The body of the [for] loop of the service's [checkForPastDeposits]. *)
Definition servicePastEvent (event : DepositInitializedEvent) : M unit :=
  let fundingTx := ev_fundingTx event in
  let reveal := ev_reveal event in
  let l2DepositOwner := ev_l2DepositOwner event in
  let l2Sender := ev_l2Sender event in
  let fundingTxHash := getFundingTxHash env fundingTx in
  let* depositId := lift (getDepositId env fundingTxHash (reveal0 reveal)) in
  let* existingDeposit := getJsonById depositId in
  match existingDeposit with
  | None =>
      let* newDeposit := createDeposit env fundingTx reveal l2DepositOwner l2Sender in
      writeNewJsonDeposit fundingTx reveal l2DepositOwner l2Sender >>
      attemptToInitializeDeposit newDeposit
  | Some _ => ret tt
  end.

Definition service_checkForPastDeposits (pastTimeInMinutes latestBlock : Z) : M unit :=
  try_catch
    (let* now := Date_now env in
     let currentTime := now / 1000 in
     let pastTime := currentTime - pastTimeInMinutes * 60 in
     let* range := getBlocksByTimestamp pastTime latestBlock in
     match range with
     | None => ret tt
     | Some range =>
         let* events := call (EvQueryFilter (startBlock range) (endBlock range))
                          (fun n => queryFilter_at env n (startBlock range)
                                      (endBlock range)) in
         for_of events servicePastEvent
     end)
    (fun error => LogError error).
End Handler.

(** ** Notions used by the statements *)

(** The record that the file of a key holds, if it parses. *)
Definition stored (w : World) (k : string) : option Deposit :=
  match store w !! k with
  | Some (Parsed d) => Some d
  | _ => None
  end.

(** Every record is filed under its own id, as [writeJson(data, data.id)]
    leaves it. *)
Definition store_wf (w : World) : Prop :=
  forall k d, store w !! k = Some (Parsed d) -> id d = k.

(** The invariant of the hashes: a finalize hash only on a FINALIZED record,
    an initialize hash only from INITIALIZED on. *)
Definition hashes_consistent (d : Deposit) : Prop :=
  (finalizeTxHash (eth (hashes d)) <> None -> status d = DepositStatus.FINALIZED) /\
  (initializeTxHash (eth (hashes d)) <> None -> DepositStatus.INITIALIZED <= status d).

#[global] Instance hashes_consistent_dec d : Decision (hashes_consistent d).
Proof. unfold hashes_consistent. apply _. Defined.

(** The deposit an entry of the trace is about. *)
Definition about (ev : Event) : option string :=
  match ev with
  | EvWriteJson k | EvDeposits k | EvCallStaticInitialize k | EvSendInitialize k _
  | EvCallStaticFinalize k | EvSendFinalize k _ _ => Some k
  | EvGetTransactionCount | EvWait _ | EvGetBlocks _ _ | EvQueryFilter _ _ | EvLog _ => None
  end.

(** A transaction sent to L1. *)
Definition is_send (ev : Event) : bool :=
  match ev with
  | EvSendInitialize _ _ | EvSendFinalize _ _ _ => true
  | _ => false
  end.

(** [w'] comes after [w] and [new] is what was added to the trace. *)
Definition extends (w w' : World) (new : list Event) : Prop :=
  trace w' = (new ++ trace w)%list.

(** [m] never throws. *)
Definition safe {A} (m : M A) : Prop :=
  forall w, exists a, (m w).1 = Ok a.

(** [m] writes no file but the one of [k], adds to the trace only entries
    about [k] or about no deposit, and never turns the clock back. *)
Definition confined (k : string) {A} (m : M A) : Prop :=
  forall w, exists new,
    extends w (m w).2 new /\
    Forall (fun ev => about ev = None \/ about ev = Some k) new /\
    (forall k', k' <> k -> store (m w).2 !! k' = store w !! k') /\
    (tick w <= tick (m w).2)%nat.

(** The ways the [try] block of [initializeDeposit] fails when it starts at
    tick [t]: the pre-flight [callStatic] reverts, the nonce cannot be read,
    the send is refused, or the transaction is mined with a revert
    ([tx.wait()] throws). *)
Inductive initialize_fails (env : Env) (d : Deposit) (t : nat) : JsError -> Prop :=
| initialize_preflight_reverts e :
    callStatic_initializeDeposit_at env t (L1OutputEvent d) = Throw e ->
    initialize_fails env d t e
| initialize_nonce_fails e :
    callStatic_initializeDeposit_at env t (L1OutputEvent d) = Ok tt ->
    getTransactionCount_at env (S t) = Throw e ->
    initialize_fails env d t e
| initialize_send_fails nonce e :
    callStatic_initializeDeposit_at env t (L1OutputEvent d) = Ok tt ->
    getTransactionCount_at env (S t) = Ok nonce ->
    send_initializeDeposit_at env (S (S t)) (L1OutputEvent d) nonce = Throw e ->
    initialize_fails env d t e
| initialize_mined_with_revert nonce tx e :
    callStatic_initializeDeposit_at env t (L1OutputEvent d) = Ok tt ->
    getTransactionCount_at env (S t) = Ok nonce ->
    send_initializeDeposit_at env (S (S t)) (L1OutputEvent d) nonce = Ok tx ->
    wait_at env (S (S (S t))) tx = Throw e ->
    initialize_fails env d t e.

(** [value = valueRequired.gt(0) ? valueRequired : 0] *)
Definition clamp_value (valueRequired : Z) : Z :=
  if (0 <? valueRequired)%Z then valueRequired else 0.

(** The same for the [try] block of [finalizeDeposit]. *)
Inductive finalize_fails (env : Env) (d : Deposit) (t : nat) : JsError -> Prop :=
| finalize_preflight_reverts e :
    callStatic_finalizeDeposit_at env t (id d) = Throw e ->
    finalize_fails env d t e
| finalize_nonce_fails v e :
    callStatic_finalizeDeposit_at env t (id d) = Ok v ->
    getTransactionCount_at env (S t) = Throw e ->
    finalize_fails env d t e
| finalize_send_fails v nonce e :
    callStatic_finalizeDeposit_at env t (id d) = Ok v ->
    getTransactionCount_at env (S t) = Ok nonce ->
    send_finalizeDeposit_at env (S (S t)) (id d) (clamp_value v) nonce = Throw e ->
    finalize_fails env d t e
| finalize_mined_with_revert v nonce tx e :
    callStatic_finalizeDeposit_at env t (id d) = Ok v ->
    getTransactionCount_at env (S t) = Ok nonce ->
    send_finalizeDeposit_at env (S (S t)) (id d) (clamp_value v) nonce = Ok tx ->
    wait_at env (S (S (S t))) tx = Throw e ->
    finalize_fails env d t e.

(** The [.json] files of the directory, and the records among them, as
    [getAllJsonOperations] lists them. *)
Definition json_files (st : gmap string File) : list (string * File) :=
  filter (fun file => listed file.1 = true) (map_to_list st).

Definition records (st : gmap string File) : list Deposit :=
  omap (fun file => parsed file.2) (json_files st).

(** The log lines of a listing, newest first. *)
Definition invalid_json_logs (st : gmap string File) : list Event :=
  reverse (omap invalid_json_log (json_files st)).

(** What [processInitializeDeposits] (with [processInitializeDeposit] as
    [body]) and [processFinalizeDeposits] (with [processFinalizeDeposit]) do
    once their listing has returned [deposits]: the statements of the [try]
    block after its first line. *)
Definition after_listing (env : Env) (body : Deposit -> M unit) (deposits : list Deposit)
  : M unit :=
  if (length deposits =? 0)%nat then ret tt
  else
    let* filteredDeposits := filterDepositsActivityTime env deposits in
    if (length filteredDeposits =? 0)%nat then ret tt
    else for_of filteredDeposits body.

(** The deposits of a list that [filterDepositsActivityTime] keeps when the
    clock is read at tick [t]: those whose last activity is more than
    [TIME_TO_RETRY] before it. *)
Definition due (env : Env) (t : nat) (deposits : list Deposit) : list Deposit :=
  filter (fun deposit =>
            TIME_TO_RETRY < Date_now_at env t - lastActivityAt (dates deposit))
    deposits.

(** A list of records of the store, each there at most once, as a listing
    of a store in which records are filed under their ids returns it. *)
Definition lists_records (w : World) (deposits : list Deposit) : Prop :=
  NoDup (id <$> deposits) /\
  forall x, x ∈ deposits -> store w !! id x = Some (Parsed x).

(** [m] keeps every record filed under its own id. *)
Definition keeps_wf {A} (m : M A) : Prop :=
  forall w, store_wf w -> store_wf (m w).2.

(** The value of a byte string read as an unsigned integer, most significant
    byte first. *)
Definition uint_of_bytes (bs : list byte) : N :=
  fold_left (fun acc b => (256 * acc + Byte.to_N b)%N) bs 0%N.

(** [uint32_be]: the four bytes of a [uint32], by division. *)
Definition uint32_be (n : Z) : list byte :=
  omap (fun k => Byte.of_N (Z.to_N ((n / 2 ^ k) mod 256))) [24; 16; 8; 0].

(** The deposit id in the words of the specification: the decimal form of
    [keccak256(bytes32(fundingTxHash) || uint32_be(outputIndex))] read as an
    unsigned integer. *)
Definition spec_depositId (env : Env) (fundingTxHash : string) (outputIndex : Z)
  : option string :=
  match bytes_of_hex fundingTxHash with
  | Some bytes32 =>
      Some (BigNumber_toString
              (uint_of_bytes (keccak_256 env (bytes32 ++ uint32_be outputIndex)%list)))
  | None => None
  end.

(** *** Sample data for the closed statements *)

Definition sample_hash : string :=
  "1111111111111111111111111111111111111111111111111111111111111111".

Definition sample_fundingTx : FundingTransaction :=
  {| version := "0x01000000";
     inputVector := "0x01aa";
     outputVector := "0x02bb";
     locktime := "0x00000000";
     transactionHash := None |}.

Definition sample_reveal : Reveal :=
  {| reveal0 := 0;
     reveal1 := "0xf9f0c90d00039523";
     reveal2 := "0x8db50eb52063ea9d98b3eac91489a90f738986f6";
     reveal3 := "0x28e081f285138ccbe389c1eb8985716230129f89";
     reveal4 := "0x60bcea61";
     reveal5 := "0x00" |}.

Definition sample_event : DepositInitializedEvent :=
  {| ev_fundingTx := sample_fundingTx;
     ev_reveal := sample_reveal;
     ev_l2DepositOwner := "0xowner";
     ev_l2Sender := "0xsender" |}.

(** A stand-in digest of 32 bytes (the statements hold for every digest
    function; a closed statement needs one that computes). *)
Definition sample_digest (bs : list byte) : list byte :=
  take 32 (rev bs ++ replicate 32 x2a)%list.

Definition revert (r : string) : JsError :=
  {| message := "call revert exception"; reason := Some r |}.

(** An environment in which every call succeeds: the clock shows one second
    per tick, deposits are unknown on L1 (status 0), and L2 has no blocks and
    no events. *)
Definition sample_env : Env :=
  {| keccak_256 := sample_digest;
     getFundingTxHash := fun _ => sample_hash;
     getTransactionHash := fun _ => sample_hash;
     START_BLOCK := 0;
     l2BitcoinDepositor := true;
     Date_now_at := fun n => 1700000000000 + 1000 * Z.of_nat n;
     deposits_at := fun _ _ => Ok 0;
     callStatic_initializeDeposit_at := fun _ _ => Ok tt;
     send_initializeDeposit_at := fun _ _ _ => Ok "0xinit";
     callStatic_finalizeDeposit_at := fun _ _ => Ok 0;
     send_finalizeDeposit_at := fun _ _ _ _ => Ok "0xfin";
     getTransactionCount_at := fun _ => Ok 7;
     wait_at := fun _ _ => Ok tt;
     getBlock_at := fun _ _ => FetchNull;
     queryFilter_at := fun _ _ _ => Ok [] |}.

(** An environment in which L1 rejects every call with the reason
    [bad reveal], and reading a deposit's status fails. *)
Definition reverting_env : Env :=
  {| keccak_256 := sample_digest;
     getFundingTxHash := fun _ => sample_hash;
     getTransactionHash := fun _ => sample_hash;
     START_BLOCK := 0;
     l2BitcoinDepositor := true;
     Date_now_at := fun n => 1700000000000 + 1000 * Z.of_nat n;
     deposits_at := fun _ _ => Throw (Error "could not detect network");
     callStatic_initializeDeposit_at := fun _ _ => Throw (revert "bad reveal");
     send_initializeDeposit_at := fun _ _ _ => Throw (revert "bad reveal");
     callStatic_finalizeDeposit_at := fun _ _ => Throw (revert "bad reveal");
     send_finalizeDeposit_at := fun _ _ _ _ => Throw (revert "bad reveal");
     getTransactionCount_at := fun _ => Ok 7;
     wait_at := fun _ _ => Ok tt;
     getBlock_at := fun _ _ => FetchThrows (Error "timeout");
     queryFilter_at := fun _ _ _ => Ok [] |}.

(** [sample_env] with other answers from L1. *)
Definition with_l1 (env : Env) (deposits : nat -> string -> Result Z)
    (preflight : nat -> OutputEvent -> Result unit) : Env :=
  {| keccak_256 := keccak_256 env;
     getFundingTxHash := getFundingTxHash env;
     getTransactionHash := getTransactionHash env;
     START_BLOCK := START_BLOCK env;
     l2BitcoinDepositor := l2BitcoinDepositor env;
     Date_now_at := Date_now_at env;
     deposits_at := deposits;
     callStatic_initializeDeposit_at := preflight;
     send_initializeDeposit_at := send_initializeDeposit_at env;
     callStatic_finalizeDeposit_at := callStatic_finalizeDeposit_at env;
     send_finalizeDeposit_at := send_finalizeDeposit_at env;
     getTransactionCount_at := getTransactionCount_at env;
     wait_at := wait_at env;
     getBlock_at := getBlock_at env;
     queryFilter_at := queryFilter_at env |}.

(** [sample_env] with other answers from L2. *)
Definition with_l2 (env : Env) (blocks : nat -> Z -> BlockFetch)
    (events : nat -> Z -> Z -> Result (list DepositInitializedEvent)) : Env :=
  {| keccak_256 := keccak_256 env;
     getFundingTxHash := getFundingTxHash env;
     getTransactionHash := getTransactionHash env;
     START_BLOCK := START_BLOCK env;
     l2BitcoinDepositor := l2BitcoinDepositor env;
     Date_now_at := Date_now_at env;
     deposits_at := deposits_at env;
     callStatic_initializeDeposit_at := callStatic_initializeDeposit_at env;
     send_initializeDeposit_at := send_initializeDeposit_at env;
     callStatic_finalizeDeposit_at := callStatic_finalizeDeposit_at env;
     send_finalizeDeposit_at := send_finalizeDeposit_at env;
     getTransactionCount_at := getTransactionCount_at env;
     wait_at := wait_at env;
     getBlock_at := blocks;
     queryFilter_at := events |}.

Definition empty_world : World := {| store := ∅; trace := []; tick := 0 |}.

(** A record as [createDeposit] builds it for [sample_event], with a given
    id, status, hashes and time of last activity. *)
Definition sample_deposit (k : string) (st : Z) (init fin : option string) (last : Z)
  : Deposit :=
  {| id := k;
     fundingTxHash := sample_hash;
     outputIndex := 0;
     hashes := {| btc := {| btcTxHash := sample_hash |};
                  eth := {| initializeTxHash := init; finalizeTxHash := fin |} |};
     receipt := {| depositor := "0xsender";
                   blindingFactor := reveal1 sample_reveal;
                   walletPublicKeyHash := reveal2 sample_reveal;
                   refundPublicKeyHash := reveal3 sample_reveal;
                   refundLocktime := reveal4 sample_reveal;
                   extraData := reveal5 sample_reveal |};
     owner := "0xowner";
     status := st;
     L1OutputEvent := {| fundingTx := sample_fundingTx;
                         reveal := sample_reveal;
                         l2DepositOwner := "0xowner";
                         l2Sender := "0xsender" |};
     dates := {| createdAt := Some 1600000000000;
                 initializationAt := match init with Some _ => Some 1600000001000 | None => None end;
                 finalizationAt := match fin with Some _ => Some 1600000002000 | None => None end;
                 lastActivityAt := last |};
     error := None |}.

(** A world whose store holds exactly the given record, under its id. *)
Definition world_with (d : Deposit) : World :=
  {| store := {[ id d := Parsed d ]}; trace := []; tick := 0 |}.

(** ** Further code of the repository *)


(** What the standalone finalizer (services/FinalizeDeposits.ts) asks of the
    L1 contract besides the calls of [Env]: the quote of the fee, and the
    pre-flight made with a value. *)
Record ServiceL1 := {
  quoteFinalizeDeposit_at : nat -> Result Z;
  callStatic_finalizeDeposit_value_at : nat -> string -> Z -> Result unit
}.

(** [attemptToFinalizeDeposit] (services/FinalizeDeposits.ts): the value is the
    quote, used for the pre-flight and for the transaction. *)
Definition attemptToFinalizeDeposit (env : Env) (l1 : ServiceL1) (deposit : Deposit)
  : M unit :=
  try_catch
    (let* value := (let* r := ask (quoteFinalizeDeposit_at l1) in lift r) in
     call (EvCallStaticFinalize (id deposit))
       (fun n => callStatic_finalizeDeposit_value_at l1 n (id deposit) value) >>
     let* currentNonce := call EvGetTransactionCount (getTransactionCount_at env) in
     let* tx := call (EvSendFinalize (id deposit) value currentNonce)
                  (fun n => send_finalizeDeposit_at env n (id deposit) value
                              currentNonce) in
     call (EvWait tx) (fun n => wait_at env n tx) >>
     updateToFinalizedDeposit env deposit (TxResponse (Some tx)) None)
    (fun error =>
       let reason := reason_or_unknown error in
       LogError error >>
       updateToFinalizedDeposit env deposit TxNull (Some reason)).

(** *** Notions used by the further statements *)

(** The fields of a record that no update may change. *)
Definition same_identity (d d' : Deposit) : Prop :=
  id d' = id d /\ fundingTxHash d' = fundingTxHash d /\
  outputIndex d' = outputIndex d /\ receipt d' = receipt d /\
  owner d' = owner d /\ L1OutputEvent d' = L1OutputEvent d /\
  btc (hashes d') = btc (hashes d) /\ createdAt (dates d') = createdAt (dates d).

(** The clock never goes back. *)
Definition clock_monotone (env : Env) : Prop :=
  forall n m, (n <= m)%nat -> Date_now_at env n <= Date_now_at env m.

(** The transactions sent among some entries of the trace. *)
Definition sends (evs : list Event) : nat :=
  length (filter (fun ev => is_send ev = true) evs).

(** The files written among some entries of the trace. *)
Definition writes (evs : list Event) : list string :=
  omap (fun ev => match ev with EvWriteJson k => Some k | _ => None end) evs.

(** The lower-case spelling of a hexadecimal string. *)
Definition lower_hex (s : string) : string :=
  match bytes_of_hex s with
  | Some bs => hex_of_bytes bs
  | None => s
  end.

(** A record that differs from another at most in [lastActivityAt]. *)
Definition only_touched (d d' : Deposit) : Prop :=
  same_identity d d' /\ status d' = status d /\ hashes d' = hashes d /\
  error d' = error d /\
  initializationAt (dates d') = initializationAt (dates d) /\
  finalizationAt (dates d') = finalizationAt (dates d).

(** The transactions sent for one deposit among some entries of the trace. *)
Definition sends_for (k : string) (evs : list Event) : nat :=
  sends (filter (fun ev => about ev = Some k) evs).

(** The entries a scan of L2 leaves when it touches no deposit: the block
    search, the query for events, and log lines. *)
Definition is_scan (ev : Event) : bool :=
  match ev with
  | EvGetBlocks _ _ | EvQueryFilter _ _ | EvLog _ => true
  | _ => false
  end.

(** * Statements *)

(** ** Hexadecimal strings *)

Lemma hexValue_bound c v : hexValue c = Some v -> (v < 16)%N.
Proof.
  unfold hexValue. generalize (N_of_ascii c) as n. intros n.
  repeat match goal with
         | |- context [N.leb ?a ?b] => destruct (N.leb_spec a b)
         end; cbn; intros [= <-]; lia.
Qed.

Lemma hex_of_byte_inv (b : byte) :
  hexValue (hexDigit (Byte.to_N b / 16)) = Some (Byte.to_N b / 16)%N /\
  hexValue (hexDigit (Byte.to_N b mod 16)) = Some (Byte.to_N b mod 16)%N /\
  Byte.of_N (16 * (Byte.to_N b / 16) + Byte.to_N b mod 16) = Some b.
Proof. destruct b; vm_compute; auto. Qed.

Lemma bytes_of_hex_of_bytes bs : bytes_of_hex (hex_of_bytes bs) = Some bs.
Proof.
  induction bs as [|b bs IH]; [reflexivity|].
  destruct (hex_of_byte_inv b) as (Hhi & Hlo & Hb).
  cbn [hex_of_bytes bytes_of_hex]. rewrite Hhi, Hlo, IH, Hb. reflexivity.
Qed.

Lemma prefix_0x s : "0x" ++ s = String "0" (String "x" s).
Proof. reflexivity. Qed.

Lemma arrayify_hexlify bs : arrayify (hexlify bs) = Ok bs.
Proof.
  unfold hexlify, arrayify. rewrite prefix_0x.
  rewrite bytes_of_hex_of_bytes. reflexivity.
Qed.

Lemma hex_value_from_bytes bs acc :
  hex_value_from acc (hex_of_bytes bs)
  = Some (fold_left (fun a b => (256 * a + Byte.to_N b)%N) bs acc).
Proof.
  revert acc. induction bs as [|b bs IH]; intros acc; [reflexivity|].
  destruct (hex_of_byte_inv b) as (Hhi & Hlo & _).
  cbn [hex_of_bytes hex_value_from fold_left]. rewrite Hhi, Hlo, IH.
  do 2 f_equal.
  pose proof (N.div_mod (Byte.to_N b) 16 ltac:(lia)). lia.
Qed.

Lemma BigNumber_from_hexlify bs : BigNumber_from (hexlify bs) = Ok (uint_of_bytes bs).
Proof.
  unfold hexlify, BigNumber_from, uint_of_bytes. rewrite prefix_0x.
  rewrite hex_value_from_bytes. reflexivity.
Qed.

(** A string of [2 n] hexadecimal digits spells [n] bytes. *)
Lemma bytes_of_hex_total n : forall h,
  String.length h = (2 * n)%nat -> isHex h = true ->
  exists bs, bytes_of_hex h = Some bs /\ length bs = n.
Proof.
  induction n as [|n IH]; intros h Hlen Hhex.
  - destruct h; [|discriminate]. exists []. split; reflexivity.
  - destruct h as [|a [|b r]]; try (cbn in Hlen; lia).
    cbn in Hhex. unfold isHexChar in Hhex.
    destruct (hexValue a) as [hi|] eqn:Ha; [|discriminate].
    destruct (hexValue b) as [lo|] eqn:Hb; [|discriminate].
    destruct (IH r) as (bs & Hbs & Hl); [cbn in Hlen; lia|exact Hhex|].
    apply hexValue_bound in Ha as Hhi. apply hexValue_bound in Hb as Hlo.
    destruct (Byte.of_N (16 * hi + lo)) as [x|] eqn:Hx.
    + exists (x :: bs). cbn [bytes_of_hex]. rewrite Ha, Hb, Hbs, Hx.
      split; [reflexivity|cbn; lia].
    + apply Byte.of_N_None_iff in Hx. lia.
Qed.

Lemma be32_uint32_be n : be32 n = uint32_be n.
Proof.
  unfold be32, uint32_be.
  assert (H : forall k, 0 <= k -> Z.land (Z.shiftr n k) 255 = (n / 2 ^ k) mod 256).
  { intros k Hk. rewrite Z.shiftr_div_pow2 by lia.
    change 255 with (Z.ones 8). rewrite Z.land_ones by lia. reflexivity. }
  cbn [omap list_omap]. rewrite !H by lia. reflexivity.
Qed.

Lemma uint_of_bytes_bound bs : (uint_of_bytes bs < 256 ^ N.of_nat (length bs))%N.
Proof.
  unfold uint_of_bytes.
  assert (H : forall acc k, (acc < 256 ^ k)%N ->
            (fold_left (fun a b => (256 * a + Byte.to_N b)%N) bs acc
             < 256 ^ (k + N.of_nat (length bs)))%N).
  { induction bs as [|b bs IH]; intros acc k Hacc.
    - cbn. rewrite N.add_0_r. exact Hacc.
    - cbn [fold_left length].
      replace (k + N.of_nat (S (length bs)))%N with ((k + 1) + N.of_nat (length bs))%N by lia.
      apply IH. rewrite N.pow_add_r, N.pow_1_r.
      pose proof (Byte.to_N_bounded b). nia. }
  apply (H 0%N 0%N). cbn. lia.
Qed.

(** ** The deposit id *)

Lemma pack_uint32_u32 idx : 0 <= idx < 2 ^ 32 -> pack_uint32 idx = Ok (be32 idx).
Proof.
  intros Hidx. unfold pack_uint32.
  destruct (Z.leb_spec idx (- (2 ^ 53 - 1))); [lia|].
  destruct (Z.leb_spec (2 ^ 53 - 1) idx); [lia|]. cbn [orb].
  destruct (Z.ltb_spec idx 0); [lia|]. cbv zeta.
  destruct (Z.ltb_spec idx (2 ^ 32)); [reflexivity|lia].
Qed.

Lemma getDepositId_spec env h idx :
  String.length h = 64%nat -> isHex h = true -> 0 <= idx < 2 ^ 32 ->
  exists depositId,
    spec_depositId env h idx = Some depositId /\ getDepositId env h idx = Ok depositId.
Proof.
  intros Hlen Hhex Hidx.
  destruct (bytes_of_hex_total 32 h Hlen Hhex) as (bs & Hbs & Hl).
  unfold spec_depositId, getDepositId. rewrite Hbs, Hlen. cbn [Nat.eqb negb].
  eexists; split; [reflexivity|].
  unfold solidityPack_bytes32_uint32, pack_bytes32.
  rewrite (pack_uint32_u32 idx Hidx).
  unfold arrayify at 1. rewrite prefix_0x, Hbs, Hl. cbn [Nat.eqb].
  unfold keccak256.
  rewrite arrayify_hexlify, BigNumber_from_hexlify, be32_uint32_be. reflexivity.
Qed.

Lemma getDepositId_invalid env h idx :
  String.length h <> 64%nat ->
  getDepositId env h idx = Throw (Error "Invalid fundingTxHash").
Proof.
  intros Hlen. unfold getDepositId.
  destruct (Nat.eqb_spec (String.length h) 64); [contradiction|reflexivity].
Qed.

(** ** The monad: what a computation leaves behind *)

Section Frames.
Context {A B : Type}.

Lemma safe_ret (a : A) : safe (ret a).
Proof. intros w. exists a. reflexivity. Qed.

Lemma safe_bind_with (P : A -> Prop) (m : M A) (f : A -> M B) :
  safe m -> (forall w a, (m w).1 = Ok a -> P a) ->
  (forall a, P a -> safe (f a)) -> safe (bind m f).
Proof.
  intros Hm HP Hf w. unfold bind.
  destruct (Hm w) as [a Ha]. specialize (HP w a Ha).
  destruct (m w) as [[a'|e] w1]; cbn in Ha; [|discriminate].
  injection Ha as ->. apply (Hf a HP).
Qed.

Lemma safe_bind (m : M A) (f : A -> M B) :
  safe m -> (forall a, safe (f a)) -> safe (bind m f).
Proof. intros Hm Hf. apply (safe_bind_with (fun _ => True)); auto. Qed.

Lemma safe_try_catch (m : M A) (h : JsError -> M A) :
  (forall e, safe (h e)) -> safe (try_catch m h).
Proof.
  intros Hh w. unfold try_catch.
  destruct (m w) as [[a|e] w1]; [exists a; reflexivity|apply Hh].
Qed.

Lemma confined_ret k (a : A) : confined k (ret a).
Proof.
  intros w. exists []. unfold extends. cbn. repeat split; auto.
Qed.

Lemma confined_throw k (e : JsError) : confined k (@throw A e).
Proof.
  intros w. exists []. unfold extends. cbn. repeat split; auto.
Qed.

Lemma confined_lift k (r : Result A) : confined k (lift r).
Proof.
  intros w. exists []. unfold extends. cbn. repeat split; auto.
Qed.

Lemma confined_ask k (answer : nat -> A) : confined k (ask answer).
Proof.
  intros w. exists []. unfold extends. cbn. repeat split; auto.
Qed.

Lemma confined_bind_with (P : A -> Prop) k (m : M A) (f : A -> M B) :
  confined k m -> (forall w a, (m w).1 = Ok a -> P a) ->
  (forall a, P a -> confined k (f a)) -> confined k (bind m f).
Proof.
  intros Hm HP Hf w. unfold bind.
  destruct (Hm w) as (new1 & Hext1 & Hall1 & Hst1 & Htk1).
  specialize (HP w).
  destruct (m w) as [[a|e] w1]; cbn in *.
  - destruct (Hf a (HP a eq_refl) w1) as (new2 & Hext2 & Hall2 & Hst2 & Htk2).
    exists (new2 ++ new1)%list. unfold extends in *.
    repeat split.
    + rewrite Hext2, Hext1. apply app_assoc.
    + apply Forall_app. split; assumption.
    + intros k' Hk'. rewrite Hst2, Hst1 by assumption. reflexivity.
    + lia.
  - exists new1. repeat split; assumption.
Qed.

Lemma confined_bind k (m : M A) (f : A -> M B) :
  confined k m -> (forall a, confined k (f a)) -> confined k (bind m f).
Proof. intros Hm Hf. apply (confined_bind_with (fun _ => True)); auto. Qed.

Lemma confined_try_catch k (m : M A) (h : JsError -> M A) :
  confined k m -> (forall e, confined k (h e)) -> confined k (try_catch m h).
Proof.
  intros Hm Hh w. unfold try_catch.
  destruct (Hm w) as (new1 & Hext1 & Hall1 & Hst1 & Htk1).
  destruct (m w) as [[a|e] w1]; cbn in *.
  - exists new1. repeat split; assumption.
  - destruct (Hh e w1) as (new2 & Hext2 & Hall2 & Hst2 & Htk2).
    exists (new2 ++ new1)%list. unfold extends in *.
    repeat split.
    + rewrite Hext2, Hext1. apply app_assoc.
    + apply Forall_app. split; assumption.
    + intros k' Hk'. rewrite Hst2, Hst1 by assumption. reflexivity.
    + lia.
Qed.
End Frames.

Lemma confined_record k ev :
  about ev = None \/ about ev = Some k -> confined k (record ev).
Proof.
  intros Hev w. exists [ev]. unfold extends. cbn. repeat split; auto.
Qed.

Lemma confined_call {A} k ev (answer : nat -> Result A) :
  about ev = None \/ about ev = Some k -> confined k (call ev answer).
Proof.
  intros Hev. unfold call.
  apply confined_bind; [apply confined_record, Hev|]. intros _.
  apply confined_bind; [apply confined_ask|]. intros r. apply confined_lift.
Qed.

Lemma confined_LogError k e : confined k (LogError e).
Proof. apply confined_record. left. reflexivity. Qed.

Lemma safe_LogError e : safe (LogError e).
Proof. intros w. exists tt. reflexivity. Qed.

Lemma confined_Date_now k env : confined k (Date_now env).
Proof. apply confined_ask. Qed.

Lemma safe_Date_now env : safe (Date_now env).
Proof. intros w. eexists. reflexivity. Qed.

Lemma confined_writeJson d k : confined k (writeJson d k).
Proof.
  intros w. exists [EvWriteJson k]. unfold extends. cbn. repeat split; auto.
  intros k' Hk'. apply lookup_insert_ne. congruence.
Qed.

Lemma safe_writeJson d k : safe (writeJson d k).
Proof. intros w. eexists. reflexivity. Qed.

Lemma confined_getJsonById k k' : confined k (getJsonById k').
Proof.
  intros w. exists []. unfold extends. cbn. repeat split; auto.
Qed.

Lemma confined_checkIfExistJson k k' : confined k (checkIfExistJson k').
Proof.
  intros w. exists []. unfold extends. cbn. repeat split; auto.
Qed.

Create HintDb frames.

#[local] Hint Resolve safe_ret safe_LogError safe_Date_now safe_writeJson
  confined_ret confined_throw confined_lift confined_ask confined_LogError
  confined_Date_now confined_writeJson confined_getJsonById
  confined_checkIfExistJson : frames.

(** ** The record updates of utils/Deposits.ts *)

(** What [updateToInitializedDeposit] writes, field by field. *)
Lemma updateToInitializedDeposit_run env d tx err w :
  exists d' n,
    updateToInitializedDeposit env d tx err w
    = (Ok tt, {| store := <[id d := Parsed d']> (store w);
                 trace := EvWriteJson (id d) :: trace w;
                 tick := n |}) /\
    (tick w < n)%nat /\
    id d' = id d /\
    status d' = (if truthy_tx tx then DepositStatus.INITIALIZED else status d) /\
    initializeTxHash (eth (hashes d'))
    = (if truthy_tx tx then hash_or_null tx else initializeTxHash (eth (hashes d))) /\
    finalizeTxHash (eth (hashes d')) = finalizeTxHash (eth (hashes d)) /\
    error d' = (if truthy err then err else None) /\
    initializationAt (dates d')
    = (if truthy_tx tx then Some (Date_now_at env (tick w))
       else initializationAt (dates d)) /\
    finalizationAt (dates d') = finalizationAt (dates d) /\
    lastActivityAt (dates d') = Date_now_at env (Nat.pred n).
Proof.
  unfold updateToInitializedDeposit.
  destruct (truthy_tx tx); cbn; do 2 eexists;
    (split; [reflexivity|]); cbn; repeat split; lia.
Qed.

(** What [updateToFinalizedDeposit] writes, field by field. *)
Lemma updateToFinalizedDeposit_run env d tx err w :
  exists d' n,
    updateToFinalizedDeposit env d tx err w
    = (Ok tt, {| store := <[id d := Parsed d']> (store w);
                 trace := EvWriteJson (id d) :: trace w;
                 tick := n |}) /\
    (tick w < n)%nat /\
    id d' = id d /\
    status d' = (if truthy_tx tx then DepositStatus.FINALIZED else status d) /\
    initializeTxHash (eth (hashes d')) = initializeTxHash (eth (hashes d)) /\
    finalizeTxHash (eth (hashes d'))
    = (if truthy_tx tx then hash_or_null tx else finalizeTxHash (eth (hashes d))) /\
    error d' = (if truthy err then err else None) /\
    initializationAt (dates d') = initializationAt (dates d) /\
    finalizationAt (dates d')
    = (if truthy_tx tx then Some (Date_now_at env (tick w))
       else finalizationAt (dates d)) /\
    lastActivityAt (dates d') = Date_now_at env (Nat.pred n).
Proof.
  unfold updateToFinalizedDeposit.
  destruct (truthy_tx tx); cbn; do 2 eexists;
    (split; [reflexivity|]); cbn; repeat split; lia.
Qed.

(** What [updateLastActivity] writes and returns. *)
Lemma updateLastActivity_run env d w :
  exists d',
    updateLastActivity env d w
    = (Ok d', {| store := <[id d := Parsed d']> (store w);
                 trace := EvWriteJson (id d) :: trace w;
                 tick := S (tick w) |}) /\
    id d' = id d /\ status d' = status d /\ hashes d' = hashes d /\
    error d' = error d /\ L1OutputEvent d' = L1OutputEvent d /\
    initializationAt (dates d') = initializationAt (dates d) /\
    finalizationAt (dates d') = finalizationAt (dates d) /\
    lastActivityAt (dates d') = Date_now_at env (tick w).
Proof.
  unfold updateLastActivity. cbn. eexists. split; [reflexivity|].
  cbn. repeat split.
Qed.

Lemma createDeposit_run env ftx rv o s w :
  (exists e, getDepositId env (getFundingTxHash env ftx) (reveal0 rv) = Throw e /\
             createDeposit env ftx rv o s w = (Throw e, w)) \/
  (exists k d,
     getDepositId env (getFundingTxHash env ftx) (reveal0 rv) = Ok k /\
     createDeposit env ftx rv o s w
     = (Ok d, {| store := store w; trace := trace w; tick := S (S (tick w)) |}) /\
     id d = k /\ status d = DepositStatus.QUEUED /\
     hashes d = {| btc := {| btcTxHash := getTransactionHash env ftx |};
                   eth := {| initializeTxHash := None; finalizeTxHash := None |} |} /\
     error d = None /\
     initializationAt (dates d) = None /\ finalizationAt (dates d) = None /\
     createdAt (dates d) = Some (Date_now_at env (tick w)) /\
     lastActivityAt (dates d) = Date_now_at env (S (tick w)) /\
     L1OutputEvent d
     = {| fundingTx := {| version := version ftx; inputVector := inputVector ftx;
                          outputVector := outputVector ftx; locktime := locktime ftx;
                          transactionHash := None |};
          reveal := rv; l2DepositOwner := o; l2Sender := s |}).
Proof.
  unfold createDeposit, bind, lift.
  destruct (getDepositId env (getFundingTxHash env ftx) (reveal0 rv)) as [k|e].
  - right. cbn. do 2 eexists. split; [reflexivity|]. split; [reflexivity|].
    cbn. repeat split.
  - left. exists e. split; reflexivity.
Qed.

Lemma safe_updateToInitializedDeposit env d tx err :
  safe (updateToInitializedDeposit env d tx err).
Proof.
  intros w. destruct (updateToInitializedDeposit_run env d tx err w) as (d' & n & H & _).
  exists tt. rewrite H. reflexivity.
Qed.

Lemma safe_updateToFinalizedDeposit env d tx err :
  safe (updateToFinalizedDeposit env d tx err).
Proof.
  intros w. destruct (updateToFinalizedDeposit_run env d tx err w) as (d' & n & H & _).
  exists tt. rewrite H. reflexivity.
Qed.

Lemma confined_updateToInitializedDeposit env d tx err :
  confined (id d) (updateToInitializedDeposit env d tx err).
Proof.
  intros w. destruct (updateToInitializedDeposit_run env d tx err w)
    as (d' & n & H & Hn & _).
  exists [EvWriteJson (id d)]. rewrite H. unfold extends. cbn.
  repeat split; auto; [|lia].
  intros k' Hk'. apply lookup_insert_ne. congruence.
Qed.

Lemma confined_updateToFinalizedDeposit env d tx err :
  confined (id d) (updateToFinalizedDeposit env d tx err).
Proof.
  intros w. destruct (updateToFinalizedDeposit_run env d tx err w)
    as (d' & n & H & Hn & _).
  exists [EvWriteJson (id d)]. rewrite H. unfold extends. cbn.
  repeat split; auto; [|lia].
  intros k' Hk'. apply lookup_insert_ne. congruence.
Qed.

Lemma safe_updateLastActivity env d : safe (updateLastActivity env d).
Proof.
  intros w. destruct (updateLastActivity_run env d w) as (d' & H & _).
  exists d'. rewrite H. reflexivity.
Qed.

Lemma confined_updateLastActivity env d : confined (id d) (updateLastActivity env d).
Proof.
  intros w. destruct (updateLastActivity_run env d w) as (d' & H & _).
  exists [EvWriteJson (id d)]. rewrite H. unfold extends. cbn.
  repeat split; auto.
  intros k' Hk'. apply lookup_insert_ne. congruence.
Qed.

Lemma updateLastActivity_id env d w d' :
  (updateLastActivity env d w).1 = Ok d' -> id d' = id d.
Proof.
  destruct (updateLastActivity_run env d w) as (d0 & H & Hid & _).
  rewrite H. cbn. intros [= <-]. exact Hid.
Qed.

(** C2. For a funding hash of exactly 64 hexadecimal characters and a
    [uint32] output index, [getDepositId] returns the decimal form of
    [keccak256(bytes32(fundingTxHash) || uint32_be(outputIndex))] read as an
    unsigned integer (below [2^256] for a digest of 32 bytes); the id does not
    depend on the store or the clock; and a funding hash whose length is not
    64 makes [getDepositId] throw [Invalid fundingTxHash]. *)
Theorem C2_getDepositId env :
  (forall h idx,
     String.length h = 64%nat -> isHex h = true -> 0 <= idx < 2 ^ 32 ->
     exists bytes32 depositId,
       bytes_of_hex h = Some bytes32 /\ length bytes32 = 32%nat /\
       getDepositId env h idx = Ok depositId /\
       spec_depositId env h idx = Some depositId /\
       depositId
       = BigNumber_toString
           (uint_of_bytes (keccak_256 env (bytes32 ++ uint32_be idx)%list)) /\
       (length (keccak_256 env (bytes32 ++ uint32_be idx)%list) = 32%nat ->
        (uint_of_bytes (keccak_256 env (bytes32 ++ uint32_be idx)%list) < 2 ^ 256)%N)) /\
  (forall ftx rv o s w w' d d',
     (createDeposit env ftx rv o s w).1 = Ok d ->
     (createDeposit env ftx rv o s w').1 = Ok d' ->
     getDepositId env (getFundingTxHash env ftx) (reveal0 rv) = Ok (id d) /\
     id d = id d') /\
  (forall h idx,
     String.length h <> 64%nat ->
     getDepositId env h idx = Throw (Error "Invalid fundingTxHash")).
Proof.
  split; [|split].
  - intros h idx Hlen Hhex Hidx.
    destruct (bytes_of_hex_total 32 h Hlen Hhex) as (bs & Hbs & Hl).
    destruct (getDepositId_spec env h idx Hlen Hhex Hidx) as (k & Hspec & Hk).
    exists bs, k. repeat split; try assumption.
    + unfold spec_depositId in Hspec. rewrite Hbs in Hspec. congruence.
    + intros H32. pose proof (uint_of_bytes_bound
        (keccak_256 env (bs ++ uint32_be idx)%list)) as Hb.
      rewrite H32 in Hb. exact Hb.
  - intros ftx rv o s w w' d d' H H'.
    destruct (createDeposit_run env ftx rv o s w)
      as [(e & _ & Hrun)|(k & d1 & Hk & Hrun & Hid & _)];
      rewrite Hrun in H; [discriminate|].
    destruct (createDeposit_run env ftx rv o s w')
      as [(e & _ & Hrun')|(k' & d2 & Hk' & Hrun' & Hid' & _)];
      rewrite Hrun' in H'; [discriminate|].
    cbn in H, H'. injection H as <-. injection H' as <-.
    rewrite Hid, Hid'. split; congruence.
  - intros h idx. apply getDepositId_invalid.
Qed.

Lemma C2_getDepositId_witness :
  (exists depositId,
     getDepositId sample_env sample_hash 5 = Ok depositId /\
     spec_depositId sample_env sample_hash 5 = Some depositId) /\
  getDepositId sample_env "11aa" 5 = Throw (Error "Invalid fundingTxHash").
Proof.
  destruct (C2_getDepositId sample_env) as (Hok & _ & Hbad).
  split.
  - destruct (Hok sample_hash 5 eq_refl eq_refl ltac:(lia))
      as (bs & k & _ & _ & Hk & Hspec & _).
    exists k. split; assumption.
  - apply Hbad. cbn. lia.
Defined.

(** ** initializeDeposit and finalizeDeposit *)

Lemma reason_or_unknown_truthy e : truthy_string (reason_or_unknown e) = true.
Proof.
  unfold reason_or_unknown. destruct (reason e) as [r|]; [|reflexivity].
  destruct (truthy_string r) eqn:Hr; [exact Hr|reflexivity].
Qed.

(** The reason kept is the revert reason when there is one. *)
Lemma reason_or_unknown_cases e :
  (exists r, reason e = Some r /\ r <> EmptyString /\ reason_or_unknown e = r) \/
  reason_or_unknown e = "Unknown error".
Proof.
  unfold reason_or_unknown. destruct (reason e) as [[|c r]|]; cbn; auto.
  left. eexists. repeat split. discriminate.
Qed.

Lemma safe_initializeDeposit env d : safe (initializeDeposit env d).
Proof.
  apply safe_try_catch. intros e.
  apply safe_bind; [apply safe_LogError|]. intros _.
  apply safe_updateToInitializedDeposit.
Qed.

Lemma safe_finalizeDeposit env d : safe (finalizeDeposit env d).
Proof.
  apply safe_try_catch. intros e.
  apply safe_bind; [apply safe_LogError|]. intros _.
  apply safe_updateToFinalizedDeposit.
Qed.

Lemma confined_initializeDeposit env d : confined (id d) (initializeDeposit env d).
Proof.
  apply confined_try_catch.
  - apply confined_bind; [apply confined_call; right; reflexivity|]. intros _.
    apply confined_bind; [apply confined_call; left; reflexivity|]. intros nonce.
    apply confined_bind; [apply confined_call; right; reflexivity|]. intros tx.
    apply confined_bind; [apply confined_call; left; reflexivity|]. intros _.
    apply confined_updateToInitializedDeposit.
  - intros e. apply confined_bind; [apply confined_LogError|]. intros _.
    apply confined_updateToInitializedDeposit.
Qed.

Lemma confined_finalizeDeposit env d : confined (id d) (finalizeDeposit env d).
Proof.
  apply confined_try_catch.
  - apply confined_bind; [apply confined_call; right; reflexivity|]. intros v.
    apply confined_bind; [apply confined_call; left; reflexivity|]. intros nonce.
    apply confined_bind; [apply confined_call; right; reflexivity|]. intros tx.
    apply confined_bind; [apply confined_call; left; reflexivity|]. intros _.
    apply confined_updateToFinalizedDeposit.
  - intros e. apply confined_bind; [apply confined_LogError|]. intros _.
    apply confined_updateToFinalizedDeposit.
Qed.

(** The world in which the [catch] block of [initializeDeposit] starts. *)
Lemma initializeDeposit_fails_run env d w e :
  initialize_fails env d (tick w) e ->
  exists w1 new1,
    initializeDeposit env d w
    = (LogError e >> updateToInitializedDeposit env d TxNull (Some (reason_or_unknown e))) w1 /\
    store w1 = store w /\ extends w w1 new1 /\ (tick w < tick w1)%nat /\
    (callStatic_initializeDeposit_at env (tick w) (L1OutputEvent d) = Throw e ->
     Forall (fun ev => is_send ev = false) new1).
Proof.
  intros Hf. unfold initializeDeposit, try_catch at 1.
  unfold bind at 1, call at 1, bind at 1, record at 1.
  unfold bind at 1, ask at 1, lift at 1.
  cbn [tick trace store].
  inversion Hf as [e0 H0|e0 H0 H1|nonce e0 H0 H1 H2|nonce tx e0 H0 H1 H2 H3]; subst e0.
  - rewrite H0. eexists _, [_]. split; [reflexivity|].
    unfold extends; cbn. repeat split; auto.
  - rewrite H0. unfold bind at 1, call at 1, bind at 1, record at 1.
    unfold bind at 1, ask at 1, lift at 1. cbn [tick trace store]. rewrite H1.
    eexists _, [_; _]. split; [reflexivity|].
    unfold extends; cbn. repeat split; auto; intros; congruence.
  - rewrite H0. unfold bind at 1, call at 1, bind at 1, record at 1.
    unfold bind at 1, ask at 1, lift at 1. cbn [tick trace store]. rewrite H1.
    unfold bind at 1, call at 1, bind at 1, record at 1.
    unfold bind at 1, ask at 1, lift at 1. cbn [tick trace store]. rewrite H2.
    eexists _, [_; _; _]. split; [reflexivity|].
    unfold extends; cbn. repeat split; auto; intros; congruence.
  - rewrite H0. unfold bind at 1, call at 1, bind at 1, record at 1.
    unfold bind at 1, ask at 1, lift at 1. cbn [tick trace store]. rewrite H1.
    unfold bind at 1, call at 1, bind at 1, record at 1.
    unfold bind at 1, ask at 1, lift at 1. cbn [tick trace store]. rewrite H2.
    unfold bind at 1, call at 1, bind at 1, record at 1.
    unfold bind at 1, ask at 1, lift at 1. cbn [tick trace store]. rewrite H3.
    eexists _, [_; _; _; _]. split; [reflexivity|].
    unfold extends; cbn. repeat split; auto; intros; congruence.
Qed.

(** The world in which the [catch] block of [finalizeDeposit] starts. *)
Lemma finalizeDeposit_fails_run env d w e :
  finalize_fails env d (tick w) e ->
  exists w1 new1,
    finalizeDeposit env d w
    = (LogError e >> updateToFinalizedDeposit env d TxNull (Some (reason_or_unknown e))) w1 /\
    store w1 = store w /\ extends w w1 new1 /\ (tick w < tick w1)%nat /\
    (callStatic_finalizeDeposit_at env (tick w) (id d) = Throw e ->
     Forall (fun ev => is_send ev = false) new1).
Proof.
  intros Hf. unfold finalizeDeposit, try_catch at 1.
  unfold bind at 1, call at 1, bind at 1, record at 1.
  unfold bind at 1, ask at 1, lift at 1.
  cbn [tick trace store].
  inversion Hf as [e0 H0|v e0 H0 H1|v nonce e0 H0 H1 H2|v nonce tx e0 H0 H1 H2 H3];
    subst e0; try unfold clamp_value in H2.
  - rewrite H0. eexists _, [_]. split; [reflexivity|].
    unfold extends; cbn. repeat split; auto.
  - rewrite H0. cbv zeta. unfold bind at 1, call at 1, bind at 1, record at 1.
    unfold bind at 1, ask at 1, lift at 1. cbn [tick trace store]. rewrite H1.
    eexists _, [_; _]. split; [reflexivity|].
    unfold extends; cbn. repeat split; auto; intros; congruence.
  - rewrite H0. cbv zeta. unfold bind at 1, call at 1, bind at 1, record at 1.
    unfold bind at 1, ask at 1, lift at 1. cbn [tick trace store]. rewrite H1.
    unfold bind at 1, call at 1, bind at 1, record at 1.
    unfold bind at 1, ask at 1, lift at 1. cbn [tick trace store]. rewrite H2.
    eexists _, [_; _; _]. split; [reflexivity|].
    unfold extends; cbn. repeat split; auto; intros; congruence.
  - rewrite H0. cbv zeta. unfold bind at 1, call at 1, bind at 1, record at 1.
    unfold bind at 1, ask at 1, lift at 1. cbn [tick trace store]. rewrite H1.
    unfold bind at 1, call at 1, bind at 1, record at 1.
    unfold bind at 1, ask at 1, lift at 1. cbn [tick trace store]. rewrite H2.
    unfold bind at 1, call at 1, bind at 1, record at 1.
    unfold bind at 1, ask at 1, lift at 1. cbn [tick trace store]. rewrite H3.
    eexists _, [_; _; _; _]. split; [reflexivity|].
    unfold extends; cbn. repeat split; auto; intros; congruence.
Qed.

Lemma stored_insert (st : gmap string File) k d tr n :
  stored {| store := <[k := Parsed d]> st; trace := tr; tick := n |} k = Some d.
Proof. unfold stored. cbn. rewrite lookup_insert_eq. reflexivity. Qed.

(** C4. When [initializeDeposit(d)] or [finalizeDeposit(d)] fails (pre-flight
    revert, nonce or send error, mined with revert), the handler itself does
    not throw and the record it persists keeps the status, the
    initialization and finalization times and both transaction hashes of [d];
    its error is the revert reason or ["Unknown error"]; its last activity is
    the clock read after the failure; and after a pre-flight revert the trace
    holds no send. *)
Theorem C4_failed_attempt_keeps_record env d w e :
  (initialize_fails env d (tick w) e ->
   exists d' w' new,
     initializeDeposit env d w = (Ok tt, w') /\ extends w w' new /\
     stored w' (id d) = Some d' /\
     status d' = status d /\
     initializationAt (dates d') = initializationAt (dates d) /\
     finalizationAt (dates d') = finalizationAt (dates d) /\
     initializeTxHash (eth (hashes d')) = initializeTxHash (eth (hashes d)) /\
     finalizeTxHash (eth (hashes d')) = finalizeTxHash (eth (hashes d)) /\
     error d' = Some (reason_or_unknown e) /\
     (reason_or_unknown e = "Unknown error" \/ reason e = Some (reason_or_unknown e)) /\
     lastActivityAt (dates d') = Date_now_at env (Nat.pred (tick w')) /\
     (tick w < Nat.pred (tick w'))%nat /\
     (callStatic_initializeDeposit_at env (tick w) (L1OutputEvent d) = Throw e ->
      Forall (fun ev => is_send ev = false) new)) /\
  (finalize_fails env d (tick w) e ->
   exists d' w' new,
     finalizeDeposit env d w = (Ok tt, w') /\ extends w w' new /\
     stored w' (id d) = Some d' /\
     status d' = status d /\
     initializationAt (dates d') = initializationAt (dates d) /\
     finalizationAt (dates d') = finalizationAt (dates d) /\
     initializeTxHash (eth (hashes d')) = initializeTxHash (eth (hashes d)) /\
     finalizeTxHash (eth (hashes d')) = finalizeTxHash (eth (hashes d)) /\
     error d' = Some (reason_or_unknown e) /\
     (reason_or_unknown e = "Unknown error" \/ reason e = Some (reason_or_unknown e)) /\
     lastActivityAt (dates d') = Date_now_at env (Nat.pred (tick w')) /\
     (tick w < Nat.pred (tick w'))%nat /\
     (callStatic_finalizeDeposit_at env (tick w) (id d) = Throw e ->
      Forall (fun ev => is_send ev = false) new)).
Proof.
  assert (Hreason : reason_or_unknown e = "Unknown error" \/
                    reason e = Some (reason_or_unknown e)).
  { destruct (reason_or_unknown_cases e) as [(r & Hr & _ & ->)|H]; auto. }
  split; intros Hf.
  - destruct (initializeDeposit_fails_run env d w e Hf)
      as (w1 & new1 & Hrun & Hst & Hext & Htk & Hpre).
    rewrite Hrun. unfold bind at 1, LogError, record. cbn [store trace tick].
    match goal with
    | |- context [updateToInitializedDeposit env d TxNull ?r ?w2] =>
        destruct (updateToInitializedDeposit_run env d TxNull r w2)
          as (d' & n & Hupd & Hn & Hid & Hs & Hi & Hfin & Herr & Hia & Hfa & Hla)
    end.
    rewrite Hupd. cbn [store trace tick truthy_tx truthy] in *.
    rewrite reason_or_unknown_truthy in Herr.
    eexists d', _, (EvWriteJson (id d) :: EvLog e :: new1).
    split; [reflexivity|]. unfold extends in *. cbn [store trace tick].
    repeat split; try assumption.
    + rewrite Hext. reflexivity.
    + apply stored_insert.
    + lia.
    + intros H. repeat constructor. apply Hpre, H.
  - destruct (finalizeDeposit_fails_run env d w e Hf)
      as (w1 & new1 & Hrun & Hst & Hext & Htk & Hpre).
    rewrite Hrun. unfold bind at 1, LogError, record. cbn [store trace tick].
    match goal with
    | |- context [updateToFinalizedDeposit env d TxNull ?r ?w2] =>
        destruct (updateToFinalizedDeposit_run env d TxNull r w2)
          as (d' & n & Hupd & Hn & Hid & Hs & Hi & Hfin & Herr & Hia & Hfa & Hla)
    end.
    rewrite Hupd. cbn [store trace tick truthy_tx truthy] in *.
    rewrite reason_or_unknown_truthy in Herr.
    eexists d', _, (EvWriteJson (id d) :: EvLog e :: new1).
    split; [reflexivity|]. unfold extends in *. cbn [store trace tick].
    repeat split; try assumption.
    + rewrite Hext. reflexivity.
    + apply stored_insert.
    + lia.
    + intros H. repeat constructor. apply Hpre, H.
Qed.

Lemma C4_failed_attempt_witness :
  let d := sample_deposit "42" DepositStatus.QUEUED None None 0 in
  (exists d' w',
     initializeDeposit reverting_env d (world_with d) = (Ok tt, w') /\
     stored w' "42" = Some d' /\ status d' = DepositStatus.QUEUED /\
     error d' = Some "bad reveal" /\ Forall (fun ev => is_send ev = false) (trace w')) /\
  (exists d' w',
     finalizeDeposit reverting_env d (world_with d) = (Ok tt, w') /\
     stored w' "42" = Some d' /\ status d' = DepositStatus.QUEUED /\
     error d' = Some "bad reveal" /\ Forall (fun ev => is_send ev = false) (trace w')).
Proof.
  intros d.
  destruct (C4_failed_attempt_keeps_record reverting_env d (world_with d)
              (revert "bad reveal")) as [Hi Hf].
  split.
  - destruct Hi as (d' & w' & new & Hrun & Hext & Hst & Hs & _ & _ & _ & _ & He & _ & _ & _ & Hsend).
    { apply initialize_preflight_reverts. reflexivity. }
    exists d', w'. repeat split; try assumption.
    unfold extends in Hext. rewrite Hext, app_nil_r. apply Hsend. reflexivity.
  - destruct Hf as (d' & w' & new & Hrun & Hext & Hst & Hs & _ & _ & _ & _ & He & _ & _ & _ & Hsend).
    { apply finalize_preflight_reverts. reflexivity. }
    exists d', w'. repeat split; try assumption.
    unfold extends in Hext. rewrite Hext, app_nil_r. apply Hsend. reflexivity.
Defined.

(** ** Records advanced without a transaction hash *)

Lemma hash_or_null_hashless tx : tx_hash tx = None -> hash_or_null tx = None.
Proof. unfold hash_or_null. intros ->. reflexivity. Qed.

(** C10. For a truthy [tx] argument without a [hash] (such as the string
    ["Deposit already finalized"]), [updateToFinalizedDeposit(d, tx)] persists
    a record with status FINALIZED, no finalize hash, the finalization time
    set to the clock and no error, and [updateToInitializedDeposit(d, tx)]
    does the same for INITIALIZED; so a stored FINALIZED record need not have
    a finalize hash. *)
Theorem C10_hashless_tx_advances_record env d tx w :
  truthy_tx tx = true -> tx_hash tx = None ->
  (exists d' w',
     updateToFinalizedDeposit env d tx None w = (Ok tt, w') /\
     stored w' (id d) = Some d' /\
     status d' = DepositStatus.FINALIZED /\
     finalizeTxHash (eth (hashes d')) = None /\
     finalizationAt (dates d') = Some (Date_now_at env (tick w)) /\
     error d' = None) /\
  (exists d' w',
     updateToInitializedDeposit env d tx None w = (Ok tt, w') /\
     stored w' (id d) = Some d' /\
     status d' = DepositStatus.INITIALIZED /\
     initializeTxHash (eth (hashes d')) = None /\
     initializationAt (dates d') = Some (Date_now_at env (tick w)) /\
     error d' = None).
Proof.
  intros Htx Hhash. split.
  - destruct (updateToFinalizedDeposit_run env d tx None w)
      as (d' & n & Hupd & Hn & Hid & Hs & Hi & Hfin & Herr & Hia & Hfa & Hla).
    rewrite Htx in *. rewrite (hash_or_null_hashless tx Hhash) in Hfin.
    eexists d', _. split; [exact Hupd|].
    repeat split; try assumption. apply stored_insert.
  - destruct (updateToInitializedDeposit_run env d tx None w)
      as (d' & n & Hupd & Hn & Hid & Hs & Hi & Hfin & Herr & Hia & Hfa & Hla).
    rewrite Htx in *. rewrite (hash_or_null_hashless tx Hhash) in Hi.
    eexists d', _. split; [exact Hupd|].
    repeat split; try assumption. apply stored_insert.
Qed.

Lemma C10_hashless_tx_witness :
  let d := sample_deposit "42" DepositStatus.QUEUED None None 0 in
  exists d' w',
    updateToFinalizedDeposit sample_env d (TxText "Deposit already finalized") None
      (world_with d) = (Ok tt, w') /\
    stored w' "42" = Some d' /\
    status d' = DepositStatus.FINALIZED /\ finalizeTxHash (eth (hashes d')) = None.
Proof.
  intros d.
  destruct (C10_hashless_tx_advances_record sample_env d
              (TxText "Deposit already finalized") (world_with d) eq_refl eq_refl)
    as [(d' & w' & Hrun & Hst & Hs & Hh & _) _].
  exists d', w'. repeat split; assumption.
Defined.

(** ** The invariant of the hashes *)

Lemma updateDepositHashes_run env d newStatus txHash txType w :
  exists d',
    updateDepositHashes env d newStatus txHash txType w
    = (Ok d', {| store := store w; trace := trace w; tick := S (S (tick w)) |}) /\
    status d' = newStatus /\
    initializeTxHash (eth (hashes d'))
    = match txType with
      | initialize => Some txHash
      | finalize => initializeTxHash (eth (hashes d))
      end /\
    finalizeTxHash (eth (hashes d'))
    = match txType with
      | initialize => finalizeTxHash (eth (hashes d))
      | finalize => Some txHash
      end.
Proof.
  unfold updateDepositHashes. cbn. eexists. split; [reflexivity|].
  cbn. destruct txType; repeat split.
Qed.

(** C3 (as amended). From a record that satisfies the invariant of the
    hashes, [updateLastActivity] and [updateToFinalizedDeposit] produce a
    record that satisfies it, and so does every record [createDeposit]
    builds; [updateToInitializedDeposit] does when [tx] is falsy or the input
    has no finalize hash; [updateDepositHashes] does when the status the
    caller passes is FINALIZED, or the hash is an initialize hash, the status
    passed is INITIALIZED and the input has no finalize hash. *)
Theorem C3_updates_keep_hashes_consistent env d w :
  hashes_consistent d ->
  (forall ftx rv o s d0 w0,
     createDeposit env ftx rv o s w = (Ok d0, w0) -> hashes_consistent d0) /\
  (exists d' w',
     updateLastActivity env d w = (Ok d', w') /\
     stored w' (id d) = Some d' /\ hashes_consistent d') /\
  (forall tx err, exists d' w',
     updateToFinalizedDeposit env d tx err w = (Ok tt, w') /\
     stored w' (id d) = Some d' /\ hashes_consistent d') /\
  (forall tx err,
     truthy_tx tx = false \/ finalizeTxHash (eth (hashes d)) = None ->
     exists d' w',
       updateToInitializedDeposit env d tx err w = (Ok tt, w') /\
       stored w' (id d) = Some d' /\ hashes_consistent d') /\
  (forall newStatus txHash txType,
     newStatus = DepositStatus.FINALIZED \/
     (txType = initialize /\ newStatus = DepositStatus.INITIALIZED /\
      finalizeTxHash (eth (hashes d)) = None) ->
     exists d' w',
       updateDepositHashes env d newStatus txHash txType w = (Ok d', w') /\
       hashes_consistent d').
Proof.
  intros [Hfin Hinit]. unfold DepositStatus.FINALIZED, DepositStatus.INITIALIZED in *.
  split; [|split; [|split; [|split]]].
  - intros ftx rv o s d0 w0 H.
    destruct (createDeposit_run env ftx rv o s w)
      as [(e & _ & Hrun)|(k & d1 & _ & Hrun & _ & Hs & Hh & _)];
      rewrite Hrun in H; [discriminate|].
    injection H as <- <-. unfold hashes_consistent. rewrite Hh. cbn.
    split; intros; congruence.
  - destruct (updateLastActivity_run env d w) as (d' & Hrun & Hid & Hs & Hh & _).
    eexists d', _. split; [exact Hrun|]. split; [apply stored_insert|].
    unfold hashes_consistent, DepositStatus.FINALIZED, DepositStatus.INITIALIZED.
    rewrite Hh, Hs. split; assumption.
  - intros tx err.
    destruct (updateToFinalizedDeposit_run env d tx err w)
      as (d' & n & Hupd & Hn & Hid & Hs & Hi & Hf & _).
    eexists d', _. split; [exact Hupd|]. split; [apply stored_insert|].
    unfold hashes_consistent, DepositStatus.FINALIZED, DepositStatus.INITIALIZED in *.
    rewrite Hs, Hi, Hf. destruct (truthy_tx tx); split; auto; intros; lia.
  - intros tx err Hside.
    destruct (updateToInitializedDeposit_run env d tx err w)
      as (d' & n & Hupd & Hn & Hid & Hs & Hi & Hf & _).
    eexists d', _. split; [exact Hupd|]. split; [apply stored_insert|].
    unfold hashes_consistent, DepositStatus.FINALIZED, DepositStatus.INITIALIZED in *.
    rewrite Hs, Hi, Hf. destruct (truthy_tx tx); [|split; assumption].
    destruct Hside as [|Hnone]; [discriminate|].
    split; [intros; congruence|intros; lia].
  - intros newStatus txHash txType Hside.
    destruct (updateDepositHashes_run env d newStatus txHash txType w)
      as (d' & Hrun & Hs & Hi & Hf).
    eexists d', _. split; [exact Hrun|].
    unfold hashes_consistent, DepositStatus.FINALIZED, DepositStatus.INITIALIZED in *.
    rewrite Hs, Hi, Hf.
    destruct Hside as [->|(-> & -> & Hnone)]; [split; intros; lia|].
    split; [intros; congruence|intros; lia].
Qed.

Lemma C3_updates_witness :
  let d := sample_deposit "42" DepositStatus.INITIALIZED (Some "0xinit") None 0 in
  exists d' w',
    updateToFinalizedDeposit sample_env d (TxResponse (Some "0xfin")) None (world_with d)
    = (Ok tt, w') /\
    stored w' "42" = Some d' /\ hashes_consistent d'.
Proof.
  intros d.
  assert (Hd : hashes_consistent d).
  { split; cbn; [congruence|unfold DepositStatus.INITIALIZED; lia]. }
  destruct (C3_updates_keep_hashes_consistent sample_env d (world_with d) Hd)
    as (_ & _ & Hfin & _).
  exact (Hfin (TxResponse (Some "0xfin")) None).
Defined.

(** C3 as stated fails: [updateToInitializedDeposit] with a transaction turns
    a FINALIZED record that has a finalize hash into an INITIALIZED record
    that still has it, and [updateDepositHashes] sets an initialize hash on a
    record whose status the caller leaves at QUEUED. *)
Lemma C3_counterexample :
  let d := sample_deposit "42" DepositStatus.FINALIZED (Some "0xinit") (Some "0xfin") 0 in
  let q := sample_deposit "43" DepositStatus.QUEUED None None 0 in
  hashes_consistent d /\ hashes_consistent q /\
  (exists d',
     stored (updateToInitializedDeposit sample_env d (TxResponse (Some "0xinit")) None
               (world_with d)).2 "42" = Some d' /\
     ~ hashes_consistent d') /\
  (exists d',
     (updateDepositHashes sample_env q DepositStatus.QUEUED "0xinit" initialize
        (world_with q)).1 = Ok d' /\
     ~ hashes_consistent d').
Proof.
  intros d q. split; [|split; [|split]].
  - split; vm_compute; intros; (reflexivity || discriminate).
  - split; vm_compute; intros; congruence.
  - eexists. split; [vm_compute; reflexivity|].
    intros [H _]. specialize (H ltac:(discriminate)). discriminate H.
  - eexists. split; [vm_compute; reflexivity|].
    intros [_ H]. specialize (H ltac:(discriminate)). vm_compute in H.
    apply H. reflexivity.
Qed.

(** ** checkDepositStatus and the bodies of the reconciler loops *)

Lemma checkDepositStatus_run env k w :
  exists z new,
    checkDepositStatus env k w
    = (Ok z, {| store := store w; trace := (new ++ trace w)%list; tick := S (tick w) |}) /\
    Forall (fun ev => is_send ev = false) new /\
    match deposits_at env (tick w) k with
    | Ok n => z = n
    | Throw _ => z = 0
    end.
Proof.
  unfold checkDepositStatus, try_catch, call, bind, record, ask, lift. cbn.
  destruct (deposits_at env (tick w) k) as [n|e].
  - exists n, [EvDeposits k]. cbn. repeat split; auto.
  - exists 0, [EvLog e; EvDeposits k]. cbn. repeat split; auto.
Qed.

Lemma safe_checkDepositStatus env k : safe (checkDepositStatus env k).
Proof.
  apply safe_try_catch. intros e.
  apply safe_bind; [apply safe_LogError|]. intros _. apply safe_ret.
Qed.

Lemma confined_checkDepositStatus env k : confined k (checkDepositStatus env k).
Proof.
  apply confined_try_catch.
  - apply confined_call. right. reflexivity.
  - intros e. apply confined_bind; [apply confined_LogError|]. intros _.
    apply confined_ret.
Qed.

Lemma safe_processInitializeDeposit env d : safe (processInitializeDeposit env d).
Proof.
  unfold processInitializeDeposit.
  apply safe_bind; [apply safe_updateLastActivity|]. intros u.
  apply safe_bind; [apply safe_checkDepositStatus|]. intros z.
  repeat match goal with |- context [if ?b then _ else _] => destruct b end;
    auto using safe_updateToInitializedDeposit, safe_updateToFinalizedDeposit,
      safe_initializeDeposit, safe_ret.
Qed.

Lemma safe_processFinalizeDeposit env d : safe (processFinalizeDeposit env d).
Proof.
  unfold processFinalizeDeposit.
  apply safe_bind; [apply safe_updateLastActivity|]. intros u.
  apply safe_bind; [apply safe_checkDepositStatus|]. intros z.
  repeat match goal with |- context [if ?b then _ else _] => destruct b end;
    auto using safe_updateToFinalizedDeposit, safe_finalizeDeposit, safe_ret.
Qed.

Lemma confined_processInitializeDeposit env d :
  confined (id d) (processInitializeDeposit env d).
Proof.
  unfold processInitializeDeposit.
  apply (confined_bind_with (fun u => id u = id d));
    [apply confined_updateLastActivity|apply updateLastActivity_id|].
  intros u Hu. rewrite <- Hu.
  apply confined_bind; [apply confined_checkDepositStatus|]. intros z.
  repeat match goal with |- context [if ?b then _ else _] => destruct b end;
    auto using confined_updateToInitializedDeposit, confined_updateToFinalizedDeposit,
      confined_initializeDeposit, confined_ret.
Qed.

Lemma confined_processFinalizeDeposit env d :
  confined (id d) (processFinalizeDeposit env d).
Proof.
  unfold processFinalizeDeposit.
  apply (confined_bind_with (fun u => id u = id d));
    [apply confined_updateLastActivity|apply updateLastActivity_id|].
  intros u Hu. rewrite <- Hu.
  apply confined_bind; [apply confined_checkDepositStatus|]. intros z.
  repeat match goal with |- context [if ?b then _ else _] => destruct b end;
    auto using confined_updateToFinalizedDeposit, confined_finalizeDeposit, confined_ret.
Qed.

(** ** Loops over deposits *)

Lemma for_of_app {A} (f : A -> M unit) l1 l2 w :
  for_of (l1 ++ l2) f w = (for_of l1 f >> for_of l2 f) w.
Proof.
  revert w. induction l1 as [|x l1 IH]; intros w; [reflexivity|].
  cbn [for_of app]. unfold bind in *.
  destruct (f x w) as [[[]|e] w1]; [|reflexivity].
  apply IH.
Qed.

(** A loop whose bodies are confined to the keys of its elements leaves every
    other key alone. *)
Lemma for_of_frame {A} (key : A -> string) (f : A -> M unit) (l : list A) (k : string) :
  (forall x, x ∈ l -> confined (key x) (f x) /\ safe (f x)) ->
  k ∉ key <$> l ->
  forall w, exists w' new,
    for_of l f w = (Ok tt, w') /\ extends w w' new /\
    Forall (fun ev => about ev <> Some k) new /\
    store w' !! k = store w !! k /\ (tick w <= tick w')%nat.
Proof.
  induction l as [|x l IH]; intros Hf Hk w.
  - exists w, []. unfold extends. cbn. repeat split; auto.
  - destruct (Hf x ltac:(left)) as [Hc Hs].
    destruct (Hc w) as (new1 & Hext1 & Hall1 & Hst1 & Htk1).
    destruct (Hs w) as [[] Hok].
    cbn [for_of]. unfold bind.
    destruct (f x w) as [r w1]. cbn in Hok, Hext1, Hst1, Htk1. subst r.
    rewrite fmap_cons in Hk. apply not_elem_of_cons in Hk as [Hkx Hkl].
    destruct (IH (fun y Hy => Hf y ltac:(right; exact Hy)) Hkl w1)
      as (w' & new2 & Hrun & Hext2 & Hall2 & Hst2 & Htk2).
    exists w', (new2 ++ new1)%list. unfold extends in *.
    repeat split.
    + exact Hrun.
    + rewrite Hext2, Hext1. apply app_assoc.
    + apply Forall_app. split; [exact Hall2|].
      eapply Forall_impl; [exact Hall1|]. cbn. intros ev [->| ->]; congruence.
    + rewrite Hst2. apply Hst1. exact Hkx.
    + lia.
Qed.

(** ** The listing of the store *)

Lemma NoDup_fmap_filter {A B} (f : A -> B) (P : A -> Prop) `{!forall x, Decision (P x)}
    (l : list A) :
  NoDup (f <$> l) -> NoDup (f <$> filter P l).
Proof.
  induction l as [|x l IH]; [auto|].
  rewrite fmap_cons. intros [Hx Hl]%NoDup_cons.
  rewrite filter_cons. destruct (decide (P x)); [|auto].
  rewrite fmap_cons. apply NoDup_cons. split; [|auto].
  intros Hin. apply Hx. apply list_elem_of_fmap in Hin as (y & -> & Hy).
  apply list_elem_of_filter in Hy as [_ Hy]. apply list_elem_of_fmap. eauto.
Qed.

Lemma json_files_elem st k f :
  (k, f) ∈ json_files st <-> listed k = true /\ st !! k = Some f.
Proof.
  unfold json_files. rewrite list_elem_of_filter, elem_of_map_to_list. reflexivity.
Qed.

Lemma json_files_NoDup st : NoDup (json_files st).*1.
Proof. unfold json_files. apply NoDup_fmap_filter, NoDup_fst_map_to_list. Qed.

Lemma records_elem st d :
  d ∈ records st <-> exists k, listed k = true /\ st !! k = Some (Parsed d).
Proof.
  unfold records. rewrite list_elem_of_omap. split.
  - intros ([k f] & Hin & Hp). apply json_files_elem in Hin.
    destruct f as [d0|]; cbn in Hp; [|discriminate]. injection Hp as ->. eauto.
  - intros [k Hk]. exists (k, Parsed d). split; [|reflexivity].
    apply json_files_elem. exact Hk.
Qed.

Lemma records_NoDup w : store_wf w -> NoDup (id <$> records (store w)).
Proof.
  intros Hwf. unfold records.
  pose proof (json_files_NoDup (store w)) as Hkeys.
  assert (Hid : forall k d, (k, Parsed d) ∈ json_files (store w) -> id d = k).
  { intros k d Hin. apply Hwf. apply json_files_elem in Hin. apply Hin. }
  induction (json_files (store w)) as [|[k f] l IH]; [constructor|].
  rewrite fmap_cons in Hkeys. apply NoDup_cons in Hkeys as [Hk Hl].
  assert (Hid' : forall k d, (k, Parsed d) ∈ l -> id d = k).
  { intros k0 d0 Hin. apply Hid. right. exact Hin. }
  destruct f as [d|]; cbn; [|apply IH; assumption].
  rewrite (Hid k d ltac:(left)). apply NoDup_cons. split; [|apply IH; assumption].
  intros Hin. apply list_elem_of_fmap in Hin as (d' & Hd' & Hin).
  apply list_elem_of_omap in Hin as ([k' f'] & Hin & Hp).
  destruct f' as [d0|]; cbn in Hp; [|discriminate]. injection Hp as ->.
  apply Hk. apply list_elem_of_fmap. exists (k', Parsed d'). split; [|exact Hin].
  cbn. rewrite Hd'. apply Hid'. exact Hin.
Qed.

Lemma stored_lookup w k d : stored w k = Some d <-> store w !! k = Some (Parsed d).
Proof.
  unfold stored. destruct (store w !! k) as [[d0|]|]; split; congruence.
Qed.

(** A listing of a store in which records are filed under their ids lists
    records of the store, each once. *)
Lemma records_lists_records w : store_wf w -> lists_records w (records (store w)).
Proof.
  intros Hwf. split; [apply records_NoDup, Hwf|].
  intros x Hx. apply records_elem in Hx as (k & _ & Hk).
  rewrite (Hwf k x Hk). exact Hk.
Qed.

Lemma getAllJsonOperations_run w :
  getAllJsonOperations w
  = (Ok (records (store w)),
     {| store := store w; trace := (invalid_json_logs (store w) ++ trace w)%list;
        tick := tick w |}).
Proof. reflexivity. Qed.

Lemma invalid_json_logs_elem st ev :
  ev ∈ invalid_json_logs st <->
  exists k, listed k = true /\ st !! k = Some Corrupt /\ ev = EvLog (invalid_json_file k).
Proof.
  unfold invalid_json_logs. rewrite elem_of_reverse, list_elem_of_omap. split.
  - intros ([k f] & Hin & Hlog). apply json_files_elem in Hin as [Hl Hk].
    unfold invalid_json_log in Hlog. cbn in Hlog.
    destruct f; [discriminate|]. injection Hlog as <-. eauto.
  - intros (k & Hl & Hk & ->). exists (k, Corrupt). split; [|reflexivity].
    apply json_files_elem. split; assumption.
Qed.

Lemma invalid_json_logs_quiet st k :
  Forall (fun ev => about ev <> Some k) (invalid_json_logs st).
Proof.
  apply Forall_forall. intros ev Hev.
  apply invalid_json_logs_elem in Hev as (k' & _ & _ & ->). discriminate.
Qed.

Lemma filter_strict_string name (l : list Deposit) :
  filter (fun operation => strict_equal (status operation) (JsString name) = true) l = [].
Proof.
  induction l as [|d l IH]; [reflexivity|].
  rewrite filter_cons. destruct (decide _) as [Hd|_]; [discriminate Hd|exact IH].
Qed.

Lemma filter_strict_number n (l : list Deposit) :
  filter (fun operation => strict_equal (status operation) (JsNumber n) = true) l
  = filter (fun d => status d = n) l.
Proof.
  induction l as [|d l IH]; [reflexivity|].
  rewrite !filter_cons, IH. cbn [strict_equal].
  destruct (decide ((status d =? n)%Z = true)) as [Hd|Hd], (decide (status d = n)) as [He|He];
    try reflexivity; exfalso.
  - apply He, Z.eqb_eq, Hd.
  - apply Hd, Z.eqb_eq, He.
Qed.

Lemma getAllJsonOperationsByStatus_run wanted w :
  getAllJsonOperationsByStatus wanted w
  = (Ok (filter (fun operation => strict_equal (status operation) wanted = true)
           (records (store w))),
     {| store := store w; trace := (invalid_json_logs (store w) ++ trace w)%list;
        tick := tick w |}).
Proof. reflexivity. Qed.

(** ** The reconciler passes *)

Lemma safe_for_of {A} (f : A -> M unit) l : (forall x, safe (f x)) -> safe (for_of l f).
Proof.
  intros Hf. induction l as [|x l IH]; [apply safe_ret|].
  cbn [for_of]. apply safe_bind; [apply Hf|]. intros _. exact IH.
Qed.

(** Called with the name of a status, the listing is empty, and the pass
    returns after it: no clock is read, no file written, no call made. *)
Lemma processInitializeDeposits_run env w :
  processInitializeDeposits env w
  = (Ok tt, {| store := store w; trace := (invalid_json_logs (store w) ++ trace w)%list;
               tick := tick w |}).
Proof.
  unfold processInitializeDeposits, try_catch, bind at 1.
  rewrite getAllJsonOperationsByStatus_run, filter_strict_string. reflexivity.
Qed.

Lemma processFinalizeDeposits_run env w :
  processFinalizeDeposits env w
  = (Ok tt, {| store := store w; trace := (invalid_json_logs (store w) ++ trace w)%list;
               tick := tick w |}).
Proof.
  unfold processFinalizeDeposits, try_catch, bind at 1.
  rewrite getAllJsonOperationsByStatus_run, filter_strict_string. reflexivity.
Qed.

(** The passes are [after_listing] run on what their listing returns. *)
Lemma processInitializeDeposits_after_listing env :
  processInitializeDeposits env
  = try_catch
      (let* queuedDeposits := getAllJsonOperationsByStatus (JsString "QUEUED") in
       after_listing env (processInitializeDeposit env) queuedDeposits)
      (fun error => LogError error).
Proof. reflexivity. Qed.

Lemma processFinalizeDeposits_after_listing env :
  processFinalizeDeposits env
  = try_catch
      (let* initializedDeposits := getAllJsonOperationsByStatus (JsString "INITIALIZED") in
       after_listing env (processFinalizeDeposit env) initializedDeposits)
      (fun error => LogError error).
Proof. reflexivity. Qed.

Lemma filterDepositsActivityTime_run env deposits w :
  filterDepositsActivityTime env deposits w
  = (Ok (due env (tick w) deposits),
     {| store := store w; trace := trace w; tick := S (tick w) |}).
Proof. reflexivity. Qed.

(** After the listing a pass is the loop over the deposits that are due,
    started after the clock of the filter was read (or at once when nothing
    was listed). *)
Lemma after_listing_run env (body : Deposit -> M unit) deposits w :
  exists w0,
    store w0 = store w /\ trace w0 = trace w /\ (tick w <= tick w0)%nat /\
    after_listing env body deposits w = for_of (due env (tick w) deposits) body w0.
Proof.
  unfold after_listing. destruct deposits as [|x l].
  - exists w. repeat split; auto.
  - cbn [length Nat.eqb]. unfold bind at 1. rewrite filterDepositsActivityTime_run.
    set (w1 := {| store := store w; trace := trace w; tick := S (tick w) |}).
    exists w1. split; [reflexivity|]. split; [reflexivity|]. split; [cbn; lia|].
    destruct (due env (tick w) (x :: l)) as [|y l']; reflexivity.
Qed.

Lemma due_elem env t deposits d :
  d ∈ due env t deposits <->
  TIME_TO_RETRY < Date_now_at env t - lastActivityAt (dates d) /\ d ∈ deposits.
Proof. unfold due. rewrite list_elem_of_filter. reflexivity. Qed.

Lemma due_NoDup env t deposits :
  NoDup (id <$> deposits) -> NoDup (id <$> due env t deposits).
Proof. apply NoDup_fmap_filter. Qed.

Lemma NoDup_fmap_eq {A B} (f : A -> B) (l : list A) x y :
  NoDup (f <$> l) -> x ∈ l -> y ∈ l -> f x = f y -> x = y.
Proof.
  induction l as [|a l IH]; intros Hnd Hx Hy Hf; [inversion Hx|].
  rewrite fmap_cons in Hnd. apply NoDup_cons in Hnd as [Ha Hl].
  apply elem_of_cons in Hx as [->|Hx]; apply elem_of_cons in Hy as [->|Hy].
  - reflexivity.
  - exfalso. apply Ha. rewrite Hf. apply list_elem_of_fmap. eauto.
  - exfalso. apply Ha. rewrite <- Hf. apply list_elem_of_fmap. eauto.
  - apply IH; assumption.
Qed.

(** A listed deposit that is not due has an id that no due deposit has. *)
Lemma skipped_not_due env t deposits d :
  NoDup (id <$> deposits) -> d ∈ deposits ->
  Date_now_at env t - lastActivityAt (dates d) <= TIME_TO_RETRY ->
  id d ∉ id <$> due env t deposits.
Proof.
  intros Hnd Hd Hrecent Hin.
  apply list_elem_of_fmap in Hin as (x & Hid & Hx).
  apply due_elem in Hx as [Hlate Hx].
  assert (x = d) by (eapply NoDup_fmap_eq; eauto). subst x. lia.
Qed.

(** The pass after its listing, seen from a key it does not work on. *)
Lemma after_listing_frame env (body : Deposit -> M unit) deposits w k :
  (forall x, confined (id x) (body x) /\ safe (body x)) ->
  k ∉ id <$> due env (tick w) deposits ->
  exists w' new,
    after_listing env body deposits w = (Ok tt, w') /\ extends w w' new /\
    Forall (fun ev => about ev <> Some k) new /\
    store w' !! k = store w !! k.
Proof.
  intros Hbody Hk.
  destruct (after_listing_run env body deposits w) as (w0 & Hst & Htr & _ & Hrun).
  destruct (for_of_frame id body (due env (tick w) deposits) k
              (fun x _ => Hbody x) Hk w0)
    as (w' & new & Hloop & Hext & Hall & Hkeep & _).
  exists w', new. rewrite Hrun. unfold extends in *. rewrite Htr in Hext.
  rewrite Hst in Hkeep. repeat split; assumption.
Qed.

(** C7. The throttle of the reconciler. [filterDepositsActivityTime] keeps
    exactly the deposits for which the clock, read once, minus
    [lastActivityAt] is strictly greater than [TIME_TO_RETRY] (300000 ms).
    Whatever list its listing returns, a pass works only on the deposits the
    filter keeps: a listed deposit whose last activity is within the last
    five minutes is skipped by the rest of [processInitializeDeposits] and
    of [processFinalizeDeposits], its file is unchanged and the trace gains
    no entry about it (no status check, no pre-flight, no send, no write).
    For the passes as a whole this holds of every key of the store: with
    the listing of utils/JsonUtils.ts called with the name of a status, they
    list no deposit at all. *)
Theorem C7_activity_throttle env w :
  TIME_TO_RETRY = 300000 /\
  (forall deposits,
     filterDepositsActivityTime env deposits w
     = (Ok (filter (fun deposit =>
                      TIME_TO_RETRY
                      < Date_now_at env (tick w) - lastActivityAt (dates deposit))
              deposits),
        {| store := store w; trace := trace w; tick := S (tick w) |})) /\
  (forall deposits d,
     NoDup (id <$> deposits) -> d ∈ deposits ->
     Date_now_at env (tick w) - lastActivityAt (dates d) <= TIME_TO_RETRY ->
     (exists w' new,
        after_listing env (processInitializeDeposit env) deposits w = (Ok tt, w') /\
        extends w w' new /\
        Forall (fun ev => about ev <> Some (id d)) new /\
        store w' !! id d = store w !! id d) /\
     (exists w' new,
        after_listing env (processFinalizeDeposit env) deposits w = (Ok tt, w') /\
        extends w w' new /\
        Forall (fun ev => about ev <> Some (id d)) new /\
        store w' !! id d = store w !! id d)) /\
  (forall k,
     (exists w' new,
        processInitializeDeposits env w = (Ok tt, w') /\ extends w w' new /\
        Forall (fun ev => about ev <> Some k) new /\
        store w' !! k = store w !! k) /\
     (exists w' new,
        processFinalizeDeposits env w = (Ok tt, w') /\ extends w w' new /\
        Forall (fun ev => about ev <> Some k) new /\
        store w' !! k = store w !! k)).
Proof.
  split; [reflexivity|]. split; [intros deposits; reflexivity|]. split.
  - intros deposits d Hnd Hd Hrecent.
    pose proof (skipped_not_due env (tick w) deposits d Hnd Hd Hrecent) as Hk.
    split.
    + apply after_listing_frame; [|exact Hk].
      intros x. split; [apply confined_processInitializeDeposit
                       |apply safe_processInitializeDeposit].
    + apply after_listing_frame; [|exact Hk].
      intros x. split; [apply confined_processFinalizeDeposit
                       |apply safe_processFinalizeDeposit].
  - intros k. split.
    + rewrite processInitializeDeposits_run. eexists _, _.
      split; [reflexivity|]. split; [reflexivity|].
      split; [apply invalid_json_logs_quiet|reflexivity].
    + rewrite processFinalizeDeposits_run. eexists _, _.
      split; [reflexivity|]. split; [reflexivity|].
      split; [apply invalid_json_logs_quiet|reflexivity].
Qed.

Lemma store_wf_world_with d : store_wf (world_with d).
Proof.
  intros k d' H. cbn in H. apply lookup_singleton_Some in H as [<- [= <-]].
  reflexivity.
Qed.

Lemma stored_world_with d : stored (world_with d) (id d) = Some d.
Proof. unfold stored. cbn. rewrite lookup_singleton_eq. reflexivity. Qed.

Lemma stored_world_with_ne d k : k <> id d -> stored (world_with d) k = None.
Proof.
  intros Hne. unfold stored, world_with. cbn [store].
  rewrite lookup_singleton_ne by congruence. reflexivity.
Qed.

Lemma C7_activity_throttle_witness :
  let d := sample_deposit "42" DepositStatus.QUEUED None None 1699999999000 in
  let old := sample_deposit "43" DepositStatus.QUEUED None None 0 in
  exists w',
    after_listing sample_env (processInitializeDeposit sample_env) [d; old]
      (world_with d) = (Ok tt, w') /\
    store w' !! "42" = Some (Parsed d) /\
    Forall (fun ev => about ev <> Some "42") (trace w').
Proof.
  intros d old.
  destruct (C7_activity_throttle sample_env (world_with d)) as (_ & _ & Hskip & _).
  assert (Hnd : NoDup (id <$> [d; old])).
  { change (NoDup ["42"; "43"]). apply NoDup_cons. split; [|apply NoDup_singleton].
    rewrite list_elem_of_singleton. discriminate. }
  destruct (Hskip [d; old] d Hnd) as ((w' & new & Hrun & Hext & Hall & Hkeep) & _).
  { left. }
  { vm_compute. discriminate. }
  exists w'. split; [exact Hrun|]. split.
  - transitivity (store (world_with d) !! id d); [exact Hkeep|].
    apply stored_lookup, stored_world_with.
  - unfold extends in Hext. rewrite Hext. apply Forall_app. split; [exact Hall|].
    constructor.
Defined.

(** ** Records that the chain is ahead of *)

Lemma checkDepositStatus_ok env k w z :
  deposits_at env (tick w) k = Ok z ->
  checkDepositStatus env k w
  = (Ok z, {| store := store w; trace := EvDeposits k :: trace w; tick := S (tick w) |}).
Proof.
  intros H. unfold checkDepositStatus, try_catch, call, bind, record, ask, lift.
  cbn. rewrite H. reflexivity.
Qed.




(** A loop over deposits with distinct ids, seen from a deposit it works on:
    the body runs on the deposit once, and nothing before or after it in
    the loop touches the deposit's file or adds an entry about it. *)
Lemma loop_processes (body : Deposit -> M unit) l w0 d :
  (forall x, confined (id x) (body x) /\ safe (body x)) ->
  NoDup (id <$> l) -> d ∈ l ->
  exists w1 w2 w' new1 new3,
    for_of l body w0 = (Ok tt, w') /\
    (body d w1).2 = w2 /\
    (tick w0 <= tick w1)%nat /\
    trace w1 = (new1 ++ trace w0)%list /\
    trace w' = (new3 ++ trace w2)%list /\
    Forall (fun ev => about ev <> Some (id d)) new1 /\
    Forall (fun ev => about ev <> Some (id d)) new3 /\
    store w1 !! id d = store w0 !! id d /\
    store w' !! id d = store w2 !! id d.
Proof.
  intros Hbody Hnd Hd.
  apply list_elem_of_split in Hd as (l1 & l2 & Hl). rewrite Hl in *.
  rewrite fmap_app, fmap_cons in Hnd.
  apply NoDup_app in Hnd as (_ & Hdisj & Hnd2).
  apply NoDup_cons in Hnd2 as [Hk2 _].
  assert (Hk1 : id d ∉ id <$> l1).
  { intros Hin. apply (Hdisj _ Hin). left. }
  destruct (for_of_frame id body l1 (id d) (fun x _ => Hbody x) Hk1 w0)
    as (w1 & new1 & Hrun1 & Hext1 & Hall1 & Hkeep1 & Htk1).
  rewrite for_of_app. unfold bind at 1. rewrite Hrun1. cbn [for_of]. unfold bind at 1.
  destruct (proj2 (Hbody d) w1) as [[] Hok].
  destruct (body d w1) as [r w2] eqn:Hbd. cbn in Hok. subst r.
  destruct (for_of_frame id body l2 (id d) (fun x _ => Hbody x) Hk2 w2)
    as (w' & new3 & Hrun3 & Hext3 & Hall3 & Hkeep3 & _).
  exists w1, w2, w', new1, new3. rewrite Hbd. unfold extends in *.
  repeat split; assumption.
Qed.

(** The pass after its listing, seen from a listed deposit that is due: what
    the step does to the record and adds to the trace is what the pass
    leaves for it, between entries that are not about it. *)
Lemma after_listing_on_record env (body : Deposit -> M unit)
    (Q : Deposit -> list Event -> Prop) deposits w d :
  (forall x, confined (id x) (body x) /\ safe (body x)) ->
  NoDup (id <$> deposits) -> d ∈ deposits ->
  TIME_TO_RETRY < Date_now_at env (tick w) - lastActivityAt (dates d) ->
  (forall w1, exists d' mid,
     stored (body d w1).2 (id d) = Some d' /\
     trace (body d w1).2 = (mid ++ trace w1)%list /\ Q d' mid) ->
  exists w' d' new1 mid new3,
    after_listing env body deposits w = (Ok tt, w') /\
    trace w' = (new3 ++ mid ++ new1 ++ trace w)%list /\
    stored w' (id d) = Some d' /\ Q d' mid /\
    Forall (fun ev => about ev <> Some (id d)) new1 /\
    Forall (fun ev => about ev <> Some (id d)) new3.
Proof.
  intros Hbody Hnd Hd Hlate Hstep.
  destruct (after_listing_run env body deposits w) as (w0 & Hst & Htr & _ & Hrun).
  assert (Hin : d ∈ due env (tick w) deposits) by (apply due_elem; auto).
  destruct (loop_processes body (due env (tick w) deposits) w0 d Hbody
              (due_NoDup env (tick w) deposits Hnd) Hin)
    as (w1 & w2 & w' & new1 & new3 & Hloop & Hb & _ & Htr1 & Htr3 & H1 & H3 & _ & Hkeep).
  destruct (Hstep w1) as (d' & mid & Hd' & Hmid & HQ).
  rewrite Hb in Hd', Hmid.
  exists w', d', new1, mid, new3. rewrite Hrun.
  split; [exact Hloop|]. split.
  { rewrite Htr3, Hmid, Htr1, Htr. reflexivity. }
  split. { apply stored_lookup. rewrite Hkeep. apply stored_lookup, Hd'. }
  repeat split; assumption.
Qed.

Lemma about_only k (P : Event -> Prop) (new1 mid new3 : list Event) :
  Forall (fun ev => about ev <> Some k) new1 ->
  Forall (fun ev => about ev <> Some k) new3 ->
  Forall (fun ev => about ev = Some k -> P ev) mid ->
  Forall (fun ev => about ev = Some k -> P ev) (new3 ++ mid ++ new1)%list.
Proof.
  intros H1 H3 Hmid. rewrite !Forall_app. repeat split.
  - eapply Forall_impl; [exact H3|]. cbn. intros ev Hne He. contradiction.
  - exact Hmid.
  - eapply Forall_impl; [exact H1|]. cbn. intros ev Hne He. contradiction.
Qed.



(** ** The block range of a timestamp *)

Section BinarySearchFacts.
Variable getBlock : Z -> BlockFetch.
Variable timestamp : Z.

Lemma binarySearch_ends fuel : forall low high startBlock,
  (search_fuel low high <= fuel)%nat ->
  binarySearch getBlock timestamp fuel low high startBlock <> OutOfFuel.
Proof.
  unfold search_fuel.
  induction fuel as [|fuel IH]; intros low high sb Hfuel; cbn [binarySearch];
    destruct (Z.leb_spec low high) as [Hle|Hgt]; try discriminate; [lia|].
  assert (Hmid : low <= (low + high) / 2 <= high) by (Z.div_mod_to_equations; lia).
  destruct (getBlock ((low + high) / 2)) as [e| |t]; [discriminate|apply IH; lia|].
  destruct (t =? timestamp)%Z; [discriminate|].
  destruct (t <? timestamp)%Z; apply IH; lia.
Qed.

Lemma last_cons_default {A} (x : A) l d : List.last (x :: l) d = List.last l x.
Proof.
  revert x d. induction l as [|y l IH]; intros x d; [reflexivity|].
  change (List.last (x :: y :: l) d) with (List.last (y :: l) d).
  rewrite !IH. reflexivity.
Qed.

(** Without a failing fetch the loop ends with the last midpoint it
    recorded, or with the initial value when it recorded none. *)
Lemma binarySearch_last fuel : forall low high startBlock,
  (forall n e, getBlock n <> FetchThrows e) ->
  (search_fuel low high <= fuel)%nat ->
  binarySearch getBlock timestamp fuel low high startBlock
  = Finished (List.last (candidates getBlock timestamp fuel low high) startBlock).
Proof.
  unfold search_fuel.
  induction fuel as [|fuel IH]; intros low high sb Hok Hfuel;
    cbn [binarySearch candidates];
    destruct (Z.leb_spec low high) as [Hle|Hgt]; try reflexivity; [lia|].
  assert (Hmid : low <= (low + high) / 2 <= high) by (Z.div_mod_to_equations; lia).
  destruct (getBlock ((low + high) / 2)) as [e| |t] eqn:Hb.
  - exfalso. exact (Hok _ _ Hb).
  - apply IH; [exact Hok|lia].
  - destruct (t =? timestamp)%Z; [reflexivity|].
    destruct (t <? timestamp)%Z.
    + rewrite last_cons_default. apply IH; [exact Hok|lia].
    + apply IH; [exact Hok|lia].
Qed.

(** Every midpoint the loop records lies in the interval and is a block
    whose timestamp is at most the target. *)
Lemma candidates_sound fuel : forall low high,
  Forall (fun c => low <= c <= high /\
                   exists t, getBlock c = FetchBlock t /\ t <= timestamp)
    (candidates getBlock timestamp fuel low high).
Proof.
  induction fuel as [|fuel IH]; intros low high; cbn [candidates];
    destruct (Z.leb_spec low high) as [Hle|Hgt]; try constructor.
  assert (Hmid : low <= (low + high) / 2 <= high) by (Z.div_mod_to_equations; lia).
  destruct (getBlock ((low + high) / 2)) as [e| |t] eqn:Hb; [constructor| |].
  - eapply Forall_impl; [apply IH|]. cbn. intros c [Hc Ht]. split; [lia|exact Ht].
  - destruct (Z.eqb_spec t timestamp) as [Heq|Hne].
    + repeat constructor; try lia. exists t. split; [exact Hb|lia].
    + destruct (Z.ltb_spec t timestamp) as [Hlt|Hge].
      * constructor.
        -- split; [lia|]. exists t. split; [exact Hb|lia].
        -- eapply Forall_impl; [apply IH|]. cbn. intros c [Hc Ht].
           split; [lia|exact Ht].
      * eapply Forall_impl; [apply IH|]. cbn. intros c [Hc Ht].
        split; [lia|exact Ht].
Qed.
End BinarySearchFacts.

Lemma last_nonempty {A} (l : list A) (d d' : A) :
  l <> [] -> List.last l d = List.last l d' /\ List.last l d ∈ l.
Proof.
  induction l as [|x [|y l] IH]; intros Hne; [contradiction| |].
  - split; [reflexivity|left].
  - destruct IH as [Heq Hin]; [discriminate|].
    change (List.last (x :: y :: l) d) with (List.last (y :: l) d).
    change (List.last (x :: y :: l) d') with (List.last (y :: l) d').
    split; [exact Heq|right; exact Hin].
Qed.

(** C9 (as amended). [getBlocksByTimestamp(t, latestBlock)] always returns,
    with [endBlock = latestBlock]. When no block fetch throws and
    [START_BLOCK] is not negative, [startBlock] is the last lower-bound
    candidate the binary search over [START_BLOCK .. latestBlock] found (a
    block of that interval whose timestamp is at most [t]) and [START_BLOCK]
    when it found none. *)
Theorem C9_getBlocksByTimestamp env timestamp latestBlock w :
  exists r w',
    getBlocksByTimestamp env timestamp latestBlock w = (Ok (Some r), w') /\
    endBlock r = latestBlock /\
    ((forall n e, getBlock_at env (tick w) n <> FetchThrows e) ->
     0 <= START_BLOCK env ->
     let found := candidates (getBlock_at env (tick w)) timestamp
                    (search_fuel (START_BLOCK env) latestBlock)
                    (START_BLOCK env) latestBlock in
     startBlock r = List.last found (START_BLOCK env) /\
     (found = [] -> startBlock r = START_BLOCK env) /\
     (found <> [] ->
      START_BLOCK env <= startBlock r <= latestBlock /\
      exists t, getBlock_at env (tick w) (startBlock r) = FetchBlock t /\
                t <= timestamp)).
Proof.
  unfold getBlocksByTimestamp, bind, record, ask. cbn [tick store trace].
  pose proof (binarySearch_ends (getBlock_at env (tick w)) timestamp
                (search_fuel (START_BLOCK env) latestBlock)
                (START_BLOCK env) latestBlock (-1) (le_n _)) as Hends.
  pose proof (binarySearch_last (getBlock_at env (tick w)) timestamp
                (search_fuel (START_BLOCK env) latestBlock)
                (START_BLOCK env) latestBlock (-1)) as Hlast.
  pose proof (candidates_sound (getBlock_at env (tick w)) timestamp
                (search_fuel (START_BLOCK env) latestBlock)
                (START_BLOCK env) latestBlock) as Hsound.
  destruct (binarySearch (getBlock_at env (tick w)) timestamp
              (search_fuel (START_BLOCK env) latestBlock)
              (START_BLOCK env) latestBlock (-1)) as [sb|sb e|];
    [| |contradiction].
  - eexists _, _. split; [reflexivity|]. split; [reflexivity|].
    intros Hok Hstart. cbv zeta.
    specialize (Hlast Hok (le_n _)). injection Hlast as ->. cbn [startBlock].
    destruct (candidates (getBlock_at env (tick w)) timestamp
                (search_fuel (START_BLOCK env) latestBlock)
                (START_BLOCK env) latestBlock) as [|c cs].
    + cbn. split; [reflexivity|]. split; [reflexivity|]. intros H. contradiction.
    + destruct (last_nonempty (c :: cs) (-1) (START_BLOCK env)) as [Heq Hin];
        [discriminate|].
      rewrite Forall_forall in Hsound. destruct (Hsound _ Hin) as [Hrange Hblock].
      destruct (Z.eqb_spec (List.last (c :: cs) (-1)) (-1)) as [Hm|_]; [lia|].
      split; [exact Heq|]. split; [discriminate|]. intros _. split; assumption.
  - unfold LogError, record. cbn.
    eexists _, _. split; [reflexivity|]. split; [reflexivity|].
    intros Hok Hstart. specialize (Hlast Hok (le_n _)). discriminate.
Qed.

Lemma C9_getBlocksByTimestamp_witness :
  let blocks (n : Z) :=
    if (0 <=? n)%Z && (n <=? 10)%Z then FetchBlock (1000 + 12 * n) else FetchNull in
  let env := with_l2 sample_env (fun _ => blocks) (fun _ _ _ => Ok []) in
  exists r w',
    getBlocksByTimestamp env 1050 10 empty_world = (Ok (Some r), w') /\
    endBlock r = 10 /\ startBlock r = 4 /\ blocks 4 = FetchBlock 1048.
Proof.
  intros blocks env.
  destruct (C9_getBlocksByTimestamp env 1050 10 empty_world)
    as (r & w' & Hrun & Hend & Hstart).
  destruct Hstart as (Hlast & _ & _).
  { intros n e. cbn. unfold blocks.
    destruct ((0 <=? n)%Z && (n <=? 10)%Z); discriminate. }
  { cbn. lia. }
  exists r, w'. repeat split; try assumption.
Defined.

(** C9 as stated fails when a fetch throws: the first fetch fails, no
    candidate is found, and [startBlock] is [-1], not [START_BLOCK]. *)
Lemma C9_counterexample :
  exists w',
    getBlocksByTimestamp reverting_env 100 10 empty_world
    = (Ok (Some {| startBlock := -1; endBlock := 10 |}), w') /\
    candidates (getBlock_at reverting_env 0) 100 (search_fuel 0 10) 0 10 = [] /\
    START_BLOCK reverting_env = 0.
Proof. eexists. vm_compute. repeat split. Qed.

(** ** Events for a deposit that is already stored *)

Lemma try_catch_record_first {A B} ev (f : unit -> M A) (g : A -> M B) h w :
  try_catch (bind (bind (record ev) f) g) h w
  = try_catch (bind (f tt) g) h
      {| store := store w; trace := ev :: trace w; tick := tick w |}.
Proof. reflexivity. Qed.

(** [initializeDeposit] always starts with the pre-flight call. *)
Lemma initializeDeposit_attempts env d w :
  exists new,
    trace (initializeDeposit env d w).2
    = (new ++ EvCallStaticInitialize (id d) :: trace w)%list.
Proof.
  unfold initializeDeposit, call at 1. rewrite try_catch_record_first.
  match goal with
  | |- context [try_catch ?m ?h ?w1] =>
      assert (Hc : confined (id d) (try_catch m h))
  end.
  { apply confined_try_catch.
    - apply confined_bind.
      { apply confined_bind; [apply confined_ask|]. intros r. apply confined_lift. }
      intros _.
      apply confined_bind; [apply confined_call; left; reflexivity|]. intros nonce.
      apply confined_bind; [apply confined_call; right; reflexivity|]. intros tx.
      apply confined_bind; [apply confined_call; left; reflexivity|]. intros _.
      apply confined_updateToInitializedDeposit.
    - intros e. apply confined_bind; [apply confined_LogError|]. intros _.
      apply confined_updateToInitializedDeposit. }
  match goal with
  | |- context [try_catch ?m ?h ?w1] => destruct (Hc w1) as (new & Hext & _)
  end.
  exists new. exact Hext.
Qed.

(** What a pre-flight revert leaves in the store. *)
Lemma initializeDeposit_preflight_revert env d w e :
  callStatic_initializeDeposit_at env (tick w) (L1OutputEvent d) = Throw e ->
  exists d' w',
    initializeDeposit env d w = (Ok tt, w') /\
    trace w'
    = EvWriteJson (id d) :: EvLog e :: EvCallStaticInitialize (id d) :: trace w /\
    stored w' (id d) = Some d' /\
    status d' = status d /\ error d' = Some (reason_or_unknown e).
Proof.
  intros Hpre. unfold initializeDeposit, try_catch at 1.
  unfold bind at 1, call at 1, bind at 1, record at 1.
  unfold bind at 1, ask at 1, lift at 1.
  cbn [tick trace store]. rewrite Hpre.
  unfold bind at 1, LogError, record. cbn [store trace tick].
  match goal with
  | |- context [updateToInitializedDeposit env d TxNull ?r ?w2] =>
      destruct (updateToInitializedDeposit_run env d TxNull r w2)
        as (d' & n & Hupd & Hn & Hid & Hs & Hi & Hfin & Herr & _)
  end.
  rewrite Hupd. cbn [store trace tick truthy_tx truthy] in *.
  rewrite reason_or_unknown_truthy in Herr.
  eexists d', _. split; [reflexivity|]. cbn [trace].
  repeat split; try assumption. apply stored_insert.
Qed.

(** [writeNewJsonDeposit] writes nothing for an id that has a record. *)
Lemma writeNewJsonDeposit_exists env ftx rv o s w k d :
  getDepositId env (getFundingTxHash env ftx) (reveal0 rv) = Ok k ->
  stored w k = Some d ->
  writeNewJsonDeposit env ftx rv o s w
  = (Ok tt, {| store := store w; trace := trace w; tick := S (S (tick w)) |}).
Proof.
  intros Hk Hd. unfold writeNewJsonDeposit, bind at 1.
  destruct (createDeposit_run env ftx rv o s w)
    as [(e & He & _)|(k' & d1 & Hk' & Hrun & Hid & _)]; [congruence|].
  rewrite Hrun. assert (Hkk : id d1 = k) by congruence.
  unfold bind, checkIfExistJson. cbn [store]. rewrite Hkk.
  apply stored_lookup in Hd. rewrite Hd. reflexivity.
Qed.

(** [writeNewJsonDeposit] files the new QUEUED record for an id that has no
    record. *)
Lemma writeNewJsonDeposit_new env ftx rv o s w k :
  getDepositId env (getFundingTxHash env ftx) (reveal0 rv) = Ok k ->
  stored w k = None ->
  exists d,
    writeNewJsonDeposit env ftx rv o s w
    = (Ok tt, {| store := <[k := Parsed d]> (store w);
                 trace := EvWriteJson k :: trace w;
                 tick := S (S (tick w)) |}) /\
    id d = k /\ status d = DepositStatus.QUEUED.
Proof.
  intros Hk Hd. unfold writeNewJsonDeposit, bind at 1.
  destruct (createDeposit_run env ftx rv o s w)
    as [(e & He & _)|(k' & d1 & Hk' & Hrun & Hid & Hs & _)]; [congruence|].
  rewrite Hrun. assert (Hkk : id d1 = k) by congruence.
  unfold bind, checkIfExistJson, writeJson, ret. cbn [store trace tick]. rewrite Hkk.
  unfold stored in Hd. exists d1.
  destruct (store w !! k) as [[d0|]|]; [discriminate| |]; repeat split; assumption.
Qed.

(** C1 fails on the code. A [DepositInitialized] event for a deposit that
    already has a record (a duplicate, or an event seen again after a
    restart) whose pre-flight call reverts makes the handler overwrite the
    stored record with the freshly built QUEUED record: whatever the stored
    status was, it is QUEUED afterwards. *)
Theorem C1_duplicate_event_overwrites_status env w ftx rv o s k d e :
  getDepositId env (getFundingTxHash env ftx) (reveal0 rv) = Ok k ->
  stored w k = Some d ->
  (forall ev, callStatic_initializeDeposit_at env (4 + tick w) ev = Throw e) ->
  exists d' w',
    onDepositInitialized env ftx rv o s w = (Ok tt, w') /\
    stored w' k = Some d' /\
    status d' = DepositStatus.QUEUED /\
    (DepositStatus.QUEUED < status d -> status d' < status d).
Proof.
  intros Hk Hd Hpre. unfold onDepositInitialized, try_catch, bind at 1.
  destruct (createDeposit_run env ftx rv o s w)
    as [(e0 & He & _)|(k' & d1 & Hk' & Hrun & Hid & Hs & _)]; [congruence|].
  rewrite Hrun. assert (Hkk : id d1 = k) by congruence.
  unfold bind at 1.
  rewrite (writeNewJsonDeposit_exists env ftx rv o s
             {| store := store w; trace := trace w; tick := S (S (tick w)) |}
             k d Hk Hd).
  cbn [store trace tick].
  match goal with
  | |- context [initializeDeposit env d1 ?w2] =>
      destruct (initializeDeposit_preflight_revert env d1 w2 e (Hpre _))
        as (d' & w' & Hinit & _ & Hst & Hs' & _)
  end.
  rewrite Hinit. exists d', w'. rewrite Hkk in Hst. rewrite Hs in Hs'.
  repeat split; try assumption. rewrite Hs'. auto.
Qed.

Lemma C1_duplicate_event_witness :
  let env := with_l1 sample_env (fun _ _ => Ok DepositStatus.FINALIZED)
               (fun _ _ => Throw (revert "Deposit already initialized")) in
  exists k d' w',
    getDepositId env sample_hash 0 = Ok k /\
    onDepositInitialized env sample_fundingTx sample_reveal "0xowner" "0xsender"
      (world_with (sample_deposit k DepositStatus.FINALIZED (Some "0xinit") (Some "0xfin") 0))
    = (Ok tt, w') /\
    stored w' k = Some d' /\ status d' = DepositStatus.QUEUED.
Proof.
  intros env.
  destruct (getDepositId env sample_hash 0) as [k|e] eqn:Hk; [|discriminate Hk].
  destruct (C1_duplicate_event_overwrites_status env
              (world_with (sample_deposit k DepositStatus.FINALIZED
                             (Some "0xinit") (Some "0xfin") 0))
              sample_fundingTx sample_reveal "0xowner" "0xsender" k
              (sample_deposit k DepositStatus.FINALIZED (Some "0xinit") (Some "0xfin") 0)
              (revert "Deposit already initialized") Hk
              (stored_world_with _) (fun _ => eq_refl))
    as (d' & w' & Hrun & Hst & Hs & _).
  exists k, d', w'. repeat split; assumption.
Defined.

(** ** The status read from the chain *)

Lemma checkDepositStatus_throw env k w e :
  deposits_at env (tick w) k = Throw e ->
  checkDepositStatus env k w
  = (Ok 0, {| store := store w;
              trace := EvLog e :: EvDeposits k :: trace w;
              tick := S (tick w) |}).
Proof.
  intros H. unfold checkDepositStatus, try_catch, call, bind, record, ask, lift.
  cbn. rewrite H. reflexivity.
Qed.

(** C8 fails on the code. [checkDepositStatus] never returns [null]: when
    the contract cannot be read it logs the error and returns [0], which is
    [QUEUED]; a number outside the enumeration is returned as it is; and
    [processInitializeDeposits] acts on a failed read as on QUEUED, with an
    initialize attempt. *)
Theorem C8_failed_read_is_reported_as_QUEUED env k w :
  (forall e, deposits_at env (tick w) k = Throw e ->
     exists w', checkDepositStatus env k w = (Ok DepositStatus.QUEUED, w') /\
                EvLog e ∈ trace w') /\
  (forall z, deposits_at env (tick w) k = Ok z ->
     exists w', checkDepositStatus env k w = (Ok z, w')) /\
  (forall d e, deposits_at env (S (tick w)) (id d) = Throw e ->
     EvCallStaticInitialize (id d) ∈ trace (processInitializeDeposit env d w).2).
Proof.
  split; [|split].
  - intros e H. rewrite (checkDepositStatus_throw env k w e H).
    eexists. split; [reflexivity|]. cbn. left.
  - intros z H. rewrite (checkDepositStatus_ok env k w z H). eexists. reflexivity.
  - intros d e H. unfold processInitializeDeposit, bind at 1.
    destruct (updateLastActivity_run env d w) as (u & Hrun & Hid & _). rewrite Hrun.
    unfold bind at 1. rewrite Hid.
    rewrite (checkDepositStatus_throw env (id d) _ e) by exact H.
    cbn [Z.eqb DepositStatus.INITIALIZED DepositStatus.QUEUED].
    match goal with
    | |- context [initializeDeposit env u ?w2] =>
        destruct (initializeDeposit_attempts env u w2) as (new & Hnew)
    end.
    rewrite Hnew, Hid. apply elem_of_app. right. left.
Qed.

Lemma C8_failed_read_witness :
  exists w',
    checkDepositStatus reverting_env "42" empty_world = (Ok DepositStatus.QUEUED, w') /\
    EvLog (Error "could not detect network") ∈ trace w'.
Proof.
  destruct (C8_failed_read_is_reported_as_QUEUED reverting_env "42" empty_world)
    as (Hfail & _ & _).
  exact (Hfail (Error "could not detect network") eq_refl).
Defined.

(** ** The scan for past deposits *)

(** C5 fails on the code of the EVM handler. For a past event whose derived
    deposit id already has a record, the service's [checkForPastDeposits]
    does nothing, but [EVMChainHandler.checkForPastDeposits] looks the event
    up under [fundingTx.transactionHash], finds no file, and attempts
    initialize again; when the pre-flight call reverts, the stored record is
    overwritten with a QUEUED record carrying the error. *)
Theorem C5_past_scan_misses_stored_record env w event k d :
  getDepositId env (getFundingTxHash env (ev_fundingTx event))
    (reveal0 (ev_reveal event)) = Ok k ->
  stored w k = Some d ->
  stored w (transactionHash_key (ev_fundingTx event)) = None ->
  servicePastEvent env event w = (Ok tt, w) /\
  (exists w', processPastEvent env event w = (Ok tt, w') /\
              EvCallStaticInitialize k ∈ trace w') /\
  (forall e,
     (forall ev, callStatic_initializeDeposit_at env (4 + tick w) ev = Throw e) ->
     exists d' w',
       processPastEvent env event w = (Ok tt, w') /\
       stored w' k = Some d' /\
       status d' = DepositStatus.QUEUED /\ error d' = Some (reason_or_unknown e)).
Proof.
  intros Hk Hd Hmiss.
  assert (Hstart : exists d1,
            id d1 = k /\ status d1 = DepositStatus.QUEUED /\
            processPastEvent env event w
            = initializeDeposit env d1
                {| store := store w; trace := trace w;
                   tick := S (S (S (S (tick w)))) |}).
  { unfold processPastEvent, bind at 1, getJsonById. fold (stored w (transactionHash_key (ev_fundingTx event))).
    rewrite Hmiss. unfold bind at 1.
    destruct (createDeposit_run env (ev_fundingTx event) (ev_reveal event)
                (ev_l2DepositOwner event) (ev_l2Sender event) w)
      as [(e0 & He & _)|(k' & d1 & Hk' & Hrun & Hid & Hs & _)]; [congruence|].
    rewrite Hrun. exists d1. split; [congruence|]. split; [exact Hs|].
    unfold bind at 1.
    rewrite (writeNewJsonDeposit_exists env _ _ _ _
               {| store := store w; trace := trace w; tick := S (S (tick w)) |}
               k d Hk Hd).
    reflexivity. }
  destruct Hstart as (d1 & Hid & Hs & Hrun).
  split; [|split].
  - unfold servicePastEvent, bind at 1, lift. rewrite Hk.
    unfold bind, getJsonById. fold (stored w k). rewrite Hd. reflexivity.
  - rewrite Hrun.
    match goal with
    | |- context [initializeDeposit env d1 ?w2] =>
        destruct (initializeDeposit_attempts env d1 w2) as (new & Hnew);
        destruct (safe_initializeDeposit env d1 w2) as [[] Hok];
        destruct (initializeDeposit env d1 w2) as [r w'] eqn:Hinit
    end.
    cbn in Hok, Hnew. subst r. exists w'. split; [reflexivity|].
    rewrite Hnew, Hid. apply elem_of_app. right. left.
  - intros e Hpre. rewrite Hrun.
    match goal with
    | |- context [initializeDeposit env d1 ?w2] =>
        destruct (initializeDeposit_preflight_revert env d1 w2 e (Hpre _))
          as (d' & w' & Hinit & _ & Hst & Hs' & Herr)
    end.
    rewrite Hinit. exists d', w'. rewrite Hid in Hst. rewrite Hs in Hs'.
    repeat split; assumption.
Qed.

Lemma C5_past_scan_witness :
  let env := with_l1 sample_env (fun _ _ => Ok DepositStatus.INITIALIZED)
               (fun _ _ => Throw (revert "Deposit already initialized")) in
  exists k d' w',
    getDepositId env sample_hash 0 = Ok k /\
    processPastEvent env sample_event
      (world_with (sample_deposit k DepositStatus.INITIALIZED (Some "0xinit") None 0))
    = (Ok tt, w') /\
    stored w' k = Some d' /\
    status d' = DepositStatus.QUEUED /\ error d' = Some "Deposit already initialized".
Proof.
  intros env.
  destruct (getDepositId env sample_hash 0) as [k|e] eqn:Hk; [|discriminate Hk].
  assert (Hne : k <> "undefined").
  { intros ->. revert Hk. vm_compute. discriminate. }
  destruct (C5_past_scan_misses_stored_record env
              (world_with (sample_deposit k DepositStatus.INITIALIZED
                             (Some "0xinit") None 0))
              sample_event k
              (sample_deposit k DepositStatus.INITIALIZED (Some "0xinit") None 0)
              Hk (stored_world_with _))
    as (_ & _ & Hover).
  { apply stored_world_with_ne. cbn. congruence. }
  destruct (Hover (revert "Deposit already initialized") (fun _ => eq_refl))
    as (d' & w' & Hrun & Hst & Hs & He).
  exists k, d', w'. repeat split; assumption.
Defined.

(** The whole scan on one past event whose deposit is stored as INITIALIZED,
    with a chain that rejects the second initialize: the EVM handler leaves
    the record QUEUED, the service leaves it INITIALIZED, and neither adds a
    file. *)
Example checkForPastDeposits_on_stored_deposit :
  let env := with_l2
               (with_l1 sample_env (fun _ _ => Ok DepositStatus.INITIALIZED)
                  (fun _ _ => Throw (revert "Deposit already initialized")))
               (fun _ _ => FetchNull) (fun _ _ _ => Ok [sample_event]) in
  match getDepositId env sample_hash 0 with
  | Ok k =>
      let w := world_with (sample_deposit k DepositStatus.INITIALIZED (Some "0xinit") None 0) in
      let evm := (checkForPastDeposits env 10 100 w).2 in
      let service := (service_checkForPastDeposits env 10 100 w).2 in
      option_map status (stored evm k) = Some DepositStatus.QUEUED /\
      option_map status (stored service k) = Some DepositStatus.INITIALIZED /\
      size (store evm) = 1%nat /\ size (store service) = 1%nat
  | Throw _ => False
  end.
Proof. vm_compute. repeat split. Qed.

Lemma safe_checkForPastDeposits env pastTimeInMinutes latestBlock :
  safe (checkForPastDeposits env pastTimeInMinutes latestBlock).
Proof. apply safe_try_catch. intros e. apply safe_LogError. Qed.

(** A past event whose deposit is unknown: one QUEUED record is filed under
    the derived id and initialize is attempted with the record built from
    the event. *)
Lemma processPastEvent_unknown env w event k :
  getDepositId env (getFundingTxHash env (ev_fundingTx event))
    (reveal0 (ev_reveal event)) = Ok k ->
  stored w k = None ->
  stored w (transactionHash_key (ev_fundingTx event)) = None ->
  exists d1 d2 w1,
    id d1 = k /\ status d1 = DepositStatus.QUEUED /\
    id d2 = k /\ status d2 = DepositStatus.QUEUED /\
    store w1 = <[k := Parsed d2]> (store w) /\
    trace w1 = EvWriteJson k :: trace w /\
    processPastEvent env event w = initializeDeposit env d1 w1.
Proof.
  intros Hk Hd Hmiss.
  unfold processPastEvent, bind at 1, getJsonById.
  fold (stored w (transactionHash_key (ev_fundingTx event))).
  rewrite Hmiss. unfold bind at 1.
  destruct (createDeposit_run env (ev_fundingTx event) (ev_reveal event)
              (ev_l2DepositOwner event) (ev_l2Sender event) w)
    as [(e0 & He & _)|(k' & d1 & Hk' & Hrun & Hid & Hs & _)]; [congruence|].
  rewrite Hrun. unfold bind at 1.
  destruct (writeNewJsonDeposit_new env (ev_fundingTx event) (ev_reveal event)
              (ev_l2DepositOwner event) (ev_l2Sender event)
              {| store := store w; trace := trace w; tick := S (S (tick w)) |}
              k Hk Hd) as (d2 & Hwrite & Hid2 & Hs2).
  rewrite Hwrite. eexists d1, d2, _.
  split; [congruence|]. split; [exact Hs|]. split; [exact Hid2|]. split; [exact Hs2|].
  split; [|split; [|reflexivity]]; reflexivity.
Qed.

(** ** The search on a chain with non-decreasing timestamps *)

Section MonotoneChain.
Variable ts : Z -> Z.
Variable timestamp : Z.
Hypothesis ts_monotone : forall a b, a <= b -> ts a <= ts b.

(** When every block exists and timestamps do not decrease, the loop ends
    with its initial value only if every block of the interval is later than
    the target; otherwise it ends with a block that is not later than the
    target and is the exact hit or the last such block of the interval. *)
Lemma binarySearch_greatest_lower_bound fuel : forall low high startBlock,
  (search_fuel low high <= fuel)%nat ->
  exists r,
    binarySearch (fun n => FetchBlock (ts n)) timestamp fuel low high startBlock
    = Finished r /\
    ((r = startBlock /\ forall n, low <= n <= high -> timestamp < ts n) \/
     (low <= r <= high /\ ts r <= timestamp /\
      (ts r = timestamp \/ forall n, r < n <= high -> timestamp < ts n))).
Proof.
  unfold search_fuel.
  induction fuel as [|fuel IH]; intros low high sb Hfuel; cbn [binarySearch];
    destruct (Z.leb_spec low high) as [Hle|Hgt]; try lia.
  - exists sb. split; [reflexivity|]. left. split; [reflexivity|]. intros; lia.
  - assert (Hmid : low <= (low + high) / 2 <= high) by (Z.div_mod_to_equations; lia).
    set (mid := (low + high) / 2) in *.
    destruct (Z.eqb_spec (ts mid) timestamp) as [Heq|Hne].
    + exists mid. split; [reflexivity|]. right.
      split; [lia|]. split; [lia|]. left. exact Heq.
    + destruct (Z.ltb_spec (ts mid) timestamp) as [Hlt|Hge].
      * destruct (IH (mid + 1) high mid ltac:(lia)) as (r & Hrun & [[-> Hall]|Hr]).
        -- exists mid. split; [exact Hrun|]. right.
           split; [lia|]. split; [lia|].
           right. intros n Hn. apply Hall. lia.
        -- exists r. split; [exact Hrun|]. right.
           destruct Hr as (Hrange & Hts & Hlast).
           split; [lia|]. split; [lia|]. exact Hlast.
      * destruct (IH low (mid - 1) sb ltac:(lia)) as (r & Hrun & [[-> Hall]|Hr]).
        -- exists sb. split; [exact Hrun|]. left. split; [reflexivity|].
           intros n Hn. destruct (Z.le_gt_cases n (mid - 1)) as [Hn'|Hn'].
           ++ apply Hall. lia.
           ++ pose proof (ts_monotone mid n ltac:(lia)). lia.
        -- exists r. split; [exact Hrun|]. right.
           destruct Hr as (Hrange & Hts & [Hhit|Hlast]);
             (split; [lia|]); (split; [lia|]).
           ++ left. exact Hhit.
           ++ right. intros n Hn. destruct (Z.le_gt_cases n (mid - 1)) as [Hn'|Hn'].
              ** apply Hlast. lia.
              ** pose proof (ts_monotone mid n ltac:(lia)). lia.
  - exists sb. split; [reflexivity|]. left. split; [reflexivity|]. intros; lia.
Qed.
End MonotoneChain.

(** ** Records stay filed under their ids *)

Section KeepsWf.
Context {A B : Type}.

Lemma keeps_wf_same_store (m : M A) :
  (forall w, store (m w).2 = store w) -> keeps_wf m.
Proof. intros H w Hwf k d. rewrite H. apply Hwf. Qed.

Lemma keeps_wf_bind_with (P : A -> Prop) (m : M A) (f : A -> M B) :
  keeps_wf m -> (forall w a, (m w).1 = Ok a -> P a) ->
  (forall a, P a -> keeps_wf (f a)) -> keeps_wf (bind m f).
Proof.
  intros Hm HP Hf w Hwf. unfold bind.
  specialize (Hm w Hwf). specialize (HP w).
  destruct (m w) as [[a|e] w1]; cbn in *; [|exact Hm].
  apply (Hf a (HP a eq_refl)), Hm.
Qed.

Lemma keeps_wf_bind (m : M A) (f : A -> M B) :
  keeps_wf m -> (forall a, keeps_wf (f a)) -> keeps_wf (bind m f).
Proof. intros Hm Hf. apply (keeps_wf_bind_with (fun _ => True)); auto. Qed.

Lemma keeps_wf_try_catch (m : M A) (h : JsError -> M A) :
  keeps_wf m -> (forall e, keeps_wf (h e)) -> keeps_wf (try_catch m h).
Proof.
  intros Hm Hh w Hwf. unfold try_catch. specialize (Hm w Hwf).
  destruct (m w) as [[a|e] w1]; cbn in *; [exact Hm|]. apply Hh, Hm.
Qed.
End KeepsWf.

Lemma keeps_wf_call {A} ev (answer : nat -> Result A) : keeps_wf (call ev answer).
Proof.
  apply keeps_wf_same_store. intros w.
  unfold call, bind, record, ask, lift. cbn. reflexivity.
Qed.

Lemma keeps_wf_writeJson d : keeps_wf (writeJson d (id d)).
Proof.
  intros w Hwf k d0. unfold writeJson. cbn [snd store]. rewrite lookup_insert.
  destruct (decide (id d = k)) as [<-|Hne]; [intros [= <-]; reflexivity|apply Hwf].
Qed.

Lemma keeps_wf_updateToInitializedDeposit env d tx err :
  keeps_wf (updateToInitializedDeposit env d tx err).
Proof.
  intros w Hwf.
  destruct (updateToInitializedDeposit_run env d tx err w) as (d' & n & H & _ & Hid & _).
  rewrite H. intros k d0. cbn [snd store]. rewrite lookup_insert.
  destruct (decide (id d = k)) as [<-|Hne]; [intros [= <-]; exact Hid|apply Hwf].
Qed.

Lemma keeps_wf_updateToFinalizedDeposit env d tx err :
  keeps_wf (updateToFinalizedDeposit env d tx err).
Proof.
  intros w Hwf.
  destruct (updateToFinalizedDeposit_run env d tx err w) as (d' & n & H & _ & Hid & _).
  rewrite H. intros k d0. cbn [snd store]. rewrite lookup_insert.
  destruct (decide (id d = k)) as [<-|Hne]; [intros [= <-]; exact Hid|apply Hwf].
Qed.

Lemma keeps_wf_updateLastActivity env d : keeps_wf (updateLastActivity env d).
Proof.
  intros w Hwf. destruct (updateLastActivity_run env d w) as (d' & H & Hid & _).
  rewrite H. intros k d0. cbn [snd store]. rewrite lookup_insert.
  destruct (decide (id d = k)) as [<-|Hne]; [intros [= <-]; exact Hid|apply Hwf].
Qed.

Lemma keeps_wf_LogError e : keeps_wf (LogError e).
Proof. apply keeps_wf_same_store. reflexivity. Qed.

Lemma keeps_wf_ret {A} (a : A) : keeps_wf (ret a).
Proof. apply keeps_wf_same_store. reflexivity. Qed.

Lemma keeps_wf_initializeDeposit env d : keeps_wf (initializeDeposit env d).
Proof.
  apply keeps_wf_try_catch.
  - apply keeps_wf_bind; [apply keeps_wf_call|]. intros _.
    apply keeps_wf_bind; [apply keeps_wf_call|]. intros nonce.
    apply keeps_wf_bind; [apply keeps_wf_call|]. intros tx.
    apply keeps_wf_bind; [apply keeps_wf_call|]. intros _.
    apply keeps_wf_updateToInitializedDeposit.
  - intros e. apply keeps_wf_bind; [apply keeps_wf_LogError|]. intros _.
    apply keeps_wf_updateToInitializedDeposit.
Qed.

Lemma keeps_wf_finalizeDeposit env d : keeps_wf (finalizeDeposit env d).
Proof.
  apply keeps_wf_try_catch.
  - apply keeps_wf_bind; [apply keeps_wf_call|]. intros v.
    apply keeps_wf_bind; [apply keeps_wf_call|]. intros nonce.
    apply keeps_wf_bind; [apply keeps_wf_call|]. intros tx.
    apply keeps_wf_bind; [apply keeps_wf_call|]. intros _.
    apply keeps_wf_updateToFinalizedDeposit.
  - intros e. apply keeps_wf_bind; [apply keeps_wf_LogError|]. intros _.
    apply keeps_wf_updateToFinalizedDeposit.
Qed.

Lemma keeps_wf_checkDepositStatus env k : keeps_wf (checkDepositStatus env k).
Proof.
  apply keeps_wf_try_catch; [apply keeps_wf_call|].
  intros e. apply keeps_wf_bind; [apply keeps_wf_LogError|]. intros _.
  apply keeps_wf_ret.
Qed.

Lemma keeps_wf_processInitializeDeposit env d :
  keeps_wf (processInitializeDeposit env d).
Proof.
  unfold processInitializeDeposit.
  apply keeps_wf_bind; [apply keeps_wf_updateLastActivity|]. intros u.
  apply keeps_wf_bind; [apply keeps_wf_checkDepositStatus|]. intros z.
  repeat match goal with |- context [if ?b then _ else _] => destruct b end;
    auto using keeps_wf_updateToInitializedDeposit, keeps_wf_updateToFinalizedDeposit,
      keeps_wf_initializeDeposit, keeps_wf_ret.
Qed.

Lemma keeps_wf_processFinalizeDeposit env d :
  keeps_wf (processFinalizeDeposit env d).
Proof.
  unfold processFinalizeDeposit.
  apply keeps_wf_bind; [apply keeps_wf_updateLastActivity|]. intros u.
  apply keeps_wf_bind; [apply keeps_wf_checkDepositStatus|]. intros z.
  repeat match goal with |- context [if ?b then _ else _] => destruct b end;
    auto using keeps_wf_updateToFinalizedDeposit, keeps_wf_finalizeDeposit,
      keeps_wf_ret.
Qed.

Lemma keeps_wf_for_of {A} (f : A -> M unit) l :
  (forall x, keeps_wf (f x)) -> keeps_wf (for_of l f).
Proof.
  intros Hf. induction l as [|x l IH]; [apply keeps_wf_ret|].
  cbn [for_of]. apply keeps_wf_bind; [apply Hf|]. intros _. exact IH.
Qed.

(** The loop of a pass, the vault callback and the L2 event callback keep
    every record filed under its id. *)
Lemma after_listing_keeps_wf env (body : Deposit -> M unit) deposits :
  (forall x, keeps_wf (body x)) -> keeps_wf (after_listing env body deposits).
Proof.
  intros Hbody w Hwf.
  destruct (after_listing_run env body deposits w) as (w0 & Hst & _ & _ & Hrun).
  rewrite Hrun. apply keeps_wf_for_of; [exact Hbody|].
  intros k d. rewrite Hst. apply Hwf.
Qed.

Lemma onOptimisticMintingFinalized_keeps_wf env depositKey :
  keeps_wf (onOptimisticMintingFinalized env depositKey).
Proof.
  apply keeps_wf_try_catch; [|intros e; apply keeps_wf_LogError].
  apply keeps_wf_bind; [apply keeps_wf_same_store; reflexivity|].
  intros [d|]; [apply keeps_wf_finalizeDeposit|apply keeps_wf_ret].
Qed.

Lemma keeps_wf_createDeposit env ftx rv o s : keeps_wf (createDeposit env ftx rv o s).
Proof.
  apply keeps_wf_same_store. intros w.
  destruct (createDeposit_run env ftx rv o s w)
    as [(e & _ & Hrun)|(k & d & _ & Hrun & _)]; rewrite Hrun; reflexivity.
Qed.

Lemma keeps_wf_writeNewJsonDeposit env ftx rv o s :
  keeps_wf (writeNewJsonDeposit env ftx rv o s).
Proof.
  unfold writeNewJsonDeposit.
  apply keeps_wf_bind; [apply keeps_wf_createDeposit|]. intros d.
  apply keeps_wf_bind; [apply keeps_wf_same_store; reflexivity|].
  intros [|]; [apply keeps_wf_ret|].
  apply keeps_wf_bind; [apply keeps_wf_writeJson|]. intros _. apply keeps_wf_ret.
Qed.

Lemma onDepositInitialized_keeps_wf env ftx rv o s :
  keeps_wf (onDepositInitialized env ftx rv o s).
Proof.
  apply keeps_wf_try_catch; [|intros e; apply keeps_wf_LogError].
  apply keeps_wf_bind; [apply keeps_wf_createDeposit|]. intros d.
  apply keeps_wf_bind; [apply keeps_wf_writeNewJsonDeposit|]. intros _.
  apply keeps_wf_initializeDeposit.
Qed.

(** ** The happy path, run *)

(** One L2 event on an empty store with a chain that accepts every call, then
    the vault event for the same deposit: the record is INITIALIZED with its
    initialize hash after the first, FINALIZED with both hashes after the
    second. *)
Example happy_path :
  match bytes_of_hex sample_hash with
  | Some bytes32 =>
      let depositKey := uint_of_bytes (sample_digest (bytes32 ++ uint32_be 0)%list) in
      let k := BigNumber_toString depositKey in
      let w1 := (onDepositInitialized sample_env sample_fundingTx sample_reveal
                   "0xowner" "0xsender" empty_world).2 in
      let w2 := (onOptimisticMintingFinalized sample_env depositKey w1).2 in
      option_map (fun d => (status d, eth (hashes d))) (stored w1 k)
      = Some (DepositStatus.INITIALIZED,
              {| initializeTxHash := Some "0xinit"; finalizeTxHash := None |}) /\
      option_map (fun d => (status d, eth (hashes d))) (stored w2 k)
      = Some (DepositStatus.FINALIZED,
              {| initializeTxHash := Some "0xinit"; finalizeTxHash := Some "0xfin" |}) /\
      size (store w2) = 1%nat
  | None => False
  end.
Proof. vm_compute. repeat split. Qed.

(** * Further statements *)

(** ** The store *)



Lemma length_omap_le {A B} (f : A -> option B) (l : list A) :
  (length (omap f l) <= length l)%nat.
Proof.
  induction l as [|x l IH]; [reflexivity|].
  cbn. destruct (f x); cbn; lia.
Qed.

Lemma length_listing (files : list (string * File)) :
  (length (omap (fun file => parsed file.2) files)
   + length (omap invalid_json_log files))%nat = length files.
Proof.
  induction files as [|[k f] files IH]; [reflexivity|].
  cbn [omap list_omap]. unfold invalid_json_log at 1. cbn [fst snd parsed].
  destruct f; cbn [parsed length] in *; lia.
Qed.

(** X3. [getAllJsonOperations] reads the [.json] files of the data directory
    (the file of every key but the empty one and those that lead into a
    folder): it returns exactly the records of those that parse, and logs
    one line for each that does not; the store is left as it is; records
    and log lines together are at most as many as there are files; and no
    id is listed twice when every record is filed under its own id. *)
Theorem getAllJsonOperations_lists_parsed (w : World) :
  exists l logs,
    getAllJsonOperations w
    = (Ok l, {| store := store w; trace := (logs ++ trace w)%list; tick := tick w |}) /\
    (forall d, d ∈ l <-> exists k, listed k = true /\ store w !! k = Some (Parsed d)) /\
    (forall ev, ev ∈ logs <->
       exists k, listed k = true /\ store w !! k = Some Corrupt /\
                 ev = EvLog (invalid_json_file k)) /\
    (length l + length logs <= size (store w))%nat /\
    (store_wf w -> NoDup (id <$> l)).
Proof.
  exists (records (store w)), (invalid_json_logs (store w)).
  split; [reflexivity|]. split; [apply records_elem|].
  split; [apply invalid_json_logs_elem|]. split; [|apply records_NoDup].
  unfold records, invalid_json_logs. rewrite length_reverse, length_listing.
  unfold json_files. rewrite <- length_map_to_list. apply length_filter.
Qed.

Lemma getAllJsonOperations_lists_parsed_witness :
  let d := sample_deposit "42" DepositStatus.QUEUED None None 0 in
  let w := {| store := <["bad" := Corrupt]> (<[EmptyString := Parsed d]>
                                               {[ "42" := Parsed d ]});
              trace := []; tick := 0 |} in
  exists l,
    (getAllJsonOperations w).1 = Ok l /\ d ∈ l /\
    EvLog (invalid_json_file "bad") ∈ trace (getAllJsonOperations w).2 /\
    (length l <= 2)%nat.
Proof.
  intros d w.
  destruct (getAllJsonOperations_lists_parsed w)
    as (l & logs & Hrun & Hl & Hlogs & Hlen & _).
  exists l. rewrite Hrun. cbn [fst snd trace]. split; [reflexivity|]. split; [|split].
  - apply Hl. exists "42". split; reflexivity.
  - apply elem_of_app. left. apply Hlogs. exists "bad". repeat split; reflexivity.
  - assert (Hbad : EvLog (invalid_json_file "bad") ∈ logs).
    { apply Hlogs. exists "bad". repeat split; reflexivity. }
    apply list_elem_of_split in Hbad as (l1 & l2 & ->).
    rewrite length_app in Hlen. cbn [length] in Hlen.
    change (size (store w)) with 3%nat in Hlen. lia.
Defined.

(** ** The record updates, field by field *)

Lemma updateToInitializedDeposit_full env d tx err w :
  exists d',
    updateToInitializedDeposit env d tx err w
    = (Ok tt, {| store := <[id d := Parsed d']> (store w);
                 trace := EvWriteJson (id d) :: trace w;
                 tick := S (if truthy_tx tx then S (tick w) else tick w) |}) /\
    same_identity d d' /\
    status d' = (if truthy_tx tx then DepositStatus.INITIALIZED else status d) /\
    initializeTxHash (eth (hashes d'))
    = (if truthy_tx tx then hash_or_null tx else initializeTxHash (eth (hashes d))) /\
    finalizeTxHash (eth (hashes d')) = finalizeTxHash (eth (hashes d)) /\
    error d' = (if truthy err then err else None) /\
    initializationAt (dates d')
    = (if truthy_tx tx then Some (Date_now_at env (tick w))
       else initializationAt (dates d)) /\
    finalizationAt (dates d') = finalizationAt (dates d) /\
    lastActivityAt (dates d')
    = Date_now_at env (if truthy_tx tx then S (tick w) else tick w).
Proof.
  unfold updateToInitializedDeposit, same_identity.
  destruct (truthy_tx tx); cbn; eexists; (split; [reflexivity|]); cbn; repeat split.
Qed.

Lemma updateToFinalizedDeposit_full env d tx err w :
  exists d',
    updateToFinalizedDeposit env d tx err w
    = (Ok tt, {| store := <[id d := Parsed d']> (store w);
                 trace := EvWriteJson (id d) :: trace w;
                 tick := S (if truthy_tx tx then S (tick w) else tick w) |}) /\
    same_identity d d' /\
    status d' = (if truthy_tx tx then DepositStatus.FINALIZED else status d) /\
    initializeTxHash (eth (hashes d')) = initializeTxHash (eth (hashes d)) /\
    finalizeTxHash (eth (hashes d'))
    = (if truthy_tx tx then hash_or_null tx else finalizeTxHash (eth (hashes d))) /\
    error d' = (if truthy err then err else None) /\
    initializationAt (dates d') = initializationAt (dates d) /\
    finalizationAt (dates d')
    = (if truthy_tx tx then Some (Date_now_at env (tick w))
       else finalizationAt (dates d)) /\
    lastActivityAt (dates d')
    = Date_now_at env (if truthy_tx tx then S (tick w) else tick w).
Proof.
  unfold updateToFinalizedDeposit, same_identity.
  destruct (truthy_tx tx); cbn; eexists; (split; [reflexivity|]); cbn; repeat split.
Qed.

Lemma updateLastActivity_full env d w :
  exists d',
    updateLastActivity env d w
    = (Ok d', {| store := <[id d := Parsed d']> (store w);
                 trace := EvWriteJson (id d) :: trace w;
                 tick := S (tick w) |}) /\
    same_identity d d' /\
    status d' = status d /\ hashes d' = hashes d /\ error d' = error d /\
    initializationAt (dates d') = initializationAt (dates d) /\
    finalizationAt (dates d') = finalizationAt (dates d) /\
    lastActivityAt (dates d') = Date_now_at env (tick w).
Proof.
  unfold updateLastActivity, same_identity. cbn. eexists. split; [reflexivity|].
  cbn. repeat split.
Qed.

Lemma updateDepositStatus_full env d newStatus w :
  exists d',
    updateDepositStatus env d newStatus w
    = (Ok d', {| store := store w; trace := trace w; tick := S (tick w) |}) /\
    same_identity d d' /\
    status d' = newStatus /\ hashes d' = hashes d /\ error d' = error d /\
    initializationAt (dates d') = initializationAt (dates d) /\
    finalizationAt (dates d') = finalizationAt (dates d) /\
    lastActivityAt (dates d') = Date_now_at env (tick w).
Proof.
  unfold updateDepositStatus, same_identity. cbn. eexists. split; [reflexivity|].
  cbn. repeat split.
Qed.

Lemma updateDepositHashes_full env d newStatus txHash txType w :
  exists d',
    updateDepositHashes env d newStatus txHash txType w
    = (Ok d', {| store := store w; trace := trace w; tick := S (S (tick w)) |}) /\
    same_identity d d' /\
    status d' = newStatus /\ error d' = None /\
    lastActivityAt (dates d') = Date_now_at env (S (tick w)) /\
    match txType with
    | initialize =>
        initializeTxHash (eth (hashes d')) = Some txHash /\
        finalizeTxHash (eth (hashes d')) = finalizeTxHash (eth (hashes d)) /\
        initializationAt (dates d') = Some (Date_now_at env (tick w)) /\
        finalizationAt (dates d') = finalizationAt (dates d)
    | finalize =>
        finalizeTxHash (eth (hashes d')) = Some txHash /\
        initializeTxHash (eth (hashes d')) = initializeTxHash (eth (hashes d)) /\
        finalizationAt (dates d') = Some (Date_now_at env (tick w)) /\
        initializationAt (dates d') = initializationAt (dates d)
    end.
Proof.
  unfold updateDepositHashes, same_identity. cbn. eexists. split; [reflexivity|].
  destruct txType; cbn; repeat split.
Qed.

Lemma same_identity_refl d : same_identity d d.
Proof. unfold same_identity. repeat split. Qed.

Lemma same_identity_trans d1 d2 d3 :
  same_identity d1 d2 -> same_identity d2 d3 -> same_identity d1 d3.
Proof.
  unfold same_identity. intros (?&?&?&?&?&?&?&?) (?&?&?&?&?&?&?&?).
  repeat split; congruence.
Qed.

(** X4. No update of utils/Deposits.ts changes what identifies a deposit:
    the id, the funding hash and output index, the receipt, the owner, the
    L1 output event, the Bitcoin hash and the creation time of the record
    written or returned are those of the input. [updateLastActivity] also
    keeps status, hashes and error; [updateDepositStatus] keeps hashes and
    error; and the two functions that return the record
    ([updateDepositStatus], [updateDepositHashes]) do not persist it. *)
Theorem updates_keep_identity env d w :
  (forall tx err, exists d',
     stored (updateToInitializedDeposit env d tx err w).2 (id d) = Some d' /\
     same_identity d d') /\
  (forall tx err, exists d',
     stored (updateToFinalizedDeposit env d tx err w).2 (id d) = Some d' /\
     same_identity d d') /\
  (exists d',
     (updateLastActivity env d w).1 = Ok d' /\
     stored (updateLastActivity env d w).2 (id d) = Some d' /\
     same_identity d d' /\
     status d' = status d /\ hashes d' = hashes d /\ error d' = error d) /\
  (forall newStatus, exists d',
     (updateDepositStatus env d newStatus w).1 = Ok d' /\
     same_identity d d' /\ status d' = newStatus /\
     hashes d' = hashes d /\ error d' = error d /\
     store (updateDepositStatus env d newStatus w).2 = store w /\
     trace (updateDepositStatus env d newStatus w).2 = trace w) /\
  (forall newStatus txHash txType, exists d',
     (updateDepositHashes env d newStatus txHash txType w).1 = Ok d' /\
     same_identity d d' /\ status d' = newStatus /\ error d' = None /\
     store (updateDepositHashes env d newStatus txHash txType w).2 = store w /\
     trace (updateDepositHashes env d newStatus txHash txType w).2 = trace w).
Proof.
  split; [|split; [|split; [|split]]].
  - intros tx err.
    destruct (updateToInitializedDeposit_full env d tx err w) as (d' & Hrun & Hid & _).
    exists d'. rewrite Hrun. split; [apply stored_insert|exact Hid].
  - intros tx err.
    destruct (updateToFinalizedDeposit_full env d tx err w) as (d' & Hrun & Hid & _).
    exists d'. rewrite Hrun. split; [apply stored_insert|exact Hid].
  - destruct (updateLastActivity_full env d w) as (d' & Hrun & Hid & Hs & Hh & He & _).
    exists d'. rewrite Hrun. split; [reflexivity|]. split; [apply stored_insert|].
    split; [exact Hid|]. repeat split; assumption.
  - intros newStatus.
    destruct (updateDepositStatus_full env d newStatus w)
      as (d' & Hrun & Hid & Hs & Hh & He & _).
    exists d'. rewrite Hrun. split; [reflexivity|]. split; [exact Hid|].
    repeat split; assumption.
  - intros newStatus txHash txType.
    destruct (updateDepositHashes_full env d newStatus txHash txType w)
      as (d' & Hrun & Hid & Hs & He & _).
    exists d'. rewrite Hrun. split; [reflexivity|]. split; [exact Hid|].
    repeat split; assumption.
Qed.

(** X5. With a clock that never goes back, every update leaves a
    [lastActivityAt] that is at least the clock at the start of the call; so
    for a record whose [lastActivityAt] is not in the future, no update
    decreases it. *)
Theorem updates_bump_lastActivity env d w :
  clock_monotone env ->
  lastActivityAt (dates d) <= Date_now_at env (tick w) ->
  (forall tx err, exists d',
     stored (updateToInitializedDeposit env d tx err w).2 (id d) = Some d' /\
     Date_now_at env (tick w) <= lastActivityAt (dates d') /\
     lastActivityAt (dates d) <= lastActivityAt (dates d')) /\
  (forall tx err, exists d',
     stored (updateToFinalizedDeposit env d tx err w).2 (id d) = Some d' /\
     Date_now_at env (tick w) <= lastActivityAt (dates d') /\
     lastActivityAt (dates d) <= lastActivityAt (dates d')) /\
  (exists d',
     (updateLastActivity env d w).1 = Ok d' /\
     lastActivityAt (dates d') = Date_now_at env (tick w) /\
     lastActivityAt (dates d) <= lastActivityAt (dates d')) /\
  (forall newStatus, exists d',
     (updateDepositStatus env d newStatus w).1 = Ok d' /\
     lastActivityAt (dates d) <= lastActivityAt (dates d')) /\
  (forall newStatus txHash txType, exists d',
     (updateDepositHashes env d newStatus txHash txType w).1 = Ok d' /\
     lastActivityAt (dates d) <= lastActivityAt (dates d')).
Proof.
  intros Hclock Hpast.
  assert (Hnext : Date_now_at env (tick w) <= Date_now_at env (S (tick w))).
  { apply Hclock. lia. }
  split; [|split; [|split; [|split]]].
  - intros tx err.
    destruct (updateToInitializedDeposit_full env d tx err w)
      as (d' & Hrun & _ & _ & _ & _ & _ & _ & _ & Hla).
    exists d'. rewrite Hrun, Hla. split; [apply stored_insert|].
    destruct (truthy_tx tx); lia.
  - intros tx err.
    destruct (updateToFinalizedDeposit_full env d tx err w)
      as (d' & Hrun & _ & _ & _ & _ & _ & _ & _ & Hla).
    exists d'. rewrite Hrun, Hla. split; [apply stored_insert|].
    destruct (truthy_tx tx); lia.
  - destruct (updateLastActivity_full env d w)
      as (d' & Hrun & _ & _ & _ & _ & _ & _ & Hla).
    exists d'. rewrite Hrun, Hla. repeat split; first [reflexivity|lia].
  - intros newStatus.
    destruct (updateDepositStatus_full env d newStatus w)
      as (d' & Hrun & _ & _ & _ & _ & _ & _ & Hla).
    exists d'. rewrite Hrun, Hla. split; [reflexivity|lia].
  - intros newStatus txHash txType.
    destruct (updateDepositHashes_full env d newStatus txHash txType w)
      as (d' & Hrun & _ & _ & _ & Hla & _).
    exists d'. rewrite Hrun, Hla. split; [reflexivity|lia].
Qed.

Lemma sample_clock_monotone : clock_monotone sample_env.
Proof. intros n m Hnm. cbn. lia. Qed.

Lemma updates_bump_lastActivity_witness :
  let d := sample_deposit "42" DepositStatus.QUEUED None None 1699999999000 in
  exists d',
    stored (updateToInitializedDeposit sample_env d TxNull (Some "bad reveal")
              (world_with d)).2 "42" = Some d' /\
    1699999999000 <= lastActivityAt (dates d').
Proof.
  intros d.
  destruct (updates_bump_lastActivity sample_env d (world_with d) sample_clock_monotone)
    as (Hinit & _).
  { vm_compute. discriminate. }
  destruct (Hinit TxNull (Some "bad reveal")) as (d' & Hst & _ & Hle).
  exists d'. split; assumption.
Defined.

(** ** Every outcome of initializeDeposit and finalizeDeposit *)

(** One external call of a [try] block: the entry is added to the trace and
    the answer of the current tick is taken. *)
Ltac step_call :=
  unfold bind at 1, call at 1, bind at 1, record at 1;
  unfold bind at 1, ask at 1, lift at 1;
  cbn [tick trace store].

Lemma initialize_attempt_cases env d t :
  (exists e, initialize_fails env d t e) \/
  (exists nonce tx,
     callStatic_initializeDeposit_at env t (L1OutputEvent d) = Ok tt /\
     getTransactionCount_at env (S t) = Ok nonce /\
     send_initializeDeposit_at env (S (S t)) (L1OutputEvent d) nonce = Ok tx /\
     wait_at env (S (S (S t))) tx = Ok tt).
Proof.
  destruct (callStatic_initializeDeposit_at env t (L1OutputEvent d)) as [[]|e] eqn:H0;
    [|left; exists e; apply initialize_preflight_reverts; exact H0].
  destruct (getTransactionCount_at env (S t)) as [nonce|e] eqn:H1;
    [|left; exists e; apply initialize_nonce_fails; assumption].
  destruct (send_initializeDeposit_at env (S (S t)) (L1OutputEvent d) nonce)
    as [tx|e] eqn:H2;
    [|left; exists e; eapply initialize_send_fails; eassumption].
  destruct (wait_at env (S (S (S t))) tx) as [[]|e] eqn:H3;
    [|left; exists e; eapply initialize_mined_with_revert; eassumption].
  right. exists nonce, tx. repeat split; assumption.
Qed.

Lemma finalize_attempt_cases env d t :
  (exists e, finalize_fails env d t e) \/
  (exists v nonce tx,
     callStatic_finalizeDeposit_at env t (id d) = Ok v /\
     getTransactionCount_at env (S t) = Ok nonce /\
     send_finalizeDeposit_at env (S (S t)) (id d) (clamp_value v) nonce = Ok tx /\
     wait_at env (S (S (S t))) tx = Ok tt).
Proof.
  destruct (callStatic_finalizeDeposit_at env t (id d)) as [v|e] eqn:H0;
    [|left; exists e; apply finalize_preflight_reverts; exact H0].
  destruct (getTransactionCount_at env (S t)) as [nonce|e] eqn:H1;
    [|left; exists e; eapply finalize_nonce_fails; eassumption].
  destruct (send_finalizeDeposit_at env (S (S t)) (id d) (clamp_value v) nonce)
    as [tx|e] eqn:H2;
    [|left; exists e; eapply finalize_send_fails; eassumption].
  destruct (wait_at env (S (S (S t))) tx) as [[]|e] eqn:H3;
    [|left; exists e; eapply finalize_mined_with_revert; eassumption].
  right. exists v, nonce, tx. repeat split; assumption.
Qed.

(** The successful attempt, step by step. *)
Lemma initializeDeposit_success env d w nonce tx :
  callStatic_initializeDeposit_at env (tick w) (L1OutputEvent d) = Ok tt ->
  getTransactionCount_at env (S (tick w)) = Ok nonce ->
  send_initializeDeposit_at env (S (S (tick w))) (L1OutputEvent d) nonce = Ok tx ->
  wait_at env (S (S (S (tick w)))) tx = Ok tt ->
  exists d',
    initializeDeposit env d w
    = (Ok tt,
       {| store := <[id d := Parsed d']> (store w);
          trace := EvWriteJson (id d) :: EvWait tx :: EvSendInitialize (id d) nonce
                   :: EvGetTransactionCount :: EvCallStaticInitialize (id d) :: trace w;
          tick := 6 + tick w |}) /\
    same_identity d d' /\
    status d' = DepositStatus.INITIALIZED /\
    initializeTxHash (eth (hashes d')) = (if truthy_string tx then Some tx else None) /\
    finalizeTxHash (eth (hashes d')) = finalizeTxHash (eth (hashes d)) /\
    error d' = None /\
    initializationAt (dates d') = Some (Date_now_at env (4 + tick w)) /\
    finalizationAt (dates d') = finalizationAt (dates d) /\
    lastActivityAt (dates d') = Date_now_at env (5 + tick w).
Proof.
  intros H0 H1 H2 H3. unfold initializeDeposit, try_catch at 1.
  step_call. rewrite H0. step_call. rewrite H1. step_call. rewrite H2.
  step_call. rewrite H3.
  match goal with
  | |- context [updateToInitializedDeposit env d ?t None ?w2] =>
      destruct (updateToInitializedDeposit_full env d t None w2)
        as (d' & Hupd & Hid & Hs & Hi & Hf & Herr & Hia & Hfa & Hla)
  end.
  rewrite Hupd. cbn [store trace tick truthy_tx truthy] in *.
  exists d'. split; [reflexivity|].
  unfold hash_or_null in Hi. cbn [tx_hash truthy] in Hi.
  split; [exact Hid|]. repeat split; assumption.
Qed.

Lemma finalizeDeposit_success env d w v nonce tx :
  callStatic_finalizeDeposit_at env (tick w) (id d) = Ok v ->
  getTransactionCount_at env (S (tick w)) = Ok nonce ->
  send_finalizeDeposit_at env (S (S (tick w))) (id d) (clamp_value v) nonce = Ok tx ->
  wait_at env (S (S (S (tick w)))) tx = Ok tt ->
  exists d',
    finalizeDeposit env d w
    = (Ok tt,
       {| store := <[id d := Parsed d']> (store w);
          trace := EvWriteJson (id d) :: EvWait tx
                   :: EvSendFinalize (id d) (clamp_value v) nonce
                   :: EvGetTransactionCount :: EvCallStaticFinalize (id d) :: trace w;
          tick := 6 + tick w |}) /\
    same_identity d d' /\
    status d' = DepositStatus.FINALIZED /\
    initializeTxHash (eth (hashes d')) = initializeTxHash (eth (hashes d)) /\
    finalizeTxHash (eth (hashes d')) = (if truthy_string tx then Some tx else None) /\
    error d' = None /\
    initializationAt (dates d') = initializationAt (dates d) /\
    finalizationAt (dates d') = Some (Date_now_at env (4 + tick w)) /\
    lastActivityAt (dates d') = Date_now_at env (5 + tick w).
Proof.
  intros H0 H1 H2 H3. unfold clamp_value in H2.
  unfold finalizeDeposit, try_catch at 1.
  step_call. rewrite H0. cbv zeta. step_call. rewrite H1. step_call. rewrite H2.
  step_call. rewrite H3.
  match goal with
  | |- context [updateToFinalizedDeposit env d ?t None ?w2] =>
      destruct (updateToFinalizedDeposit_full env d t None w2)
        as (d' & Hupd & Hid & Hs & Hi & Hf & Herr & Hia & Hfa & Hla)
  end.
  rewrite Hupd. cbn [store trace tick truthy_tx truthy] in *.
  exists d'. split; [reflexivity|].
  unfold hash_or_null in Hf. cbn [tx_hash truthy] in Hf.
  split; [exact Hid|]. repeat split; assumption.
Qed.

(** The failed attempt, with what it added to the trace. *)
Lemma initializeDeposit_failure env d w e :
  initialize_fails env d (tick w) e ->
  exists d' w' new,
    initializeDeposit env d w = (Ok tt, w') /\
    trace w' = (EvWriteJson (id d) :: EvLog e :: new ++ trace w)%list /\
    store w' = <[id d := Parsed d']> (store w) /\
    (tick w < tick w')%nat /\
    same_identity d d' /\
    status d' = status d /\
    initializeTxHash (eth (hashes d')) = initializeTxHash (eth (hashes d)) /\
    finalizeTxHash (eth (hashes d')) = finalizeTxHash (eth (hashes d)) /\
    error d' = Some (reason_or_unknown e) /\
    (exists n, (tick w < n)%nat /\ lastActivityAt (dates d') = Date_now_at env n) /\
    writes new = [] /\ (sends new <= 1)%nat /\
    (sends new = 1%nat ->
     callStatic_initializeDeposit_at env (tick w) (L1OutputEvent d) = Ok tt).
Proof.
  intros Hf.
  assert (Hstart : exists w1 new,
            initializeDeposit env d w
            = (LogError e >>
               updateToInitializedDeposit env d TxNull (Some (reason_or_unknown e))) w1 /\
            store w1 = store w /\ trace w1 = (new ++ trace w)%list /\
            (tick w < tick w1)%nat /\
            writes new = [] /\ (sends new <= 1)%nat /\
            (sends new = 1%nat ->
             callStatic_initializeDeposit_at env (tick w) (L1OutputEvent d) = Ok tt)).
  { unfold initializeDeposit, try_catch at 1. step_call.
    inversion Hf as [e0 H0|e0 H0 H1|nonce e0 H0 H1 H2|nonce tx e0 H0 H1 H2 H3]; subst e0.
    - rewrite H0. eexists _, [_]. split; [reflexivity|].
      cbn. repeat split; auto; discriminate.
    - rewrite H0. step_call. rewrite H1. eexists _, [_; _]. split; [reflexivity|].
      cbn. repeat split; auto; discriminate.
    - rewrite H0. step_call. rewrite H1. step_call. rewrite H2.
      eexists _, [_; _; _]. split; [reflexivity|]. cbn. repeat split; auto.
    - rewrite H0. step_call. rewrite H1. step_call. rewrite H2. step_call. rewrite H3.
      eexists _, [_; _; _; _]. split; [reflexivity|]. cbn. repeat split; auto. }
  destruct Hstart as (w1 & new & Hrun & Hst & Htr & Htk & Hwr & Hsn & Hpre).
  rewrite Hrun. unfold bind at 1, LogError, record. cbn [store trace tick].
  match goal with
  | |- context [updateToInitializedDeposit env d TxNull ?r ?w2] =>
      destruct (updateToInitializedDeposit_full env d TxNull r w2)
        as (d' & Hupd & Hid & Hs & Hi & Hfin & Herr & Hia & Hfa & Hla)
  end.
  rewrite Hupd. cbn [store trace tick truthy_tx truthy] in *.
  rewrite reason_or_unknown_truthy in Herr.
  eexists d', _, new. split; [reflexivity|]. cbn [store trace tick].
  rewrite Hst, Htr. split; [reflexivity|]. split; [reflexivity|].
  split; [lia|]. split; [exact Hid|].
  repeat split; try assumption. exists (tick w1). split; [lia|exact Hla].
Qed.

Lemma finalizeDeposit_failure env d w e :
  finalize_fails env d (tick w) e ->
  exists d' w' new,
    finalizeDeposit env d w = (Ok tt, w') /\
    trace w' = (EvWriteJson (id d) :: EvLog e :: new ++ trace w)%list /\
    store w' = <[id d := Parsed d']> (store w) /\
    (tick w < tick w')%nat /\
    same_identity d d' /\
    status d' = status d /\
    initializeTxHash (eth (hashes d')) = initializeTxHash (eth (hashes d)) /\
    finalizeTxHash (eth (hashes d')) = finalizeTxHash (eth (hashes d)) /\
    error d' = Some (reason_or_unknown e) /\
    (exists n, (tick w < n)%nat /\ lastActivityAt (dates d') = Date_now_at env n) /\
    writes new = [] /\ (sends new <= 1)%nat /\
    (sends new = 1%nat ->
     exists v, callStatic_finalizeDeposit_at env (tick w) (id d) = Ok v).
Proof.
  intros Hf.
  assert (Hstart : exists w1 new,
            finalizeDeposit env d w
            = (LogError e >>
               updateToFinalizedDeposit env d TxNull (Some (reason_or_unknown e))) w1 /\
            store w1 = store w /\ trace w1 = (new ++ trace w)%list /\
            (tick w < tick w1)%nat /\
            writes new = [] /\ (sends new <= 1)%nat /\
            (sends new = 1%nat ->
             exists v, callStatic_finalizeDeposit_at env (tick w) (id d) = Ok v)).
  { unfold finalizeDeposit, try_catch at 1. step_call.
    inversion Hf as [e0 H0|v e0 H0 H1|v nonce e0 H0 H1 H2|v nonce tx e0 H0 H1 H2 H3];
      subst e0; try unfold clamp_value in H2.
    - rewrite H0. eexists _, [_]. split; [reflexivity|].
      cbn. repeat split; auto; discriminate.
    - rewrite H0. cbv zeta. step_call. rewrite H1. eexists _, [_; _].
      split; [reflexivity|]. cbn. repeat split; auto; discriminate.
    - rewrite H0. cbv zeta. step_call. rewrite H1. step_call. rewrite H2.
      eexists _, [_; _; _]. split; [reflexivity|]. cbn. repeat split; eauto.
    - rewrite H0. cbv zeta. step_call. rewrite H1. step_call. rewrite H2.
      step_call. rewrite H3.
      eexists _, [_; _; _; _]. split; [reflexivity|]. cbn. repeat split; eauto. }
  destruct Hstart as (w1 & new & Hrun & Hst & Htr & Htk & Hwr & Hsn & Hpre).
  rewrite Hrun. unfold bind at 1, LogError, record. cbn [store trace tick].
  match goal with
  | |- context [updateToFinalizedDeposit env d TxNull ?r ?w2] =>
      destruct (updateToFinalizedDeposit_full env d TxNull r w2)
        as (d' & Hupd & Hid & Hs & Hi & Hfin & Herr & Hia & Hfa & Hla)
  end.
  rewrite Hupd. cbn [store trace tick truthy_tx truthy] in *.
  rewrite reason_or_unknown_truthy in Herr.
  eexists d', _, new. split; [reflexivity|]. cbn [store trace tick].
  rewrite Hst, Htr. split; [reflexivity|]. split; [reflexivity|].
  split; [lia|]. split; [exact Hid|].
  repeat split; try assumption. exists (tick w1). split; [lia|exact Hla].
Qed.

Lemma clamp_value_max v : clamp_value v = Z.max 0 v.
Proof. unfold clamp_value. destruct (Z.ltb_spec 0 v); lia. Qed.

(** X6. When the pre-flight succeeds, the nonce is read, the transaction is
    accepted and it is mined, [initializeDeposit] persists the record as
    INITIALIZED with the hash of the transaction, the initialization time
    set, and the error of an earlier failure cleared; it sends exactly one
    transaction, with the nonce it read, and changes nothing that identifies
    the deposit nor its finalize hash. *)
Theorem initializeDeposit_mined env d w nonce tx :
  callStatic_initializeDeposit_at env (tick w) (L1OutputEvent d) = Ok tt ->
  getTransactionCount_at env (S (tick w)) = Ok nonce ->
  send_initializeDeposit_at env (S (S (tick w))) (L1OutputEvent d) nonce = Ok tx ->
  wait_at env (S (S (S (tick w)))) tx = Ok tt ->
  tx <> EmptyString ->
  exists d' w' new,
    initializeDeposit env d w = (Ok tt, w') /\
    trace w' = (new ++ trace w)%list /\
    stored w' (id d) = Some d' /\
    same_identity d d' /\
    status d' = DepositStatus.INITIALIZED /\
    initializeTxHash (eth (hashes d')) = Some tx /\
    finalizeTxHash (eth (hashes d')) = finalizeTxHash (eth (hashes d)) /\
    error d' = None /\
    initializationAt (dates d') = Some (Date_now_at env (4 + tick w)) /\
    sends new = 1%nat /\ EvSendInitialize (id d) nonce ∈ new /\
    writes new = [id d].
Proof.
  intros H0 H1 H2 H3 Htx.
  destruct (initializeDeposit_success env d w nonce tx H0 H1 H2 H3)
    as (d' & Hrun & Hid & Hs & Hi & Hf & Herr & Hia & _).
  eexists d', _, [_; _; _; _; _]. split; [exact Hrun|]. cbn [trace].
  split; [reflexivity|]. split; [apply stored_insert|]. split; [exact Hid|].
  destruct tx as [|c tx]; [contradiction|]. cbn in Hi.
  repeat split; try assumption. do 2 right. left.
Qed.

Lemma initializeDeposit_mined_witness :
  let d := sample_deposit "42" DepositStatus.QUEUED None None 0 in
  exists d' w',
    initializeDeposit sample_env d (world_with d) = (Ok tt, w') /\
    stored w' "42" = Some d' /\
    status d' = DepositStatus.INITIALIZED /\
    initializeTxHash (eth (hashes d')) = Some "0xinit" /\
    sends (trace w') = 1%nat.
Proof.
  intros d.
  destruct (initializeDeposit_mined sample_env d (world_with d) 7 "0xinit"
              eq_refl eq_refl eq_refl eq_refl ltac:(discriminate))
    as (d' & w' & new & Hrun & Htr & Hst & _ & Hs & Hi & _ & _ & _ & Hsn & _).
  exists d', w'. repeat split; try assumption.
  rewrite Htr, app_nil_r. exact Hsn.
Defined.

(** X7. When the pre-flight of [finalizeDeposit] returns the value the
    contract requires and the rest succeeds, the transaction is sent with
    that value when it is positive and with zero otherwise (never a negative
    value), with the nonce read, and the record is persisted as FINALIZED
    with the hash of the transaction, the finalization time set and the
    error cleared; the initialize hash is kept. *)
Theorem finalizeDeposit_mined env d w v nonce tx :
  callStatic_finalizeDeposit_at env (tick w) (id d) = Ok v ->
  getTransactionCount_at env (S (tick w)) = Ok nonce ->
  send_finalizeDeposit_at env (S (S (tick w))) (id d) (Z.max 0 v) nonce = Ok tx ->
  wait_at env (S (S (S (tick w)))) tx = Ok tt ->
  tx <> EmptyString ->
  exists d' w' new,
    finalizeDeposit env d w = (Ok tt, w') /\
    trace w' = (new ++ trace w)%list /\
    stored w' (id d) = Some d' /\
    same_identity d d' /\
    status d' = DepositStatus.FINALIZED /\
    finalizeTxHash (eth (hashes d')) = Some tx /\
    initializeTxHash (eth (hashes d')) = initializeTxHash (eth (hashes d)) /\
    error d' = None /\
    finalizationAt (dates d') = Some (Date_now_at env (4 + tick w)) /\
    sends new = 1%nat /\ EvSendFinalize (id d) (Z.max 0 v) nonce ∈ new /\
    writes new = [id d].
Proof.
  intros H0 H1 H2 H3 Htx. rewrite <- clamp_value_max in *.
  destruct (finalizeDeposit_success env d w v nonce tx H0 H1 H2 H3)
    as (d' & Hrun & Hid & Hs & Hi & Hf & Herr & _ & Hfa & _).
  eexists d', _, [_; _; _; _; _]. split; [exact Hrun|]. cbn [trace].
  split; [reflexivity|]. split; [apply stored_insert|]. split; [exact Hid|].
  destruct tx as [|c tx]; [contradiction|]. cbn in Hf.
  repeat split; try assumption. do 2 right. left.
Qed.

Lemma finalizeDeposit_mined_witness :
  let d := sample_deposit "42" DepositStatus.INITIALIZED (Some "0xinit") None 0 in
  let env := with_l1 sample_env (fun _ _ => Ok DepositStatus.INITIALIZED)
               (fun _ _ => Ok tt) in
  exists d' w',
    finalizeDeposit env d (world_with d) = (Ok tt, w') /\
    stored w' "42" = Some d' /\
    status d' = DepositStatus.FINALIZED /\
    finalizeTxHash (eth (hashes d')) = Some "0xfin" /\
    EvSendFinalize "42" 0 7 ∈ trace w'.
Proof.
  intros d env.
  destruct (finalizeDeposit_mined env d (world_with d) 0 7 "0xfin"
              eq_refl eq_refl eq_refl eq_refl ltac:(discriminate))
    as (d' & w' & new & Hrun & Htr & Hst & _ & Hs & Hf & _ & _ & _ & _ & Hin & _).
  exists d', w'. repeat split; try assumption.
  rewrite Htr. apply elem_of_app. left. exact Hin.
Defined.

Lemma writes_after_failure k e new :
  writes new = [] -> writes (EvWriteJson k :: EvLog e :: new) = [k].
Proof. intros H. unfold writes in *. cbn. rewrite H. reflexivity. Qed.

Lemma sends_after_failure k e new :
  sends (EvWriteJson k :: EvLog e :: new) = sends new.
Proof. reflexivity. Qed.

(** Every outcome of [initializeDeposit]. *)
Lemma initializeDeposit_outcome env d w :
  exists d' w' new,
    initializeDeposit env d w = (Ok tt, w') /\
    trace w' = (new ++ trace w)%list /\
    store w' = <[id d := Parsed d']> (store w) /\
    same_identity d d' /\
    writes new = [id d] /\ (sends new <= 1)%nat /\
    (sends new = 1%nat ->
     callStatic_initializeDeposit_at env (tick w) (L1OutputEvent d) = Ok tt) /\
    (status d' = status d \/
     (status d' = DepositStatus.INITIALIZED /\ sends new = 1%nat)) /\
    finalizeTxHash (eth (hashes d')) = finalizeTxHash (eth (hashes d)) /\
    (exists n, (tick w < n)%nat /\ lastActivityAt (dates d') = Date_now_at env n).
Proof.
  destruct (initialize_attempt_cases env d (tick w))
    as [[e Hf]|(nonce & tx & H0 & H1 & H2 & H3)].
  - destruct (initializeDeposit_failure env d w e Hf)
      as (d' & w' & new & Hrun & Htr & Hst & _ & Hid & Hs & _ & Hfin & _ & Hla & Hwr & Hsn & Hpre).
    exists d', w', (EvWriteJson (id d) :: EvLog e :: new).
    split; [exact Hrun|]. split; [exact Htr|]. split; [exact Hst|].
    split; [exact Hid|]. rewrite (writes_after_failure (id d) e new Hwr).
    rewrite (sends_after_failure (id d) e new).
    repeat split; auto.
  - destruct (initializeDeposit_success env d w nonce tx H0 H1 H2 H3)
      as (d' & Hrun & Hid & Hs & _ & Hfin & _ & _ & _ & Hla).
    eexists d', _, [_; _; _; _; _]. split; [exact Hrun|]. cbn [trace store].
    split; [reflexivity|]. split; [reflexivity|]. split; [exact Hid|].
    cbn. repeat split; auto. exists (5 + tick w)%nat. split; [lia|exact Hla].
Qed.

(** Every outcome of [finalizeDeposit]. *)
Lemma finalizeDeposit_outcome env d w :
  exists d' w' new,
    finalizeDeposit env d w = (Ok tt, w') /\
    trace w' = (new ++ trace w)%list /\
    store w' = <[id d := Parsed d']> (store w) /\
    same_identity d d' /\
    writes new = [id d] /\ (sends new <= 1)%nat /\
    (sends new = 1%nat ->
     exists v, callStatic_finalizeDeposit_at env (tick w) (id d) = Ok v) /\
    (status d' = status d \/
     (status d' = DepositStatus.FINALIZED /\ sends new = 1%nat)) /\
    initializeTxHash (eth (hashes d')) = initializeTxHash (eth (hashes d)) /\
    (exists n, (tick w < n)%nat /\ lastActivityAt (dates d') = Date_now_at env n).
Proof.
  destruct (finalize_attempt_cases env d (tick w))
    as [[e Hf]|(v & nonce & tx & H0 & H1 & H2 & H3)].
  - destruct (finalizeDeposit_failure env d w e Hf)
      as (d' & w' & new & Hrun & Htr & Hst & _ & Hid & Hs & Hini & _ & _ & Hla & Hwr & Hsn & Hpre).
    exists d', w', (EvWriteJson (id d) :: EvLog e :: new).
    split; [exact Hrun|]. split; [exact Htr|]. split; [exact Hst|].
    split; [exact Hid|]. rewrite (writes_after_failure (id d) e new Hwr).
    rewrite (sends_after_failure (id d) e new).
    repeat split; auto.
  - destruct (finalizeDeposit_success env d w v nonce tx H0 H1 H2 H3)
      as (d' & Hrun & Hid & Hs & Hini & _ & _ & _ & _ & Hla).
    eexists d', _, [_; _; _; _; _]. split; [exact Hrun|]. cbn [trace store].
    split; [reflexivity|]. split; [reflexivity|]. split; [exact Hid|].
    cbn. repeat split; eauto. exists (5 + tick w)%nat. split; [lia|exact Hla].
Qed.

(** X8. Whatever the chain answers, [initializeDeposit] and
    [finalizeDeposit] do not throw, write the file of the deposit exactly
    once and no other file, send at most one transaction and only after a
    successful pre-flight, and keep what identifies the deposit. The status
    afterwards is what it was, or it is INITIALIZED (resp. FINALIZED) and
    exactly one transaction was sent; that a transaction was sent does not
    by itself say which of the two. *)
Theorem attempts_never_send_twice env d w :
  (exists d' w' new,
     initializeDeposit env d w = (Ok tt, w') /\
     trace w' = (new ++ trace w)%list /\
     store w' = <[id d := Parsed d']> (store w) /\
     same_identity d d' /\
     writes new = [id d] /\ (sends new <= 1)%nat /\
     (sends new = 1%nat ->
      callStatic_initializeDeposit_at env (tick w) (L1OutputEvent d) = Ok tt) /\
     (status d' = status d \/
      (status d' = DepositStatus.INITIALIZED /\ sends new = 1%nat))) /\
  (exists d' w' new,
     finalizeDeposit env d w = (Ok tt, w') /\
     trace w' = (new ++ trace w)%list /\
     store w' = <[id d := Parsed d']> (store w) /\
     same_identity d d' /\
     writes new = [id d] /\ (sends new <= 1)%nat /\
     (sends new = 1%nat ->
      exists v, callStatic_finalizeDeposit_at env (tick w) (id d) = Ok v) /\
     (status d' = status d \/
      (status d' = DepositStatus.FINALIZED /\ sends new = 1%nat))).
Proof.
  split.
  - destruct (initializeDeposit_outcome env d w)
      as (d' & w' & new & Hrun & Htr & Hst & Hid & Hwr & Hsn & Hpre & Hs & _).
    exists d', w', new. repeat split; first [assumption|apply Hid].
  - destruct (finalizeDeposit_outcome env d w)
      as (d' & w' & new & Hrun & Htr & Hst & Hid & Hwr & Hsn & Hpre & Hs & _).
    exists d', w', new. repeat split; first [assumption|apply Hid].
Qed.

(** ** Every outcome of a reconciler step *)

Lemma sends_app l1 l2 : sends (l1 ++ l2) = (sends l1 + sends l2)%nat.
Proof. unfold sends. rewrite filter_app, length_app. reflexivity. Qed.

Lemma sends_none l : Forall (fun ev => is_send ev = false) l -> sends l = 0%nat.
Proof.
  unfold sends. induction 1 as [|ev l Hev _ IH]; [reflexivity|].
  rewrite filter_cons. destruct (decide (is_send ev = true)); [congruence|exact IH].
Qed.

Lemma sends_write k : sends [EvWriteJson k] = 0%nat.
Proof. reflexivity. Qed.

Lemma processInitializeDeposit_outcome env d w :
  exists d' w' new,
    processInitializeDeposit env d w = (Ok tt, w') /\
    trace w' = (new ++ trace w)%list /\
    stored w' (id d) = Some d' /\
    same_identity d d' /\
    (status d' = status d \/ status d' = DepositStatus.INITIALIZED \/
     status d' = DepositStatus.FINALIZED) /\
    (exists n, (tick w <= n)%nat /\ lastActivityAt (dates d') = Date_now_at env n) /\
    (sends new <= 1)%nat.
Proof.
  unfold processInitializeDeposit, bind at 1.
  destruct (updateLastActivity_full env d w)
    as (u & Hrun & Hidu & Hsu & Hhu & Heu & _ & _ & Hlau).
  rewrite Hrun. unfold bind at 1.
  assert (Hk : id u = id d) by apply Hidu.
  match goal with
  | |- context [checkDepositStatus env (id u) ?w1] =>
      destruct (checkDepositStatus_run env (id u) w1) as (z & newc & Hc & Hnosend & _)
  end.
  rewrite Hc. cbn [store trace tick]. apply sends_none in Hnosend.
  destruct (z =? DepositStatus.INITIALIZED)%Z;
    [|destruct (z =? DepositStatus.QUEUED)%Z;
      [|destruct (z =? DepositStatus.FINALIZED)%Z]].
  - match goal with
    | |- context [updateToInitializedDeposit env u ?t None ?w2] =>
        destruct (updateToInitializedDeposit_full env u t None w2)
          as (d' & Hupd & Hid & Hs & _ & _ & _ & _ & _ & Hla)
    end.
    rewrite Hupd. cbn [store trace tick truthy_tx truthy_string] in *.
    eexists d', _, (EvWriteJson (id u) :: newc ++ [EvWriteJson (id d)])%list.
    split; [reflexivity|]. cbn [trace]. split.
    { cbn [app]. rewrite <- ?app_assoc. reflexivity. }
    split. { rewrite <- Hk. apply stored_insert. }
    split. { eapply same_identity_trans; eassumption. }
    split; [auto|]. split; [eexists; split; [|exact Hla]; lia|].
    change (EvWriteJson (id u) :: newc ++ [EvWriteJson (id d)])%list
      with ([EvWriteJson (id u)] ++ newc ++ [EvWriteJson (id d)])%list.
    rewrite !sends_app, Hnosend, ?sends_write. lia.
  - match goal with
    | |- context [initializeDeposit env u ?w2] =>
        destruct (initializeDeposit_outcome env u w2)
          as (d' & w' & new & Hini & Htr & Hst & Hid & _ & Hsn & _ & Hs & _ & (n & Hn & Hla))
    end.
    rewrite Hini. cbn [store trace tick] in *.
    exists d', w', (new ++ newc ++ [EvWriteJson (id d)])%list.
    split; [reflexivity|]. split.
    { rewrite Htr. cbn [app]. rewrite <- ?app_assoc. reflexivity. }
    split. { unfold stored. rewrite Hst, <- Hk, lookup_insert_eq. reflexivity. }
    split. { eapply same_identity_trans; eassumption. }
    split. { rewrite <- Hsu. destruct Hs as [Hs|[Hs _]]; auto. }
    split; [exists n; split; [lia|exact Hla]|].
    rewrite !sends_app, Hnosend, ?sends_write. lia.
  - match goal with
    | |- context [updateToFinalizedDeposit env u ?t None ?w2] =>
        destruct (updateToFinalizedDeposit_full env u t None w2)
          as (d' & Hupd & Hid & Hs & _ & _ & _ & _ & _ & Hla)
    end.
    rewrite Hupd. cbn [store trace tick truthy_tx truthy_string] in *.
    eexists d', _, (EvWriteJson (id u) :: newc ++ [EvWriteJson (id d)])%list.
    split; [reflexivity|]. cbn [trace]. split.
    { cbn [app]. rewrite <- ?app_assoc. reflexivity. }
    split. { rewrite <- Hk. apply stored_insert. }
    split. { eapply same_identity_trans; eassumption. }
    split; [auto|]. split; [eexists; split; [|exact Hla]; lia|].
    change (EvWriteJson (id u) :: newc ++ [EvWriteJson (id d)])%list
      with ([EvWriteJson (id u)] ++ newc ++ [EvWriteJson (id d)])%list.
    rewrite !sends_app, Hnosend, ?sends_write. lia.
  - eexists u, _, (newc ++ [EvWriteJson (id d)])%list.
    split; [reflexivity|]. cbn [trace]. split.
    { cbn [app]. rewrite <- ?app_assoc. reflexivity. }
    split; [apply stored_insert|]. split; [exact Hidu|].
    split; [auto|]. split; [exists (tick w); split; [lia|exact Hlau]|].
    rewrite !sends_app, Hnosend, ?sends_write. lia.
Qed.

Lemma processFinalizeDeposit_outcome env d w :
  exists d' w' new,
    processFinalizeDeposit env d w = (Ok tt, w') /\
    trace w' = (new ++ trace w)%list /\
    stored w' (id d) = Some d' /\
    same_identity d d' /\
    (status d' = status d \/ status d' = DepositStatus.FINALIZED) /\
    (exists n, (tick w <= n)%nat /\ lastActivityAt (dates d') = Date_now_at env n) /\
    (sends new <= 1)%nat.
Proof.
  unfold processFinalizeDeposit, bind at 1.
  destruct (updateLastActivity_full env d w)
    as (u & Hrun & Hidu & Hsu & Hhu & Heu & _ & _ & Hlau).
  rewrite Hrun. unfold bind at 1.
  assert (Hk : id u = id d) by apply Hidu.
  match goal with
  | |- context [checkDepositStatus env (id u) ?w1] =>
      destruct (checkDepositStatus_run env (id u) w1) as (z & newc & Hc & Hnosend & _)
  end.
  rewrite Hc. cbn [store trace tick]. apply sends_none in Hnosend.
  destruct (z =? DepositStatus.INITIALIZED)%Z;
    [|destruct (z =? DepositStatus.FINALIZED)%Z].
  - match goal with
    | |- context [finalizeDeposit env u ?w2] =>
        destruct (finalizeDeposit_outcome env u w2)
          as (d' & w' & new & Hini & Htr & Hst & Hid & _ & Hsn & _ & Hs & _ & (n & Hn & Hla))
    end.
    rewrite Hini. cbn [store trace tick] in *.
    exists d', w', (new ++ newc ++ [EvWriteJson (id d)])%list.
    split; [reflexivity|]. split.
    { rewrite Htr. cbn [app]. rewrite <- ?app_assoc. reflexivity. }
    split. { unfold stored. rewrite Hst, <- Hk, lookup_insert_eq. reflexivity. }
    split. { eapply same_identity_trans; eassumption. }
    split. { rewrite <- Hsu. destruct Hs as [Hs|[Hs _]]; auto. }
    split; [exists n; split; [lia|exact Hla]|].
    rewrite !sends_app, Hnosend, ?sends_write. lia.
  - match goal with
    | |- context [updateToFinalizedDeposit env u ?t None ?w2] =>
        destruct (updateToFinalizedDeposit_full env u t None w2)
          as (d' & Hupd & Hid & Hs & _ & _ & _ & _ & _ & Hla)
    end.
    rewrite Hupd. cbn [store trace tick truthy_tx truthy_string] in *.
    eexists d', _, (EvWriteJson (id u) :: newc ++ [EvWriteJson (id d)])%list.
    split; [reflexivity|]. cbn [trace]. split.
    { cbn [app]. rewrite <- ?app_assoc. reflexivity. }
    split. { rewrite <- Hk. apply stored_insert. }
    split. { eapply same_identity_trans; eassumption. }
    split; [auto|]. split; [eexists; split; [|exact Hla]; lia|].
    change (EvWriteJson (id u) :: newc ++ [EvWriteJson (id d)])%list
      with ([EvWriteJson (id u)] ++ newc ++ [EvWriteJson (id d)])%list.
    rewrite !sends_app, Hnosend, ?sends_write. lia.
  - eexists u, _, (newc ++ [EvWriteJson (id d)])%list.
    split; [reflexivity|]. cbn [trace]. split.
    { cbn [app]. rewrite <- ?app_assoc. reflexivity. }
    split; [apply stored_insert|]. split; [exact Hidu|].
    split; [auto|]. split; [exists (tick w); split; [lia|exact Hlau]|].
    rewrite !sends_app, Hnosend, ?sends_write. lia.
Qed.

(** ** The rest of a pass, seen from any record of the store *)

(** What holds of every step of the loop holds of the rest of the pass, for
    every record of the store: the record is still there afterwards, and it
    is related to what it was as the step relates them, or is unchanged. *)
Lemma after_listing_outcome env (body : Deposit -> M unit)
    (P : Deposit -> Deposit -> Prop) deposits w k d :
  (forall x, confined (id x) (body x) /\ safe (body x)) ->
  (forall x w1, x ∈ deposits -> (tick w <= tick w1)%nat ->
     exists x', stored (body x w1).2 (id x) = Some x' /\ P x x') ->
  store_wf w -> lists_records w deposits -> stored w k = Some d ->
  exists w' d',
    after_listing env body deposits w = (Ok tt, w') /\
    stored w' k = Some d' /\ (d' = d \/ P d d').
Proof.
  intros Hbody HP Hwf [Hnd Hrec] Hd.
  assert (Hk : id d = k). { apply Hwf. apply stored_lookup, Hd. }
  subst k.
  destruct (after_listing_run env body deposits w) as (w0 & Hst & _ & Htk0 & Hrun).
  rewrite Hrun.
  destruct (decide (id d ∈ id <$> due env (tick w) deposits)) as [Hin|Hnot].
  - apply list_elem_of_fmap in Hin as (x & Hid & Hx).
    assert (Hxl : x ∈ deposits) by (apply due_elem in Hx; apply Hx).
    assert (x = d).
    { pose proof (Hrec x Hxl) as Hsx. rewrite <- Hid in Hsx.
      apply stored_lookup in Hd. congruence. }
    subst x.
    destruct (loop_processes body (due env (tick w) deposits) w0 d Hbody
                (due_NoDup env (tick w) deposits Hnd) Hx)
      as (w1 & w2 & w' & new1 & new3 & Hloop & Hb & Htk & _ & _ & _ & _ & _ & Hkeep).
    destruct (HP d w1 Hxl ltac:(lia)) as (d' & Hd' & HPd).
    exists w', d'. split; [exact Hloop|]. split; [|right; exact HPd].
    rewrite Hb in Hd'. apply stored_lookup. rewrite Hkeep.
    apply stored_lookup, Hd'.
  - destruct (for_of_frame id body (due env (tick w) deposits) (id d)
                (fun x _ => Hbody x) Hnot w0)
      as (w' & new & Hloop & _ & _ & Hkeep & _).
    exists w', d. split; [exact Hloop|]. split; [|left; reflexivity].
    apply stored_lookup. rewrite Hkeep, Hst. apply stored_lookup, Hd.
Qed.

Lemma lists_records_singleton d : lists_records (world_with d) [d].
Proof.
  split.
  - rewrite list_fmap_singleton. apply NoDup_singleton.
  - intros x Hx. apply list_elem_of_singleton in Hx as ->.
    apply stored_lookup, stored_world_with.
Qed.

(** X9. The loop of a reconciler pass loses no record and moves none
    backwards. Whatever list of QUEUED records of the store (each once) the
    listing returned, after the rest of [processInitializeDeposits] every
    record of the store is still filed under its key with what identifies
    it unchanged, every record is still filed under its own id, and its
    status is what it was or, for a QUEUED record,
    INITIALIZED or FINALIZED; likewise after the rest of
    [processFinalizeDeposits] run on INITIALIZED records the status is what
    it was or, for an INITIALIZED record, FINALIZED. With a clock that
    never goes back, [lastActivityAt] of a record that was not in the
    future does not decrease. *)
Theorem passes_never_move_backwards env w deposits k d :
  store_wf w -> lists_records w deposits -> stored w k = Some d ->
  ((forall x, x ∈ deposits -> status x = DepositStatus.QUEUED) ->
   exists d' w',
     after_listing env (processInitializeDeposit env) deposits w = (Ok tt, w') /\
     stored w' k = Some d' /\ store_wf w' /\ same_identity d d' /\
     (status d' = status d \/
      (status d = DepositStatus.QUEUED /\
       (status d' = DepositStatus.INITIALIZED \/ status d' = DepositStatus.FINALIZED))) /\
     (clock_monotone env -> lastActivityAt (dates d) <= Date_now_at env (tick w) ->
      lastActivityAt (dates d) <= lastActivityAt (dates d'))) /\
  ((forall x, x ∈ deposits -> status x = DepositStatus.INITIALIZED) ->
   exists d' w',
     after_listing env (processFinalizeDeposit env) deposits w = (Ok tt, w') /\
     stored w' k = Some d' /\ store_wf w' /\ same_identity d d' /\
     (status d' = status d \/
      (status d = DepositStatus.INITIALIZED /\ status d' = DepositStatus.FINALIZED)) /\
     (clock_monotone env -> lastActivityAt (dates d) <= Date_now_at env (tick w) ->
      lastActivityAt (dates d) <= lastActivityAt (dates d'))).
Proof.
  intros Hwf Hl Hd. split; intros Hstatus.
  - pose proof (after_listing_keeps_wf env (processInitializeDeposit env) deposits
                  (keeps_wf_processInitializeDeposit env) w Hwf) as Hwf'.
    destruct (after_listing_outcome env (processInitializeDeposit env)
                (fun x x' =>
                   same_identity x x' /\
                   (status x' = status x \/
                    (status x = DepositStatus.QUEUED /\
                     (status x' = DepositStatus.INITIALIZED \/
                      status x' = DepositStatus.FINALIZED))) /\
                   exists n, (tick w <= n)%nat /\
                             lastActivityAt (dates x') = Date_now_at env n)
                deposits w k d) as (w' & d' & Hloop & Hd' & HP); try assumption.
    { intros x. split; [apply confined_processInitializeDeposit
                       |apply safe_processInitializeDeposit]. }
    { intros x w1 Hx Htk1.
      destruct (processInitializeDeposit_outcome env x w1)
        as (x' & w2 & new & Hb & _ & Hx' & Hid & Hs & (n & Hn & Hla) & _).
      exists x'. rewrite Hb. split; [exact Hx'|]. split; [exact Hid|]. split.
      - destruct Hs as [Hs|Hs]; [left; exact Hs|].
        right. split; [apply Hstatus, Hx|exact Hs].
      - exists n. split; [lia|exact Hla]. }
    exists d', w'. split; [exact Hloop|]. split; [exact Hd'|].
    split; [rewrite Hloop in Hwf'; exact Hwf'|].
    destruct HP as [->|(Hid & Hs & n & Hn & Hla)].
    + split; [apply same_identity_refl|]. split; [left; reflexivity|]. intros; lia.
    + split; [exact Hid|]. split; [exact Hs|]. intros Hclock Hpast.
      rewrite Hla. pose proof (Hclock _ _ Hn). lia.
  - pose proof (after_listing_keeps_wf env (processFinalizeDeposit env) deposits
                  (keeps_wf_processFinalizeDeposit env) w Hwf) as Hwf'.
    destruct (after_listing_outcome env (processFinalizeDeposit env)
                (fun x x' =>
                   same_identity x x' /\
                   (status x' = status x \/
                    (status x = DepositStatus.INITIALIZED /\
                     status x' = DepositStatus.FINALIZED)) /\
                   exists n, (tick w <= n)%nat /\
                             lastActivityAt (dates x') = Date_now_at env n)
                deposits w k d) as (w' & d' & Hloop & Hd' & HP); try assumption.
    { intros x. split; [apply confined_processFinalizeDeposit
                       |apply safe_processFinalizeDeposit]. }
    { intros x w1 Hx Htk1.
      destruct (processFinalizeDeposit_outcome env x w1)
        as (x' & w2 & new & Hb & _ & Hx' & Hid & Hs & (n & Hn & Hla) & _).
      exists x'. rewrite Hb. split; [exact Hx'|]. split; [exact Hid|]. split.
      - destruct Hs as [Hs|Hs]; [left; exact Hs|].
        right. split; [apply Hstatus, Hx|exact Hs].
      - exists n. split; [lia|exact Hla]. }
    exists d', w'. split; [exact Hloop|]. split; [exact Hd'|].
    split; [rewrite Hloop in Hwf'; exact Hwf'|].
    destruct HP as [->|(Hid & Hs & n & Hn & Hla)].
    + split; [apply same_identity_refl|]. split; [left; reflexivity|]. intros; lia.
    + split; [exact Hid|]. split; [exact Hs|]. intros Hclock Hpast.
      rewrite Hla. pose proof (Hclock _ _ Hn). lia.
Qed.

Lemma passes_never_move_backwards_witness :
  let d := sample_deposit "42" DepositStatus.QUEUED None None 0 in
  exists d' w',
    after_listing sample_env (processInitializeDeposit sample_env) [d] (world_with d)
    = (Ok tt, w') /\
    stored w' "42" = Some d' /\ same_identity d d' /\
    DepositStatus.QUEUED <= status d' /\
    lastActivityAt (dates d) <= lastActivityAt (dates d').
Proof.
  intros d.
  destruct (passes_never_move_backwards sample_env (world_with d) [d] "42" d
              (store_wf_world_with d) (lists_records_singleton d)
              (stored_world_with d))
    as (Hinit & _).
  destruct Hinit as (d' & w' & Hrun & Hst & _ & Hid & Hs & Hla).
  { intros x Hx. apply list_elem_of_singleton in Hx as ->. reflexivity. }
  exists d', w'. split; [exact Hrun|]. split; [exact Hst|]. split; [exact Hid|].
  split.
  - destruct Hs as [->|[_ [->| ->]]]; vm_compute; discriminate.
  - apply Hla; [apply sample_clock_monotone|vm_compute; discriminate].
Defined.

(** X10. Whatever list its listing returned, the rest of a reconciler pass
    touches only the files of the listed deposits that the throttle lets
    through: for a key that is the id of none of them (a record that was
    not listed, a file that does not parse, a key without a file) the file
    is the same afterwards, or still absent, and the trace gains no entry
    about it. *)
Theorem passes_leave_other_files env w deposits k :
  k ∉ id <$> due env (tick w) deposits ->
  (exists w' new,
     after_listing env (processInitializeDeposit env) deposits w = (Ok tt, w') /\
     extends w w' new /\ store w' !! k = store w !! k /\
     Forall (fun ev => about ev <> Some k) new) /\
  (exists w' new,
     after_listing env (processFinalizeDeposit env) deposits w = (Ok tt, w') /\
     extends w w' new /\ store w' !! k = store w !! k /\
     Forall (fun ev => about ev <> Some k) new).
Proof.
  intros Hk. split.
  - destruct (after_listing_frame env (processInitializeDeposit env) deposits w k)
      as (w' & new & Hrun & Hext & Hall & Hkeep); [|exact Hk|].
    { intros x. split; [apply confined_processInitializeDeposit
                       |apply safe_processInitializeDeposit]. }
    exists w', new. repeat split; assumption.
  - destruct (after_listing_frame env (processFinalizeDeposit env) deposits w k)
      as (w' & new & Hrun & Hext & Hall & Hkeep); [|exact Hk|].
    { intros x. split; [apply confined_processFinalizeDeposit
                       |apply safe_processFinalizeDeposit]. }
    exists w', new. repeat split; assumption.
Qed.

Lemma passes_leave_other_files_witness :
  let d := sample_deposit "42" DepositStatus.QUEUED None None 0 in
  let f := sample_deposit "7" DepositStatus.FINALIZED (Some "0xinit") (Some "0xfin") 0 in
  exists w',
    after_listing sample_env (processInitializeDeposit sample_env) [d] (world_with f)
    = (Ok tt, w') /\
    store w' !! "7" = Some (Parsed f).
Proof.
  intros d f.
  destruct (passes_leave_other_files sample_env (world_with f) [d] "7")
    as ((w' & new & Hrun & _ & Hkeep & _) & _).
  { intros Hin. apply list_elem_of_fmap in Hin as (x & Hid & Hx).
    apply due_elem in Hx as [_ Hx]. apply list_elem_of_singleton in Hx as ->.
    discriminate Hid. }
  exists w'. split; [exact Hrun|].
  transitivity (store (world_with f) !! "7"); [exact Hkeep|].
  apply stored_lookup, (stored_world_with f).
Defined.

(** X11. With utils/JsonUtils.ts as it is in the sources, both reconciler
    passes list no deposit at all: [getAllJsonOperationsByStatus("QUEUED")]
    and [("INITIALIZED")] compare the numeric status of each record with a
    string, so the list is empty and the pass returns after it. Whatever
    the store holds and whatever L1 would answer, a pass reads no clock,
    makes no call and writes no file; the only thing it leaves is one log
    line of the listing for each file that does not parse, and nothing when
    every file parses. *)
Theorem passes_list_no_deposit env w :
  exists logs,
    processInitializeDeposits env w
    = (Ok tt, {| store := store w; trace := (logs ++ trace w)%list; tick := tick w |}) /\
    processFinalizeDeposits env w
    = (Ok tt, {| store := store w; trace := (logs ++ trace w)%list; tick := tick w |}) /\
    (forall ev, ev ∈ logs <->
       exists k, listed k = true /\ store w !! k = Some Corrupt /\
                 ev = EvLog (invalid_json_file k)) /\
    ((forall k, store w !! k <> Some Corrupt) -> logs = []).
Proof.
  exists (invalid_json_logs (store w)).
  split; [apply processInitializeDeposits_run|].
  split; [apply processFinalizeDeposits_run|].
  split; [apply invalid_json_logs_elem|].
  intros Hparse. destruct (invalid_json_logs (store w)) as [|ev logs] eqn:Hlogs;
    [reflexivity|].
  assert (Hev : ev ∈ invalid_json_logs (store w)) by (rewrite Hlogs; left).
  apply invalid_json_logs_elem in Hev as (k & _ & Hk & _).
  exfalso. exact (Hparse k Hk).
Qed.

(** The same on a store with one QUEUED record that has been idle for long,
    with an L1 that would accept its initialization: the record is left as
    it is. *)
Example passes_list_no_deposit_run :
  let d := sample_deposit "42" DepositStatus.QUEUED None None 0 in
  processInitializeDeposits sample_env (world_with d) = (Ok tt, world_with d) /\
  processFinalizeDeposits sample_env (world_with d) = (Ok tt, world_with d).
Proof. vm_compute. split; reflexivity. Qed.

(** ** One record through a reconciler pass *)

(** The step of the initialize pass when L1 reports a state that is none
    of QUEUED, INITIALIZED and FINALIZED. *)
Lemma processInitializeDeposit_unhandled env d w z :
  deposits_at env (S (tick w)) (id d) = Ok z ->
  z <> DepositStatus.QUEUED -> z <> DepositStatus.INITIALIZED ->
  z <> DepositStatus.FINALIZED ->
  exists u,
    processInitializeDeposit env d w
    = (Ok tt, {| store := <[id d := Parsed u]> (store w);
                 trace := EvDeposits (id d) :: EvWriteJson (id d) :: trace w;
                 tick := S (S (tick w)) |}) /\
    only_touched d u /\ lastActivityAt (dates u) = Date_now_at env (tick w).
Proof.
  intros Hz H0 H1 H2. unfold processInitializeDeposit, bind at 1.
  destruct (updateLastActivity_full env d w)
    as (u & Hrun & Hidu & Hsu & Hhu & Heu & Hia & Hfa & Hlau).
  rewrite Hrun. unfold bind at 1.
  assert (Hk : id u = id d) by apply Hidu.
  rewrite Hk. erewrite checkDepositStatus_ok by exact Hz.
  cbn [store trace tick].
  destruct (Z.eqb_spec z DepositStatus.INITIALIZED) as [|_]; [contradiction|].
  destruct (Z.eqb_spec z DepositStatus.QUEUED) as [|_]; [contradiction|].
  destruct (Z.eqb_spec z DepositStatus.FINALIZED) as [|_]; [contradiction|].
  exists u. split; [reflexivity|]. split; [|exact Hlau].
  unfold only_touched. repeat split; first [assumption|apply Hidu].
Qed.

(** The step of the finalize pass when L1 does not report the deposit as
    INITIALIZED or FINALIZED, or cannot be read. *)
Lemma processFinalizeDeposit_waits env d w :
  (forall z, deposits_at env (S (tick w)) (id d) = Ok z ->
             z <> DepositStatus.INITIALIZED /\ z <> DepositStatus.FINALIZED) ->
  exists u log,
    processFinalizeDeposit env d w
    = (Ok tt, {| store := <[id d := Parsed u]> (store w);
                 trace := (log ++ EvDeposits (id d) :: EvWriteJson (id d) :: trace w)%list;
                 tick := S (S (tick w)) |}) /\
    only_touched d u /\ lastActivityAt (dates u) = Date_now_at env (tick w) /\
    Forall (fun ev => about ev = None) log.
Proof.
  intros Hz. unfold processFinalizeDeposit, bind at 1.
  destruct (updateLastActivity_full env d w)
    as (u & Hrun & Hidu & Hsu & Hhu & Heu & Hia & Hfa & Hlau).
  rewrite Hrun. unfold bind at 1.
  assert (Hk : id u = id d) by apply Hidu.
  assert (Hu : only_touched d u).
  { unfold only_touched. repeat split; first [assumption|apply Hidu]. }
  rewrite Hk.
  destruct (deposits_at env (S (tick w)) (id d)) as [z|e] eqn:Hdep.
  - erewrite checkDepositStatus_ok by exact Hdep.
    destruct (Hz z eq_refl) as [H1 H2]. cbn [store trace tick].
    destruct (Z.eqb_spec z DepositStatus.INITIALIZED) as [|_]; [contradiction|].
    destruct (Z.eqb_spec z DepositStatus.FINALIZED) as [|_]; [contradiction|].
    exists u, []. split; [reflexivity|]. split; [exact Hu|]. split; [exact Hlau|].
    constructor.
  - erewrite checkDepositStatus_throw by exact Hdep.
    cbn [store trace tick].
    exists u, [EvLog e]. split; [reflexivity|]. split; [exact Hu|].
    split; [exact Hlau|]. repeat constructor.
Qed.

(** X12. The loop of a pass acts only on what L1 reports. Let the listing
    have returned a list of deposits with distinct ids, and let [d] be one
    of them that the throttle lets through. When L1 reports for it a state
    that is none of QUEUED, INITIALIZED and FINALIZED, the rest of
    [processInitializeDeposits] only stamps [lastActivityAt]; when L1 does
    not report it as INITIALIZED or FINALIZED (it still reports QUEUED, or
    the read fails), the rest of [processFinalizeDeposits] only stamps
    [lastActivityAt]. In both cases the record is otherwise as it was and no
    pre-flight and no transaction is made for it. *)
Theorem passes_wait_for_the_chain env w deposits d :
  NoDup (id <$> deposits) -> d ∈ deposits ->
  TIME_TO_RETRY < Date_now_at env (tick w) - lastActivityAt (dates d) ->
  ((forall n, exists z, deposits_at env n (id d) = Ok z /\
                        z <> DepositStatus.QUEUED /\ z <> DepositStatus.INITIALIZED /\
                        z <> DepositStatus.FINALIZED) ->
   exists d' w' new,
     after_listing env (processInitializeDeposit env) deposits w = (Ok tt, w') /\
     extends w w' new /\
     stored w' (id d) = Some d' /\ only_touched d d' /\
     Forall (fun ev => about ev = Some (id d) ->
                       ev = EvWriteJson (id d) \/ ev = EvDeposits (id d)) new) /\
  ((forall n z, deposits_at env n (id d) = Ok z ->
                z <> DepositStatus.INITIALIZED /\ z <> DepositStatus.FINALIZED) ->
   exists d' w' new,
     after_listing env (processFinalizeDeposit env) deposits w = (Ok tt, w') /\
     extends w w' new /\
     stored w' (id d) = Some d' /\ only_touched d d' /\
     Forall (fun ev => about ev = Some (id d) ->
                       ev = EvWriteJson (id d) \/ ev = EvDeposits (id d)) new).
Proof.
  intros Hnd Hd Hlate.
  set (Q := fun (d' : Deposit) (mid : list Event) =>
              only_touched d d' /\
              Forall (fun ev => about ev = Some (id d) ->
                                ev = EvWriteJson (id d) \/ ev = EvDeposits (id d)) mid).
  split; intros Hchain.
  - destruct (after_listing_on_record env (processInitializeDeposit env) Q deposits w d)
      as (w' & d' & new1 & mid & new3 & Hrun & Htr & Hd' & [Hu Hmid] & H1 & H3);
      try assumption.
    { intros x. split; [apply confined_processInitializeDeposit
                       |apply safe_processInitializeDeposit]. }
    { intros w1. destruct (Hchain (S (tick w1))) as (z & Hz & H0 & H1 & H2).
      destruct (processInitializeDeposit_unhandled env d w1 z Hz H0 H1 H2)
        as (u & Hb & Hu & _).
      exists u, [EvDeposits (id d); EvWriteJson (id d)]. rewrite Hb.
      split; [apply stored_insert|]. split; [reflexivity|]. split; [exact Hu|].
      repeat (apply Forall_cons_2 || apply Forall_nil_2); intros _; auto. }
    exists d', w', (new3 ++ mid ++ new1)%list. split; [exact Hrun|].
    split. { unfold extends. rewrite Htr, <- !app_assoc. reflexivity. }
    split; [exact Hd'|]. split; [exact Hu|]. apply about_only; assumption.
  - destruct (after_listing_on_record env (processFinalizeDeposit env) Q deposits w d)
      as (w' & d' & new1 & mid & new3 & Hrun & Htr & Hd' & [Hu Hmid] & H1 & H3);
      try assumption.
    { intros x. split; [apply confined_processFinalizeDeposit
                       |apply safe_processFinalizeDeposit]. }
    { intros w1.
      destruct (processFinalizeDeposit_waits env d w1 (Hchain (S (tick w1))))
        as (u & log & Hb & Hu & _ & Hlog).
      exists u, (log ++ [EvDeposits (id d); EvWriteJson (id d)])%list. rewrite Hb.
      split; [apply stored_insert|]. split.
      { cbn [snd trace]. rewrite <- app_assoc. reflexivity. }
      split; [exact Hu|]. rewrite Forall_app. split.
      - eapply Forall_impl; [exact Hlog|]. cbn. intros ev Hn He. congruence.
      - repeat (apply Forall_cons_2 || apply Forall_nil_2); intros _; auto. }
    exists d', w', (new3 ++ mid ++ new1)%list. split; [exact Hrun|].
    split. { unfold extends. rewrite Htr, <- !app_assoc. reflexivity. }
    split; [exact Hd'|]. split; [exact Hu|]. apply about_only; assumption.
Qed.

Lemma passes_wait_for_the_chain_witness :
  let d := sample_deposit "42" DepositStatus.INITIALIZED (Some "0xinit") None 0 in
  exists d' w',
    after_listing reverting_env (processFinalizeDeposit reverting_env) [d] (world_with d)
    = (Ok tt, w') /\
    stored w' "42" = Some d' /\ only_touched d d' /\
    Forall (fun ev => is_send ev = false) (trace w').
Proof.
  intros d.
  destruct (passes_wait_for_the_chain reverting_env (world_with d) [d] d)
    as (_ & Hfin).
  { rewrite list_fmap_singleton. apply NoDup_singleton. }
  { apply list_elem_of_singleton. reflexivity. }
  { vm_compute. reflexivity. }
  destruct Hfin as (d' & w' & new & Hrun & Hext & Hst & Hu & Hev).
  { intros n z. cbn. discriminate. }
  exists d', w'. split; [exact Hrun|]. split; [exact Hst|]. split; [exact Hu|].
  clear Hext Hst Hev Hu. revert Hrun. vm_compute. intros [= <-]. repeat constructor.
Defined.

(** ** A pass that L1 accepts *)

Lemma sends_for_app k l1 l2 :
  sends_for k (l1 ++ l2) = (sends_for k l1 + sends_for k l2)%nat.
Proof. unfold sends_for. rewrite filter_app. apply sends_app. Qed.

Lemma sends_for_foreign k l :
  Forall (fun ev => about ev <> Some k) l -> sends_for k l = 0%nat.
Proof.
  unfold sends_for. induction 1 as [|ev l Hev _ IH]; [reflexivity|].
  rewrite filter_cons. destruct (decide (about ev = Some k)); [contradiction|exact IH].
Qed.

Lemma sends_for_silent k l :
  Forall (fun ev => is_send ev = false) l -> sends_for k l = 0%nat.
Proof.
  intros H. unfold sends_for. apply sends_none.
  induction H as [|ev l Hev _ IH]; [constructor|].
  rewrite filter_cons. destruct (decide (about ev = Some k)); [constructor|]; assumption.
Qed.

(** The step of the initialize pass when L1 reports QUEUED, or cannot be
    read, and accepts the transaction. *)
Lemma processInitializeDeposit_accepted env d w nonce tx :
  (forall n, deposits_at env n (id d) = Ok DepositStatus.QUEUED \/
             exists e, deposits_at env n (id d) = Throw e) ->
  (forall n, callStatic_initializeDeposit_at env n (L1OutputEvent d) = Ok tt) ->
  (forall n, getTransactionCount_at env n = Ok nonce) ->
  (forall n, send_initializeDeposit_at env n (L1OutputEvent d) nonce = Ok tx) ->
  (forall n, wait_at env n tx = Ok tt) ->
  exists d' w' log,
    processInitializeDeposit env d w = (Ok tt, w') /\
    trace w' = ([EvWriteJson (id d); EvWait tx; EvSendInitialize (id d) nonce;
                 EvGetTransactionCount; EvCallStaticInitialize (id d)]
                ++ log ++ [EvWriteJson (id d)] ++ trace w)%list /\
    Forall (fun ev => is_send ev = false) log /\
    stored w' (id d) = Some d' /\
    same_identity d d' /\ status d' = DepositStatus.INITIALIZED /\
    initializeTxHash (eth (hashes d')) = (if truthy_string tx then Some tx else None) /\
    finalizeTxHash (eth (hashes d')) = finalizeTxHash (eth (hashes d)) /\
    error d' = None.
Proof.
  intros Hdep H0 H1 H2 H3. unfold processInitializeDeposit, bind at 1.
  destruct (updateLastActivity_full env d w)
    as (u & Hrun & Hidu & Hsu & Hhu & Heu & _ & _ & _).
  rewrite Hrun. unfold bind at 1.
  assert (Hk : id u = id d) by apply Hidu.
  assert (Hev : L1OutputEvent u = L1OutputEvent d) by apply Hidu.
  match goal with
  | |- context [checkDepositStatus env (id u) ?w1] =>
      assert (Hc : exists log,
                checkDepositStatus env (id u) w1
                = (Ok DepositStatus.QUEUED,
                   {| store := store w1; trace := (log ++ trace w1)%list;
                      tick := S (tick w1) |}) /\
                Forall (fun ev => is_send ev = false) log)
  end.
  { rewrite Hk. destruct (Hdep (S (tick w))) as [Hq|[e He]].
    - exists [EvDeposits (id d)]. split; [|repeat constructor].
      apply checkDepositStatus_ok. exact Hq.
    - exists [EvLog e; EvDeposits (id d)]. split; [|repeat constructor].
      apply checkDepositStatus_throw. exact He. }
  destruct Hc as (log & Hc & Hlog). rewrite Hc.
  cbn [Z.eqb Pos.eqb DepositStatus.INITIALIZED DepositStatus.QUEUED store trace tick].
  match goal with
  | |- context [initializeDeposit env u ?w2] =>
      destruct (initializeDeposit_success env u w2 nonce tx)
        as (d' & Hini & Hid & Hs & Hi & Hf & Herr & _)
  end.
  { rewrite Hev. apply H0. } { apply H1. } { rewrite Hev. apply H2. } { apply H3. }
  rewrite Hini. cbn [store trace tick]. rewrite Hk in *.
  eexists d', _, log. split; [reflexivity|]. cbn [trace store].
  split. { cbn [app]. rewrite <- ?app_assoc. reflexivity. }
  split; [exact Hlog|]. split; [apply stored_insert|].
  split; [eapply same_identity_trans; eassumption|].
  split; [exact Hs|]. split; [exact Hi|]. split; [|exact Herr].
  rewrite Hf, Hhu. reflexivity.
Qed.

(** The step of the finalize pass when L1 reports INITIALIZED and accepts
    the transaction. *)
Lemma processFinalizeDeposit_accepted env d w v nonce tx :
  (forall n, deposits_at env n (id d) = Ok DepositStatus.INITIALIZED) ->
  (forall n, callStatic_finalizeDeposit_at env n (id d) = Ok v) ->
  (forall n, getTransactionCount_at env n = Ok nonce) ->
  (forall n, send_finalizeDeposit_at env n (id d) (clamp_value v) nonce = Ok tx) ->
  (forall n, wait_at env n tx = Ok tt) ->
  exists d' w',
    processFinalizeDeposit env d w = (Ok tt, w') /\
    trace w' = ([EvWriteJson (id d); EvWait tx;
                 EvSendFinalize (id d) (clamp_value v) nonce;
                 EvGetTransactionCount; EvCallStaticFinalize (id d);
                 EvDeposits (id d); EvWriteJson (id d)] ++ trace w)%list /\
    stored w' (id d) = Some d' /\
    same_identity d d' /\ status d' = DepositStatus.FINALIZED /\
    initializeTxHash (eth (hashes d')) = initializeTxHash (eth (hashes d)) /\
    finalizeTxHash (eth (hashes d')) = (if truthy_string tx then Some tx else None) /\
    error d' = None.
Proof.
  intros Hdep H0 H1 H2 H3. unfold processFinalizeDeposit, bind at 1.
  destruct (updateLastActivity_full env d w)
    as (u & Hrun & Hidu & Hsu & Hhu & Heu & _ & _ & _).
  rewrite Hrun. unfold bind at 1.
  assert (Hk : id u = id d) by apply Hidu.
  rewrite Hk.
  rewrite (checkDepositStatus_ok env (id d) _ DepositStatus.INITIALIZED) by apply Hdep.
  cbn [Z.eqb Pos.eqb DepositStatus.INITIALIZED store trace tick].
  match goal with
  | |- context [finalizeDeposit env u ?w2] =>
      destruct (finalizeDeposit_success env u w2 v nonce tx)
        as (d' & Hfin & Hid & Hs & Hi & Hf & Herr & _)
  end.
  { rewrite Hk. apply H0. } { apply H1. } { rewrite Hk. apply H2. } { apply H3. }
  rewrite Hfin. cbn [store trace tick]. rewrite Hk in *.
  eexists d', _. split; [reflexivity|]. cbn [trace store].
  split; [reflexivity|]. split; [apply stored_insert|].
  split; [eapply same_identity_trans; eassumption|].
  split; [exact Hs|]. split; [|split; [exact Hf|exact Herr]].
  rewrite Hi, Hhu. reflexivity.
Qed.

(** X13. The loop of a pass completes what L1 accepts, whatever error an
    earlier attempt left in the record. Let the listing have returned a
    list of deposits with distinct ids, and let [d] be one of them that the
    throttle lets through. If L1 reports it as QUEUED (or its state cannot
    be read) and accepts the transaction, its record is INITIALIZED after
    the rest of [processInitializeDeposits], with the hash of the
    transaction and no error; if L1 reports it as INITIALIZED, its record
    is FINALIZED after the rest of [processFinalizeDeposits] likewise. In
    both cases exactly one transaction is sent for the deposit, with the
    nonce just read (and, on finalization, the value the pre-flight
    returned, or 0 if that is not positive). *)
Theorem passes_complete_what_l1_accepts env w deposits d nonce tx :
  NoDup (id <$> deposits) -> d ∈ deposits ->
  TIME_TO_RETRY < Date_now_at env (tick w) - lastActivityAt (dates d) ->
  (forall n, getTransactionCount_at env n = Ok nonce) ->
  (forall n, wait_at env n tx = Ok tt) ->
  ((forall n, deposits_at env n (id d) = Ok DepositStatus.QUEUED \/
              exists e, deposits_at env n (id d) = Throw e) ->
   (forall n, callStatic_initializeDeposit_at env n (L1OutputEvent d) = Ok tt) ->
   (forall n, send_initializeDeposit_at env n (L1OutputEvent d) nonce = Ok tx) ->
   exists d' w' new,
     after_listing env (processInitializeDeposit env) deposits w = (Ok tt, w') /\
     extends w w' new /\
     stored w' (id d) = Some d' /\ same_identity d d' /\
     status d' = DepositStatus.INITIALIZED /\
     initializeTxHash (eth (hashes d')) = (if truthy_string tx then Some tx else None) /\
     finalizeTxHash (eth (hashes d')) = finalizeTxHash (eth (hashes d)) /\
     error d' = None /\
     sends_for (id d) new = 1%nat /\ EvSendInitialize (id d) nonce ∈ new) /\
  (forall v,
   (forall n, deposits_at env n (id d) = Ok DepositStatus.INITIALIZED) ->
   (forall n, callStatic_finalizeDeposit_at env n (id d) = Ok v) ->
   (forall n, send_finalizeDeposit_at env n (id d) (clamp_value v) nonce = Ok tx) ->
   exists d' w' new,
     after_listing env (processFinalizeDeposit env) deposits w = (Ok tt, w') /\
     extends w w' new /\
     stored w' (id d) = Some d' /\ same_identity d d' /\
     status d' = DepositStatus.FINALIZED /\
     initializeTxHash (eth (hashes d')) = initializeTxHash (eth (hashes d)) /\
     finalizeTxHash (eth (hashes d')) = (if truthy_string tx then Some tx else None) /\
     error d' = None /\
     sends_for (id d) new = 1%nat /\
     EvSendFinalize (id d) (clamp_value v) nonce ∈ new).
Proof.
  intros Hnd Hd Hlate Hnonce Hwait. split.
  - intros Hdep Hpre Hsend.
    set (Q := fun (d' : Deposit) (mid : list Event) =>
                (same_identity d d' /\ status d' = DepositStatus.INITIALIZED /\
                 initializeTxHash (eth (hashes d'))
                 = (if truthy_string tx then Some tx else None) /\
                 finalizeTxHash (eth (hashes d')) = finalizeTxHash (eth (hashes d)) /\
                 error d' = None) /\
                sends_for (id d) mid = 1%nat /\ EvSendInitialize (id d) nonce ∈ mid).
    destruct (after_listing_on_record env (processInitializeDeposit env) Q deposits w d)
      as (w' & d' & new1 & mid & new3 & Hrun & Htr & Hd' & (Hprops & Hone & Hin) & H1 & H3);
      try assumption.
    { intros x. split; [apply confined_processInitializeDeposit
                       |apply safe_processInitializeDeposit]. }
    { intros w1.
      destruct (processInitializeDeposit_accepted env d w1 nonce tx
                  Hdep Hpre Hnonce Hsend Hwait)
        as (u & w2 & log & Hb & Htr2 & Hlog & Hst & Hprops).
      exists u, ([EvWriteJson (id d); EvWait tx; EvSendInitialize (id d) nonce;
                  EvGetTransactionCount; EvCallStaticInitialize (id d)]
                 ++ log ++ [EvWriteJson (id d)])%list.
      rewrite Hb. cbn [snd]. split; [exact Hst|]. split.
      { rewrite Htr2, <- !app_assoc. reflexivity. }
      split; [exact Hprops|]. split.
      - rewrite !sends_for_app, (sends_for_silent _ log Hlog).
        unfold sends_for, sends. rewrite !filter_cons, !filter_nil. cbn [about is_send].
        repeat (destruct (decide _); try congruence). reflexivity.
      - apply elem_of_app. left. do 2 right. left. }
    exists d', w', (new3 ++ mid ++ new1)%list. split; [exact Hrun|].
    split. { unfold extends. rewrite Htr, <- !app_assoc. reflexivity. }
    split; [exact Hd'|]. destruct Hprops as (Hp1 & Hp2 & Hp3 & Hp4 & Hp5).
    split; [exact Hp1|]. split; [exact Hp2|]. split; [exact Hp3|].
    split; [exact Hp4|]. split; [exact Hp5|]. split.
    + rewrite !sends_for_app, (sends_for_foreign _ new1 H1),
        (sends_for_foreign _ new3 H3). lia.
    + apply elem_of_app. right. apply elem_of_app. left. exact Hin.
  - intros v Hdep Hpre Hsend.
    set (Q := fun (d' : Deposit) (mid : list Event) =>
                (same_identity d d' /\ status d' = DepositStatus.FINALIZED /\
                 initializeTxHash (eth (hashes d')) = initializeTxHash (eth (hashes d)) /\
                 finalizeTxHash (eth (hashes d'))
                 = (if truthy_string tx then Some tx else None) /\
                 error d' = None) /\
                sends_for (id d) mid = 1%nat /\
                EvSendFinalize (id d) (clamp_value v) nonce ∈ mid).
    destruct (after_listing_on_record env (processFinalizeDeposit env) Q deposits w d)
      as (w' & d' & new1 & mid & new3 & Hrun & Htr & Hd' & (Hprops & Hone & Hin) & H1 & H3);
      try assumption.
    { intros x. split; [apply confined_processFinalizeDeposit
                       |apply safe_processFinalizeDeposit]. }
    { intros w1.
      destruct (processFinalizeDeposit_accepted env d w1 v nonce tx
                  Hdep Hpre Hnonce Hsend Hwait)
        as (u & w2 & Hb & Htr2 & Hst & Hprops).
      exists u, [EvWriteJson (id d); EvWait tx;
                 EvSendFinalize (id d) (clamp_value v) nonce;
                 EvGetTransactionCount; EvCallStaticFinalize (id d);
                 EvDeposits (id d); EvWriteJson (id d)].
      rewrite Hb. cbn [snd]. split; [exact Hst|]. split; [exact Htr2|].
      split; [exact Hprops|]. split.
      - unfold sends_for, sends. rewrite !filter_cons, !filter_nil. cbn [about is_send].
        repeat (destruct (decide _); try congruence). reflexivity.
      - do 2 right. left. }
    exists d', w', (new3 ++ mid ++ new1)%list. split; [exact Hrun|].
    split. { unfold extends. rewrite Htr, <- !app_assoc. reflexivity. }
    split; [exact Hd'|]. destruct Hprops as (Hp1 & Hp2 & Hp3 & Hp4 & Hp5).
    split; [exact Hp1|]. split; [exact Hp2|]. split; [exact Hp3|].
    split; [exact Hp4|]. split; [exact Hp5|]. split.
    + rewrite !sends_for_app, (sends_for_foreign _ new1 H1),
        (sends_for_foreign _ new3 H3). lia.
    + apply elem_of_app. right. apply elem_of_app. left. exact Hin.
Qed.

Lemma passes_complete_what_l1_accepts_witness :
  let d := sample_deposit "42" DepositStatus.QUEUED None None 0 in
  exists d' w',
    after_listing sample_env (processInitializeDeposit sample_env) [d] (world_with d)
    = (Ok tt, w') /\
    stored w' "42" = Some d' /\
    status d' = DepositStatus.INITIALIZED /\
    initializeTxHash (eth (hashes d')) = Some "0xinit" /\ error d' = None /\
    sends (trace w') = 1%nat.
Proof.
  intros d.
  destruct (passes_complete_what_l1_accepts sample_env (world_with d) [d] d 7 "0xinit")
    as (Hinit & _).
  { rewrite list_fmap_singleton. apply NoDup_singleton. }
  { apply list_elem_of_singleton. reflexivity. }
  { vm_compute. reflexivity. }
  { intros n. reflexivity. }
  { intros n. reflexivity. }
  destruct Hinit as (d' & w' & new & Hrun & Hext & Hst & _ & Hs & Hi & _ & He & _).
  { intros n. left. reflexivity. }
  { intros n. reflexivity. }
  { intros n. reflexivity. }
  exists d', w'. split; [exact Hrun|]. split; [exact Hst|]. split; [exact Hs|].
  split; [exact Hi|]. split; [exact He|].
  clear Hext Hst Hs Hi He. revert Hrun. vm_compute. intros [= <-]. reflexivity.
Defined.

(** ** Files stay under the id of their record *)

(** X14. Every record is filed under its own id, and the handler keeps it
    so: if it holds of the store, it holds after an initialize or finalize
    attempt on any deposit and after the vault callback for any key,
    whatever L1 answers. *)
Theorem handler_keeps_files_under_their_id env w :
  store_wf w ->
  (forall d, store_wf (initializeDeposit env d w).2) /\
  (forall d, store_wf (finalizeDeposit env d w).2) /\
  (forall depositKey, store_wf (onOptimisticMintingFinalized env depositKey w).2).
Proof.
  intros Hwf. split; [|split].
  - intros d. apply keeps_wf_initializeDeposit, Hwf.
  - intros d. apply keeps_wf_finalizeDeposit, Hwf.
  - intros depositKey. apply onOptimisticMintingFinalized_keeps_wf, Hwf.
Qed.

Lemma handler_keeps_files_under_their_id_witness :
  let d := sample_deposit "42" DepositStatus.QUEUED None None 0 in
  store_wf (initializeDeposit sample_env d (world_with d)).2 /\
  store_wf (finalizeDeposit reverting_env d (world_with d)).2 /\
  store_wf (onOptimisticMintingFinalized sample_env 42%N (world_with d)).2.
Proof.
  intros d.
  destruct (handler_keeps_files_under_their_id sample_env (world_with d)
              (store_wf_world_with d)) as (Hinit & _ & Hvault).
  destruct (handler_keeps_files_under_their_id reverting_env (world_with d)
              (store_wf_world_with d)) as (_ & Hfin & _).
  split; [exact (Hinit d)|]. split; [exact (Hfin d)|exact (Hvault 42%N)].
Defined.

(** ** The vault callback *)

(** X15. The callback of [OptimisticMintingFinalized] reads the record
    filed under the decimal spelling of the deposit key. Without such a
    record (no file, or one that does not parse) it does nothing at all: no
    L1 call, no log entry. With one it runs [finalizeDeposit] on it without
    looking at the status of the record or of the deposit on L1: if L1
    accepts the transaction the record is FINALIZED afterwards, with the
    hash of the transaction, whatever its status was. *)
Theorem vault_callback_finalizes_stored_record env depositKey w :
  let k := BigNumber_toString depositKey in
  (stored w k = None -> onOptimisticMintingFinalized env depositKey w = (Ok tt, w)) /\
  (forall d, stored w k = Some d ->
     onOptimisticMintingFinalized env depositKey w = finalizeDeposit env d w) /\
  (forall d v nonce tx,
     store_wf w -> stored w k = Some d ->
     callStatic_finalizeDeposit_at env (tick w) k = Ok v ->
     getTransactionCount_at env (S (tick w)) = Ok nonce ->
     send_finalizeDeposit_at env (S (S (tick w))) k (clamp_value v) nonce = Ok tx ->
     wait_at env (S (S (S (tick w)))) tx = Ok tt ->
     exists d' w',
       onOptimisticMintingFinalized env depositKey w = (Ok tt, w') /\
       stored w' k = Some d' /\ same_identity d d' /\
       status d' = DepositStatus.FINALIZED /\
       finalizeTxHash (eth (hashes d')) = (if truthy_string tx then Some tx else None) /\
       initializeTxHash (eth (hashes d')) = initializeTxHash (eth (hashes d)) /\
       error d' = None /\
       trace w' = EvWriteJson k :: EvWait tx :: EvSendFinalize k (clamp_value v) nonce
                  :: EvGetTransactionCount :: EvCallStaticFinalize k :: trace w).
Proof.
  cbv zeta.
  assert (Hknown : forall d, stored w (BigNumber_toString depositKey) = Some d ->
            onOptimisticMintingFinalized env depositKey w = finalizeDeposit env d w).
  { intros d Hd. unfold onOptimisticMintingFinalized, try_catch, bind at 1, getJsonById.
    unfold stored in Hd. cbn [fst snd].
    destruct (store w !! BigNumber_toString depositKey) as [[d0|]|]; try discriminate.
    injection Hd as ->.
    destruct (safe_finalizeDeposit env d w) as [[] Hok].
    destruct (finalizeDeposit env d w) as [[[]|e] w'] eqn:Hrun;
      [reflexivity|discriminate]. }
  split; [|split].
  - intros Hnone. unfold onOptimisticMintingFinalized, try_catch, bind, getJsonById.
    unfold stored in Hnone. cbn [fst snd].
    destruct (store w !! BigNumber_toString depositKey) as [[d0|]|];
      [discriminate|reflexivity|reflexivity].
  - exact Hknown.
  - intros d v nonce tx Hwf Hd H0 H1 H2 H3.
    assert (Hk : id d = BigNumber_toString depositKey).
    { apply Hwf. apply stored_lookup, Hd. }
    rewrite <- Hk in *.
    destruct (finalizeDeposit_success env d w v nonce tx H0 H1 H2 H3)
      as (d' & Hrun & Hid & Hs & Hi & Hf & Herr & _).
    eexists d', _. rewrite (Hknown d Hd). split; [exact Hrun|].
    split; [apply stored_insert|]. split; [exact Hid|]. split; [exact Hs|].
    split; [exact Hf|]. split; [exact Hi|]. split; [exact Herr|]. reflexivity.
Qed.

Lemma vault_callback_finalizes_stored_record_witness :
  let d := sample_deposit "42" DepositStatus.QUEUED None None 0 in
  onOptimisticMintingFinalized sample_env 43 (world_with d) = (Ok tt, world_with d) /\
  exists d' w',
    onOptimisticMintingFinalized sample_env 42 (world_with d) = (Ok tt, w') /\
    stored w' "42" = Some d' /\ status d' = DepositStatus.FINALIZED /\
    finalizeTxHash (eth (hashes d')) = Some "0xfin" /\
    initializeTxHash (eth (hashes d')) = None.
Proof.
  intros d. split.
  - apply (vault_callback_finalizes_stored_record sample_env 43 (world_with d)).
    reflexivity.
  - destruct (vault_callback_finalizes_stored_record sample_env 42 (world_with d))
      as (_ & _ & Hfin).
    destruct (Hfin d 0 7 "0xfin" (store_wf_world_with d))
      as (d' & w' & Hrun & Hst & _ & Hs & Hf & Hi & _); try reflexivity.
    exists d', w'. repeat split; assumption.
Defined.

(** ** Scans of L2 that find nothing to do *)

(** [getBlocksByTimestamp] writes no file, makes no L1 call and no query. *)
Lemma getBlocksByTimestamp_frame env timestamp latestBlock w :
  exists r log,
    getBlocksByTimestamp env timestamp latestBlock w
    = (Ok (Some r), {| store := store w;
                trace := (log ++ EvGetBlocks timestamp latestBlock :: trace w)%list;
                tick := S (tick w) |}) /\
    Forall (fun ev => is_scan ev = true /\ forall a b, ev <> EvQueryFilter a b) log.
Proof.
  unfold getBlocksByTimestamp, bind, record, ask. cbn [tick store trace].
  pose proof (binarySearch_ends (getBlock_at env (tick w)) timestamp
                (search_fuel (START_BLOCK env) latestBlock)
                (START_BLOCK env) latestBlock (-1) (le_n _)) as Hends.
  destruct (binarySearch (getBlock_at env (tick w)) timestamp
              (search_fuel (START_BLOCK env) latestBlock)
              (START_BLOCK env) latestBlock (-1)) as [sb|sb e|];
    [| |contradiction].
  - eexists _, []. split; [reflexivity|constructor].
  - unfold LogError, record. cbn. eexists _, [EvLog e]. split; [reflexivity|].
    repeat constructor. discriminate.
Qed.

(** The part of both scans before the query for events. *)
Lemma scan_prelude {A} env pastTimeInMinutes latestBlock (k : option BlockRange -> M A) w :
  exists r log,
    (let* now := Date_now env in
     let currentTime := now / 1000 in
     let pastTime := currentTime - pastTimeInMinutes * 60 in
     let* range := getBlocksByTimestamp env pastTime latestBlock in
     k range) w
    = k (Some r)
        {| store := store w; trace := (log ++ trace w)%list; tick := S (S (tick w)) |} /\
    Forall (fun ev => is_scan ev = true /\ forall a b, ev <> EvQueryFilter a b) log.
Proof.
  unfold bind at 1, Date_now, ask. cbv zeta. unfold bind at 1.
  match goal with
  | |- context [getBlocksByTimestamp env ?t latestBlock ?w1] =>
      destruct (getBlocksByTimestamp_frame env t latestBlock w1)
        as (r & log & Hgb & Hlog);
      exists r, (log ++ [EvGetBlocks t latestBlock])%list
  end.
  rewrite Hgb. cbn [store trace tick]. rewrite <- app_assoc. split; [reflexivity|].
  rewrite Forall_app. split; [exact Hlog|repeat constructor; discriminate].
Qed.

Lemma is_scan_only (log : list Event) :
  Forall (fun ev => is_scan ev = true /\ forall a b, ev <> EvQueryFilter a b) log ->
  Forall (fun ev => is_scan ev = true) log.
Proof.
  intros H. eapply Forall_impl; [exact H|]. cbn. intros ev [Hs _]. exact Hs.
Qed.

(** X16. [EVMChainHandler.checkForPastDeposits] never throws, and when
    there is nothing to process it leaves the store as it is and makes no
    L1 call: without a configured L2 contract (then the events are not even
    queried), when the query fails (the error is logged), and when the
    query returns no event. *)
Theorem checkForPastDeposits_without_events env pastTimeInMinutes latestBlock w :
  (exists a, (checkForPastDeposits env pastTimeInMinutes latestBlock w).1 = Ok a) /\
  (l2BitcoinDepositor env = false ->
   exists w' new,
     checkForPastDeposits env pastTimeInMinutes latestBlock w = (Ok tt, w') /\
     store w' = store w /\ extends w w' new /\
     Forall (fun ev => is_scan ev = true /\ forall a b, ev <> EvQueryFilter a b) new) /\
  (l2BitcoinDepositor env = true ->
   (forall n a b, queryFilter_at env n a b = Ok [] \/
                  exists e, queryFilter_at env n a b = Throw e) ->
   exists w' new,
     checkForPastDeposits env pastTimeInMinutes latestBlock w = (Ok tt, w') /\
     store w' = store w /\ extends w w' new /\
     Forall (fun ev => is_scan ev = true) new).
Proof.
  split; [apply safe_checkForPastDeposits|].
  unfold checkForPastDeposits, try_catch.
  match goal with
  | |- context [bind (Date_now env) ?f w] =>
      match f with
      | (fun now => bind _ ?k) =>
          destruct (scan_prelude env pastTimeInMinutes latestBlock k w)
            as (r & log & Hrun & Hlog)
      end
  end.
  cbv zeta in Hrun. rewrite Hrun. clear Hrun.
  split.
  - intros Hno. rewrite Hno. cbn [negb].
    exists {| store := store w; trace := (log ++ trace w)%list; tick := S (S (tick w)) |},
      log.
    split; [reflexivity|]. split; [reflexivity|]. split; [reflexivity|].
    exact Hlog.
  - intros Hyes Hq. rewrite Hyes. cbn [negb]. apply is_scan_only in Hlog.
    unfold bind at 1, call, bind at 1, record, bind at 1, ask, lift.
    cbn [store trace tick fst snd].
    destruct (Hq (S (S (tick w))) (startBlock r) (endBlock r)) as [Hnone|[e He]].
    + rewrite Hnone. cbn [length Nat.ltb Nat.leb].
      eexists _, (EvQueryFilter (startBlock r) (endBlock r) :: log).
      split; [reflexivity|]. split; [reflexivity|]. split; [reflexivity|].
      constructor; [reflexivity|exact Hlog].
    + rewrite He. unfold LogError, record. cbn [store trace tick].
      eexists _, (EvLog e :: EvQueryFilter (startBlock r) (endBlock r) :: log).
      split; [reflexivity|]. split; [reflexivity|]. split; [reflexivity|].
      repeat (constructor; [reflexivity|]). exact Hlog.
Qed.

Lemma checkForPastDeposits_without_events_witness :
  let d := sample_deposit "42" DepositStatus.QUEUED None None 0 in
  exists w',
    checkForPastDeposits sample_env 60 100 (world_with d) = (Ok tt, w') /\
    store w' = store (world_with d) /\
    Forall (fun ev => is_scan ev = true) (trace w').
Proof.
  intros d.
  destruct (checkForPastDeposits_without_events sample_env 60 100 (world_with d))
    as (_ & _ & Hempty).
  destruct Hempty as (w' & new & Hrun & Hst & Hext & Hall).
  { reflexivity. }
  { intros n a b. left. reflexivity. }
  exists w'. split; [exact Hrun|]. split; [exact Hst|].
  unfold extends in Hext. rewrite Hext, app_nil_r. exact Hall.
Defined.

(** ** Events the deposit id cannot be derived from *)





(** ** The service's scan over deposits it already has *)

Lemma servicePastEvent_known env event w k d :
  getDepositId env (getFundingTxHash env (ev_fundingTx event))
    (reveal0 (ev_reveal event)) = Ok k ->
  stored w k = Some d ->
  servicePastEvent env event w = (Ok tt, w).
Proof.
  intros Hk Hd. unfold servicePastEvent, bind at 1, lift. rewrite Hk.
  unfold bind, getJsonById. fold (stored w k). rewrite Hd. reflexivity.
Qed.

Lemma for_of_skips {A} (f : A -> M unit) (l : list A) w :
  Forall (fun x => f x w = (Ok tt, w)) l -> for_of l f w = (Ok tt, w).
Proof.
  induction 1 as [|x l Hx _ IH]; [reflexivity|].
  cbn [for_of]. unfold bind. rewrite Hx. exact IH.
Qed.

(** X18. The service's [checkForPastDeposits] looks a past event up under
    the deposit id derived from it: when every event of the query belongs
    to a deposit that is already stored, in whatever status, the scan
    writes no file and makes no L1 call, so running it again over the same
    blocks is harmless. *)
Theorem service_scan_skips_known_deposits env pastTimeInMinutes latestBlock w events :
  (forall n a b, queryFilter_at env n a b = Ok events) ->
  Forall (fun event =>
            exists k d,
              getDepositId env (getFundingTxHash env (ev_fundingTx event))
                (reveal0 (ev_reveal event)) = Ok k /\
              stored w k = Some d) events ->
  exists w' log,
    service_checkForPastDeposits env pastTimeInMinutes latestBlock w = (Ok tt, w') /\
    store w' = store w /\ trace w' = (log ++ trace w)%list /\
    Forall (fun ev => is_scan ev = true) log.
Proof.
  intros Hq Hknown. unfold service_checkForPastDeposits, try_catch.
  match goal with
  | |- context [bind (Date_now env) ?f w] =>
      match f with
      | (fun now => bind _ ?k) =>
          destruct (scan_prelude env pastTimeInMinutes latestBlock k w)
            as (r & log & Hrun & Hlog)
      end
  end.
  cbv zeta in Hrun. rewrite Hrun. clear Hrun. apply is_scan_only in Hlog.
  unfold bind at 1, call, bind at 1, record, bind at 1, ask, lift.
  cbn [store trace tick fst snd]. rewrite Hq.
  rewrite for_of_skips.
  - eexists _, (EvQueryFilter (startBlock r) (endBlock r) :: log).
    split; [reflexivity|]. split; [reflexivity|]. split; [reflexivity|].
    constructor; [reflexivity|exact Hlog].
  - eapply Forall_impl; [exact Hknown|]. cbv beta. intros event (k & d & Hk & Hd).
    match goal with
    | |- servicePastEvent env event ?w2 = _ =>
        exact (servicePastEvent_known env event w2 k d Hk Hd)
    end.
Qed.

Lemma service_scan_skips_known_deposits_witness :
  let env := with_l2 sample_env (fun _ _ => FetchNull)
               (fun _ _ _ => Ok [sample_event; sample_event]) in
  exists k w',
    getDepositId env sample_hash 0 = Ok k /\
    let w := world_with (sample_deposit k DepositStatus.FINALIZED (Some "0xinit")
                           (Some "0xfin") 0) in
    service_checkForPastDeposits env 60 100 w = (Ok tt, w') /\ store w' = store w.
Proof.
  intros env.
  destruct (getDepositId env sample_hash 0) as [k|e] eqn:Hk; [|discriminate Hk].
  destruct (service_scan_skips_known_deposits env 60 100
              (world_with (sample_deposit k DepositStatus.FINALIZED (Some "0xinit")
                             (Some "0xfin") 0))
              [sample_event; sample_event])
    as (w' & log & Hrun & Hst & _).
  { intros n a b. reflexivity. }
  { repeat constructor; eexists k, _; (split; [exact Hk|apply stored_world_with]). }
  exists k, w'. split; [reflexivity|]. split; assumption.
Defined.

(** ** The block range on a chain without gaps *)

Lemma binarySearch_ext (f g : Z -> BlockFetch) timestamp fuel :
  (forall n, f n = g n) ->
  forall low high startBlock,
    binarySearch f timestamp fuel low high startBlock
    = binarySearch g timestamp fuel low high startBlock.
Proof.
  intros Hfg. induction fuel as [|fuel IH]; intros low high sb; cbn [binarySearch].
  - reflexivity.
  - rewrite Hfg. destruct (low <=? high)%Z; [|reflexivity].
    destruct (g ((low + high) / 2)) as [e| |t]; [reflexivity|apply IH|].
    destruct (t =? timestamp)%Z; [reflexivity|].
    destruct (t <? timestamp)%Z; apply IH.
Qed.

(** X19. On a chain where every block can be fetched and timestamps never
    decrease, with a start block that is not negative,
    [getBlocksByTimestamp(t, latestBlock)] returns as [startBlock] either a
    block of [START_BLOCK .. latestBlock] stamped exactly [t], or the last
    block of that interval stamped at or before [t]; and [START_BLOCK] when every
    block of the interval is later than [t], in particular when the
    interval is empty. [endBlock] is [latestBlock]; no file is written and
    nothing is logged. *)
Theorem getBlocksByTimestamp_on_a_chain_without_gaps env ts timestamp latestBlock w :
  (forall a b, a <= b -> ts a <= ts b) ->
  (forall n, getBlock_at env (tick w) n = FetchBlock (ts n)) ->
  0 <= START_BLOCK env ->
  exists r,
    getBlocksByTimestamp env timestamp latestBlock w
    = (Ok (Some r),
       {| store := store w; trace := EvGetBlocks timestamp latestBlock :: trace w;
          tick := S (tick w) |}) /\
    endBlock r = latestBlock /\
    ((startBlock r = START_BLOCK env /\
      forall n, START_BLOCK env <= n <= latestBlock -> timestamp < ts n) \/
     (START_BLOCK env <= startBlock r <= latestBlock /\
      ts (startBlock r) <= timestamp /\
      (ts (startBlock r) = timestamp \/
       forall n, startBlock r < n <= latestBlock -> timestamp < ts n))).
Proof.
  intros Hmono Hblocks Hstart.
  unfold getBlocksByTimestamp, bind, record, ask. cbn [tick store trace].
  rewrite (binarySearch_ext _ (fun n => FetchBlock (ts n)) timestamp _ Hblocks).
  destruct (binarySearch_greatest_lower_bound ts timestamp Hmono
              (search_fuel (START_BLOCK env) latestBlock)
              (START_BLOCK env) latestBlock (-1) (le_n _))
    as (sb & Hrun & Hsb).
  rewrite Hrun. eexists. split; [reflexivity|]. cbn [startBlock endBlock].
  split; [reflexivity|].
  destruct Hsb as [[-> Hall]|(Hrange & Hts & Hlast)].
  - left. split; [reflexivity|exact Hall].
  - right. destruct (Z.eqb_spec sb (-1)) as [Hm|_]; [lia|].
    split; [exact Hrange|]. split; [exact Hts|exact Hlast].
Qed.

Lemma getBlocksByTimestamp_on_a_chain_without_gaps_witness :
  let env := with_l2 sample_env (fun _ n => FetchBlock (1000 + 12 * n))
               (fun _ _ _ => Ok []) in
  exists r w',
    getBlocksByTimestamp env 1050 10 empty_world = (Ok (Some r), w') /\
    startBlock r = 4 /\ endBlock r = 10.
Proof.
  intros env.
  destruct (getBlocksByTimestamp_on_a_chain_without_gaps env
              (fun n => 1000 + 12 * n) 1050 10 empty_world)
    as (r & Hrun & Hend & Hstart).
  { intros a b Hab. lia. }
  { intros n. reflexivity. }
  { cbn. lia. }
  eexists r, _. split; [exact Hrun|]. split; [|exact Hend].
  change (START_BLOCK env) with 0 in Hstart.
  destruct Hstart as [[_ Hall]|(Hrange & Hts & [Hhit|Hlast])].
  - specialize (Hall 0). lia.
  - lia.
  - specialize (Hlast (startBlock r + 1)). lia.
Defined.

(** ** The standalone finalizer *)

(** X21. [attemptToFinalizeDeposit] of services/FinalizeDeposits.ts pays
    what the contract quotes: the pre-flight and the transaction carry the
    value [quoteFinalizeDeposit] returned, unchanged, and a mined
    transaction leaves the record FINALIZED with its hash and no error.
    When the quote cannot be read, nothing is asked of L1 for the deposit;
    when the pre-flight reverts, no transaction is sent; in both cases the
    record keeps its status and hashes and takes the reason as its error. *)
Theorem attemptToFinalizeDeposit_pays_the_quote env l1 d w :
  (forall q nonce tx,
     quoteFinalizeDeposit_at l1 (tick w) = Ok q ->
     callStatic_finalizeDeposit_value_at l1 (S (tick w)) (id d) q = Ok tt ->
     getTransactionCount_at env (S (S (tick w))) = Ok nonce ->
     send_finalizeDeposit_at env (S (S (S (tick w)))) (id d) q nonce = Ok tx ->
     wait_at env (S (S (S (S (tick w))))) tx = Ok tt ->
     exists d' w',
       attemptToFinalizeDeposit env l1 d w = (Ok tt, w') /\
       store w' = <[id d := Parsed d']> (store w) /\
       trace w' = EvWriteJson (id d) :: EvWait tx :: EvSendFinalize (id d) q nonce
                  :: EvGetTransactionCount :: EvCallStaticFinalize (id d) :: trace w /\
       same_identity d d' /\ status d' = DepositStatus.FINALIZED /\
       finalizeTxHash (eth (hashes d')) = (if truthy_string tx then Some tx else None) /\
       initializeTxHash (eth (hashes d')) = initializeTxHash (eth (hashes d)) /\
       error d' = None) /\
  (forall e,
     quoteFinalizeDeposit_at l1 (tick w) = Throw e ->
     exists d' w',
       attemptToFinalizeDeposit env l1 d w = (Ok tt, w') /\
       store w' = <[id d := Parsed d']> (store w) /\
       trace w' = EvWriteJson (id d) :: EvLog e :: trace w /\
       same_identity d d' /\ status d' = status d /\ hashes d' = hashes d /\
       error d' = Some (reason_or_unknown e)) /\
  (forall q e,
     quoteFinalizeDeposit_at l1 (tick w) = Ok q ->
     callStatic_finalizeDeposit_value_at l1 (S (tick w)) (id d) q = Throw e ->
     exists d' w',
       attemptToFinalizeDeposit env l1 d w = (Ok tt, w') /\
       store w' = <[id d := Parsed d']> (store w) /\
       trace w' = EvWriteJson (id d) :: EvLog e :: EvCallStaticFinalize (id d)
                  :: trace w /\
       same_identity d d' /\ status d' = status d /\ hashes d' = hashes d /\
       error d' = Some (reason_or_unknown e)).
Proof.
  assert (Hfail : forall e w1,
            exists d',
              (LogError e >>
               updateToFinalizedDeposit env d TxNull (Some (reason_or_unknown e))) w1
              = (Ok tt, {| store := <[id d := Parsed d']> (store w1);
                           trace := EvWriteJson (id d) :: EvLog e :: trace w1;
                           tick := S (tick w1) |}) /\
              same_identity d d' /\ status d' = status d /\ hashes d' = hashes d /\
              error d' = Some (reason_or_unknown e)).
  { intros e w1. unfold bind at 1, LogError, record. cbn [store trace tick].
    unfold updateToFinalizedDeposit, same_identity. cbn.
    rewrite reason_or_unknown_truthy.
    eexists. split; [reflexivity|]. cbn.
    destruct d as [? ? ? [? [? ?]] ? ? ? ? ? ?]. cbn. repeat split. }
  split; [|split].
  - intros q nonce tx Hq H0 H1 H2 H3.
    unfold attemptToFinalizeDeposit, try_catch at 1.
    unfold bind at 1, bind at 1, ask at 1, lift at 1. cbn [tick trace store].
    rewrite Hq. step_call. rewrite H0. step_call. rewrite H1. step_call. rewrite H2.
    step_call. rewrite H3.
    match goal with
    | |- context [updateToFinalizedDeposit env d ?t None ?w2] =>
        destruct (updateToFinalizedDeposit_full env d t None w2)
          as (d' & Hupd & Hid & Hs & Hi & Hf & Herr & _)
    end.
    rewrite Hupd. cbn [store trace tick truthy_tx truthy] in *.
    unfold hash_or_null in Hf. cbn [tx_hash truthy] in Hf.
    eexists d', _. split; [reflexivity|]. cbn [store trace].
    split; [reflexivity|]. split; [reflexivity|]. split; [exact Hid|].
    split; [exact Hs|]. split; [exact Hf|]. split; [exact Hi|exact Herr].
  - intros e Hq.
    unfold attemptToFinalizeDeposit, try_catch at 1.
    unfold bind at 1, bind at 1, ask at 1, lift at 1. cbn [tick trace store].
    rewrite Hq. cbv zeta.
    match goal with
    | |- context [(LogError e >> _) ?w1] => destruct (Hfail e w1) as (d' & Hrun & Hprops)
    end.
    rewrite Hrun. eexists d', _. split; [reflexivity|]. cbn [store trace].
    split; [reflexivity|]. split; [reflexivity|exact Hprops].
  - intros q e Hq H0.
    unfold attemptToFinalizeDeposit, try_catch at 1.
    unfold bind at 1, bind at 1, ask at 1, lift at 1. cbn [tick trace store].
    rewrite Hq. step_call. rewrite H0. cbv zeta.
    match goal with
    | |- context [(LogError e >> _) ?w1] => destruct (Hfail e w1) as (d' & Hrun & Hprops)
    end.
    rewrite Hrun. eexists d', _. split; [reflexivity|]. cbn [store trace].
    split; [reflexivity|]. split; [reflexivity|exact Hprops].
Qed.

Lemma attemptToFinalizeDeposit_pays_the_quote_witness :
  let d := sample_deposit "42" DepositStatus.INITIALIZED (Some "0xinit") None 0 in
  let l1 := {| quoteFinalizeDeposit_at := fun _ => Ok 1000;
               callStatic_finalizeDeposit_value_at := fun _ _ _ => Ok tt |} in
  exists d' w',
    attemptToFinalizeDeposit sample_env l1 d (world_with d) = (Ok tt, w') /\
    stored w' "42" = Some d' /\ status d' = DepositStatus.FINALIZED /\
    finalizeTxHash (eth (hashes d')) = Some "0xfin" /\
    EvSendFinalize "42" 1000 7 ∈ trace w'.
Proof.
  intros d l1.
  destruct (attemptToFinalizeDeposit_pays_the_quote sample_env l1 d (world_with d))
    as (Hok & _ & _).
  destruct (Hok 1000 7 "0xfin") as (d' & w' & Hrun & Hst & Htr & _ & Hs & Hf & _);
    try reflexivity.
  exists d', w'. split; [exact Hrun|]. split.
  { unfold stored. rewrite Hst. change (id d) with "42".
    rewrite lookup_insert_eq. reflexivity. }
  split; [exact Hs|]. split; [exact Hf|]. rewrite Htr. do 2 right. left.
Defined.

(** ** Which inputs have a deposit id, and which share one *)

Lemma bytes_of_hex_inv bs : forall h,
  bytes_of_hex h = Some bs ->
  isHex h = true /\ String.length h = (2 * length bs)%nat.
Proof.
  induction bs as [|x bs IH]; intros h Hh.
  - destruct h as [|a [|b r]]; cbn [bytes_of_hex] in Hh; try discriminate.
    + split; reflexivity.
    + destruct (hexValue a), (hexValue b), (bytes_of_hex r); try discriminate.
      destruct (Byte.of_N _); discriminate.
  - destruct h as [|a [|b r]]; cbn [bytes_of_hex] in Hh; try discriminate.
    cbn [isHex]. unfold isHexChar.
    destruct (hexValue a), (hexValue b); try discriminate.
    destruct (bytes_of_hex r) as [bs'|] eqn:Hr; try discriminate.
    destruct (Byte.of_N _); try discriminate. injection Hh as _ ->.
    destruct (IH r Hr) as [Hhex Hlen]. split; [exact Hhex|].
    cbn [String.length length]. lia.
Qed.

Lemma isHex_false_no_bytes h : isHex h = false -> bytes_of_hex h = None.
Proof.
  intros Hh. destruct (bytes_of_hex h) as [bs|] eqn:Hbs; [|reflexivity].
  apply bytes_of_hex_inv in Hbs as [Hhex _]. congruence.
Qed.

Lemma hex_of_bytes_length bs : String.length (hex_of_bytes bs) = (2 * length bs)%nat.
Proof. induction bs as [|b bs IH]; [reflexivity|]. cbn [hex_of_bytes String.length length]. lia. Qed.

Lemma lower_hex_bytes h : bytes_of_hex (lower_hex h) = bytes_of_hex h.
Proof.
  unfold lower_hex. destruct (bytes_of_hex h) as [bs|] eqn:Hbs; [|exact Hbs].
  apply bytes_of_hex_of_bytes.
Qed.

Lemma lower_hex_length h : String.length (lower_hex h) = String.length h.
Proof.
  unfold lower_hex. destruct (bytes_of_hex h) as [bs|] eqn:Hbs; [|reflexivity].
  apply bytes_of_hex_inv in Hbs as [_ ->]. apply hex_of_bytes_length.
Qed.

Lemma pack_bytes32_0x h :
  pack_bytes32 ("0x" ++ h)
  = match bytes_of_hex h with
    | Some bs => if (length bs =? 32)%nat then Ok bs
                 else Throw (Error "invalid value for bytes32")
    | None => Throw (Error "invalid arrayify value")
    end.
Proof.
  unfold pack_bytes32, arrayify. rewrite prefix_0x.
  destruct (bytes_of_hex h); reflexivity.
Qed.

(** What an id returned by [getDepositId] was computed from. *)
Lemma getDepositId_ok_inv env h idx k :
  getDepositId env h idx = Ok k ->
  exists bs y,
    String.length h = 64%nat /\ bytes_of_hex h = Some bs /\ length bs = 32%nat /\
    pack_uint32 idx = Ok y /\
    k = BigNumber_toString (uint_of_bytes (keccak_256 env (bs ++ y)%list)).
Proof.
  unfold getDepositId.
  destruct (Nat.eqb_spec (String.length h) 64) as [Hlen|]; cbn [negb]; [|discriminate].
  unfold solidityPack_bytes32_uint32. rewrite pack_bytes32_0x.
  destruct (bytes_of_hex h) as [bs|]; [|discriminate].
  destruct (Nat.eqb_spec (length bs) 32) as [Hl|]; [|discriminate].
  destruct (pack_uint32 idx) as [y|]; [|discriminate].
  unfold keccak256. rewrite arrayify_hexlify, BigNumber_from_hexlify.
  intros [= <-]. exists bs, y. repeat split; assumption.
Qed.

Lemma pack_uint32_nonneg idx y :
  0 <= idx -> pack_uint32 idx = Ok y -> idx < 2 ^ 32 /\ y = uint32_be idx.
Proof.
  intros Hidx. unfold pack_uint32.
  destruct (Z.leb_spec idx (- (2 ^ 53 - 1))); [lia|].
  destruct (Z.leb_spec (2 ^ 53 - 1) idx); cbn [orb]; [discriminate|].
  destruct (Z.ltb_spec idx 0); [lia|]. cbv zeta.
  destruct (Z.ltb_spec idx (2 ^ 32)); [|discriminate].
  intros [= <-]. split; [assumption|apply be32_uint32_be].
Qed.

(** X20. For an output index that is not negative, [getDepositId] returns
    an id exactly when the funding hash is 64 hexadecimal digits and the
    index is below [2^32]; otherwise it throws. The id does not depend on
    the case of the hexadecimal digits. *)
Theorem getDepositId_domain env h idx :
  0 <= idx ->
  ((exists k, getDepositId env h idx = Ok k) <->
   String.length h = 64%nat /\ isHex h = true /\ idx < 2 ^ 32) /\
  getDepositId env (lower_hex h) idx = getDepositId env h idx.
Proof.
  intros Hidx. split; [split|].
  - intros [k Hk].
    destruct (getDepositId_ok_inv env h idx k Hk) as (bs & y & Hlen & Hbs & _ & Hy & _).
    apply bytes_of_hex_inv in Hbs as [Hhex _].
    apply pack_uint32_nonneg in Hy as [Hlt _]; [|exact Hidx].
    repeat split; assumption.
  - intros (Hlen & Hhex & Hlt).
    destruct (getDepositId_spec env h idx Hlen Hhex (conj Hidx Hlt)) as (k & _ & Hk).
    exists k. exact Hk.
  - unfold getDepositId. rewrite lower_hex_length.
    destruct (negb (String.length h =? 64)%nat); [reflexivity|].
    unfold solidityPack_bytes32_uint32. rewrite !pack_bytes32_0x, lower_hex_bytes.
    reflexivity.
Qed.

Lemma getDepositId_domain_witness :
  (exists k, getDepositId sample_env sample_hash 5 = Ok k) /\
  getDepositId sample_env
    "abcdef1111111111111111111111111111111111111111111111111111111111" 5
  = getDepositId sample_env
      "ABCDEF1111111111111111111111111111111111111111111111111111111111" 5.
Proof.
  split.
  - apply (getDepositId_domain sample_env sample_hash 5); [lia|].
    split; [reflexivity|]. split; [reflexivity|lia].
  - pose proof (proj2 (getDepositId_domain sample_env
        "ABCDEF1111111111111111111111111111111111111111111111111111111111" 5
        ltac:(lia))) as H.
    replace (lower_hex "ABCDEF1111111111111111111111111111111111111111111111111111111111")
      with "abcdef1111111111111111111111111111111111111111111111111111111111" in H
      by (vm_compute; reflexivity).
    exact H.
Defined.

Lemma BigNumber_toString_inj n n' :
  BigNumber_toString n = BigNumber_toString n' -> n = n'.
Proof.
  unfold BigNumber_toString. intros H.
  assert (Hnn : forall m, N.to_uint m <> Decimal.Nil).
  { intros [|p]; [discriminate|]. apply DecimalPos.Unsigned.to_uint_nonnil. }
  apply DecimalN.Unsigned.to_uint_inj.
  pose proof (NilZero.usu _ (Hnn n)) as H1. pose proof (NilZero.usu _ (Hnn n')) as H2.
  rewrite H in H1. congruence.
Qed.

Lemma byte_of_small x :
  0 <= x < 256 -> exists b, Byte.of_N (Z.to_N x) = Some b /\ Byte.to_N b = Z.to_N x.
Proof.
  intros Hx. destruct (Byte.of_N (Z.to_N x)) as [b|] eqn:Hb.
  - exists b. split; [reflexivity|]. apply Byte.to_of_N. exact Hb.
  - apply Byte.of_N_None_iff in Hb. lia.
Qed.

Lemma uint32_be_bytes n :
  exists b3 b2 b1 b0,
    uint32_be n = [b3; b2; b1; b0] /\
    Byte.to_N b3 = Z.to_N ((n / 2 ^ 24) mod 256) /\
    Byte.to_N b2 = Z.to_N ((n / 2 ^ 16) mod 256) /\
    Byte.to_N b1 = Z.to_N ((n / 2 ^ 8) mod 256) /\
    Byte.to_N b0 = Z.to_N ((n / 2 ^ 0) mod 256).
Proof.
  unfold uint32_be. cbn [omap list_omap].
  destruct (byte_of_small ((n / 2 ^ 24) mod 256)) as (b3 & -> & H3);
    [apply Z.mod_pos_bound; lia|].
  destruct (byte_of_small ((n / 2 ^ 16) mod 256)) as (b2 & -> & H2);
    [apply Z.mod_pos_bound; lia|].
  destruct (byte_of_small ((n / 2 ^ 8) mod 256)) as (b1 & -> & H1);
    [apply Z.mod_pos_bound; lia|].
  destruct (byte_of_small ((n / 2 ^ 0) mod 256)) as (b0 & -> & H0);
    [apply Z.mod_pos_bound; lia|].
  exists b3, b2, b1, b0. repeat split; assumption.
Qed.

Lemma uint_of_bytes_uint32_be n :
  0 <= n < 2 ^ 32 -> uint_of_bytes (uint32_be n) = Z.to_N n.
Proof.
  intros Hn. destruct (uint32_be_bytes n) as (b3 & b2 & b1 & b0 & -> & H3 & H2 & H1 & H0).
  unfold uint_of_bytes. cbn [fold_left]. rewrite H3, H2, H1, H0.
  change (2 ^ 24) with 16777216. change (2 ^ 16) with 65536.
  change (2 ^ 8) with 256. change (2 ^ 0) with 1.
  change (2 ^ 32) with 4294967296 in Hn.
  Z.div_mod_to_equations. lia.
Qed.

Lemma uint32_be_inj n m :
  0 <= n < 2 ^ 32 -> 0 <= m < 2 ^ 32 -> uint32_be n = uint32_be m -> n = m.
Proof.
  intros Hn Hm H. apply (f_equal uint_of_bytes) in H.
  rewrite !uint_of_bytes_uint32_be in H by assumption. lia.
Qed.

(** X22. Two inputs get the same deposit id only if they are the same
    deposit, or the digest collides: when [getDepositId] returns the same
    id for two funding hashes and (non-negative) output indices, either the
    hashes spell the same 32 bytes and the indices are equal, or two
    different 36-byte strings have digests with the same value. *)
Theorem getDepositId_collisions env h idx h' idx' k :
  0 <= idx -> 0 <= idx' ->
  getDepositId env h idx = Ok k -> getDepositId env h' idx' = Ok k ->
  (bytes_of_hex h = bytes_of_hex h' /\ idx = idx') \/
  (exists p p' : list byte,
     p <> p' /\ length p = 36%nat /\ length p' = 36%nat /\
     uint_of_bytes (keccak_256 env p) = uint_of_bytes (keccak_256 env p')).
Proof.
  intros Hidx Hidx' Hk Hk'.
  destruct (getDepositId_ok_inv env h idx k Hk) as (bs & y & _ & Hbs & Hl & Hy & Hkey).
  destruct (getDepositId_ok_inv env h' idx' k Hk')
    as (bs' & y' & _ & Hbs' & Hl' & Hy' & Hkey').
  apply pack_uint32_nonneg in Hy as [Hlt ->]; [|exact Hidx].
  apply pack_uint32_nonneg in Hy' as [Hlt' ->]; [|exact Hidx'].
  rewrite Hkey in Hkey'. apply BigNumber_toString_inj in Hkey'.
  destruct (List.list_eq_dec Byte.byte_eq_dec (bs ++ uint32_be idx)%list
              (bs' ++ uint32_be idx')%list) as [Heq|Hne].
  - left. apply app_inj_1 in Heq as [-> Hidxs]; [|congruence].
    split; [congruence|]. apply uint32_be_inj; [lia|lia|exact Hidxs].
  - right. exists (bs ++ uint32_be idx)%list, (bs' ++ uint32_be idx')%list.
    destruct (uint32_be_bytes idx) as (? & ? & ? & ? & Hb & _).
    destruct (uint32_be_bytes idx') as (? & ? & ? & ? & Hb' & _).
    split; [exact Hne|]. split; [|split; [|exact Hkey']].
    + rewrite length_app, Hl, Hb. reflexivity.
    + rewrite length_app, Hl', Hb'. reflexivity.
Qed.

Lemma getDepositId_collisions_witness :
  exists k,
    getDepositId sample_env sample_hash 5 = Ok k /\
    (bytes_of_hex sample_hash = bytes_of_hex sample_hash /\ 5 = 5 \/
     exists p p' : list byte,
       p <> p' /\ length p = 36%nat /\ length p' = 36%nat /\
       uint_of_bytes (keccak_256 sample_env p) = uint_of_bytes (keccak_256 sample_env p')).
Proof.
  destruct (getDepositId sample_env sample_hash 5) as [k|e] eqn:Hk; [|discriminate Hk].
  exists k. split; [reflexivity|].
  apply (getDepositId_collisions sample_env sample_hash 5 sample_hash 5 k);
    [lia|lia|exact Hk|exact Hk].
Defined.

(** ** The listing by status *)

(** X23. [getAllJsonOperationsByStatus] of utils/JsonUtils.ts compares the
    status of each record with its argument by strict equality. Called with
    a member of the numeric enum it returns exactly the records of the full
    listing that have that status, in the order of that listing: the
    records of the .json files that parse. Called with a string, as
    [getAllJsonOperationsByStatus("QUEUED")] in the handlers, it returns the
    empty list whatever the store holds, because a number is never strictly
    equal to a string. In both cases it leaves the store as it is and logs
    what the full listing logs: one line for each .json file that does not
    parse. *)
Theorem listing_by_status_is_strict (w : World) :
  exists all logs,
    let w' := {| store := store w; trace := (logs ++ trace w)%list; tick := tick w |} in
    getAllJsonOperations w = (Ok all, w') /\
    (forall ev, ev ∈ logs <->
       exists k, listed k = true /\ store w !! k = Some Corrupt /\
                 ev = EvLog (invalid_json_file k)) /\
    (forall n,
       getAllJsonOperationsByStatus (JsNumber n) w
       = (Ok (filter (fun d => status d = n) all), w') /\
       (forall d, d ∈ filter (fun d => status d = n) all <->
                  (exists k, listed k = true /\ store w !! k = Some (Parsed d)) /\
                  status d = n)) /\
    (forall name, getAllJsonOperationsByStatus (JsString name) w = (Ok [], w')).
Proof.
  exists (records (store w)), (invalid_json_logs (store w)). cbv zeta.
  split; [apply getAllJsonOperations_run|].
  split; [apply invalid_json_logs_elem|]. split.
  - intros n. split.
    + rewrite getAllJsonOperationsByStatus_run, filter_strict_number. reflexivity.
    + intros d. rewrite list_elem_of_filter, records_elem. tauto.
  - intros name. rewrite getAllJsonOperationsByStatus_run, filter_strict_string.
    reflexivity.
Qed.

(** On a store with one QUEUED record: listed under the number, not under
    the name. *)
Example listing_by_status_run :
  let d := sample_deposit "42" DepositStatus.QUEUED None None 0 in
  getAllJsonOperationsByStatus (JsNumber DepositStatus.QUEUED) (world_with d)
  = (Ok [d], world_with d) /\
  getAllJsonOperationsByStatus (JsString "QUEUED") (world_with d)
  = (Ok [], world_with d).
Proof. vm_compute. split; reflexivity. Qed.

(** ** The block range of an empty interval *)

(** X24. When [latestBlock] is below [START_BLOCK] (as with the latest
    block [0] that a handler without L2 provider reports),
    [getBlocksByTimestamp] returns [START_BLOCK] as [startBlock] and
    [latestBlock] as [endBlock], a range whose start is above its end,
    whatever the timestamp is and whatever the chain would answer: the
    search finds no candidate and nothing is logged. *)
Theorem getBlocksByTimestamp_empty_interval env timestamp latestBlock w :
  latestBlock < START_BLOCK env ->
  getBlocksByTimestamp env timestamp latestBlock w
  = (Ok (Some {| startBlock := START_BLOCK env; endBlock := latestBlock |}),
     {| store := store w; trace := EvGetBlocks timestamp latestBlock :: trace w;
        tick := S (tick w) |}) /\
  candidates (getBlock_at env (tick w)) timestamp
    (search_fuel (START_BLOCK env) latestBlock) (START_BLOCK env) latestBlock = [].
Proof.
  intros Hlt. unfold getBlocksByTimestamp, bind, record, ask. cbn [tick store trace].
  assert (Hfuel : search_fuel (START_BLOCK env) latestBlock = 0%nat).
  { unfold search_fuel. lia. }
  rewrite Hfuel. cbn [binarySearch candidates].
  destruct (Z.leb_spec (START_BLOCK env) latestBlock); [lia|].
  split; reflexivity.
Qed.

Lemma getBlocksByTimestamp_empty_interval_witness :
  let env := with_l2 sample_env (fun _ _ => FetchThrows (Error "timeout"))
               (fun _ _ _ => Ok []) in
  (getBlocksByTimestamp env 1050 (-5) empty_world).1
  = Ok (Some {| startBlock := 0; endBlock := -5 |}).
Proof.
  intros env.
  destruct (getBlocksByTimestamp_empty_interval env 1050 (-5) empty_world) as [Hrun _].
  { cbn. lia. }
  rewrite Hrun. reflexivity.
Defined.

(** ** The record of a new deposit *)

(** X25. [createDeposit] writes no file and leaves no trace. It throws
    exactly when [getDepositId] throws for the funding hash and the output
    index of the event. Otherwise it returns a QUEUED record filed under
    that id, with no L1 hash, no error and no initialization or
    finalization time, whose receipt and [L1OutputEvent] carry the reveal,
    the owner and the sender of the event and the four fields of the
    funding transaction (a [transactionHash] property of the event is not
    kept). [createdAt] and [lastActivityAt] are two readings of the clock,
    the first not later than the second when the clock never goes back. *)
Theorem createDeposit_record env ftx rv o s w :
  (forall e,
     getDepositId env (getFundingTxHash env ftx) (reveal0 rv) = Throw e ->
     createDeposit env ftx rv o s w = (Throw e, w)) /\
  (forall k,
     getDepositId env (getFundingTxHash env ftx) (reveal0 rv) = Ok k ->
     exists d w',
       createDeposit env ftx rv o s w = (Ok d, w') /\
       store w' = store w /\ trace w' = trace w /\
       id d = k /\ status d = DepositStatus.QUEUED /\ hashes_consistent d /\
       eth (hashes d) = {| initializeTxHash := None; finalizeTxHash := None |} /\
       error d = None /\
       fundingTxHash d = getFundingTxHash env ftx /\ outputIndex d = reveal0 rv /\
       owner d = o /\ depositor (receipt d) = s /\
       reveal (L1OutputEvent d) = rv /\
       l2DepositOwner (L1OutputEvent d) = o /\ l2Sender (L1OutputEvent d) = s /\
       version (fundingTx (L1OutputEvent d)) = version ftx /\
       inputVector (fundingTx (L1OutputEvent d)) = inputVector ftx /\
       outputVector (fundingTx (L1OutputEvent d)) = outputVector ftx /\
       locktime (fundingTx (L1OutputEvent d)) = locktime ftx /\
       transactionHash (fundingTx (L1OutputEvent d)) = None /\
       initializationAt (dates d) = None /\ finalizationAt (dates d) = None /\
       (exists c, createdAt (dates d) = Some c /\
                  (clock_monotone env -> c <= lastActivityAt (dates d)))).
Proof.
  split.
  - intros e He. unfold createDeposit, bind, lift. rewrite He. reflexivity.
  - intros k Hk. unfold createDeposit, bind, lift, Date_now, ask, ret. rewrite Hk.
    cbn [fst snd store trace tick]. eexists _, _. split; [reflexivity|].
    cbn. unfold hashes_consistent. cbn.
    repeat split; try congruence.
    eexists. split; [reflexivity|]. intros Hclock. apply Hclock. lia.
Qed.

Lemma createDeposit_record_witness :
  exists d w',
    createDeposit sample_env sample_fundingTx sample_reveal "0xowner" "0xsender"
      empty_world = (Ok d, w') /\
    store w' = ∅ /\ status d = DepositStatus.QUEUED /\
    createdAt (dates d) = Some 1700000000000 /\
    lastActivityAt (dates d) = 1700000001000.
Proof.
  destruct (getDepositId sample_env sample_hash 0) as [k|e] eqn:Hk; [|discriminate Hk].
  destruct (createDeposit_record sample_env sample_fundingTx sample_reveal
              "0xowner" "0xsender" empty_world) as (_ & Hok).
  destruct (Hok k Hk) as (d & w' & Hrun & Hst & _ & _ & Hs & _).
  exists d, w'. split; [exact Hrun|]. split; [exact Hst|]. split; [exact Hs|].
  clear Hst Hs. revert Hrun. unfold createDeposit, bind, lift.
  change (getDepositId sample_env (getFundingTxHash sample_env sample_fundingTx)
            (reveal0 sample_reveal))
    with (getDepositId sample_env sample_hash 0).
  rewrite Hk. cbn. intros [= <- _]. cbn. split; reflexivity.
Defined.
